(** * SelectionSetManager: the registry of selection sets and parent groups

    A shallow embedding of [SelectionSetManager/managers.py].  The manager
    object is a record of finite maps keyed by name; every method becomes a
    function from the host snapshot and the manager to a [result] carrying
    the Python return value, the manager after the call and the trace of
    host commands the call issued ([cmds.warning], [cmds.select], ...). *)

From stdpp Require Import gmap strings list fin_maps pretty relations.
From Stdlib Require Import ZArith Ascii.

Local Open Scope string_scope.

(** ** Values stored in the registries and read from a JSON file *)

(** What [json.load] hands back.  A JSON object is the list of its items in
    file order (Python dicts keep insertion order).  Numbers are the integer
    literals; the manager does no arithmetic on numbers read from a file
    except on the coordinates of stored positions. *)
#[local] Unset Elimination Schemes.
Inductive json : Type :=
| JNull
| JBool (b : bool)
| JNum (n : Z)
| JStr (s : string)
| JList (l : list json)
| JDict (d : list (string * json)).
#[local] Set Elimination Schemes.

(** Exceptions of the Python run time and of the host commands. *)
Inductive exn : Type :=
| TypeError | AttributeError | KeyError | IndexError | ValueError | OSError.

(** The text a warning prints for a caught exception.  Python prints the
    message of the exception, [str(e)], which varies with the operands; the
    name of its class stands for that message here. *)
Definition exn_text (e : exn) : string :=
  match e with
  | TypeError => "TypeError" | AttributeError => "AttributeError"
  | KeyError => "KeyError" | IndexError => "IndexError"
  | ValueError => "ValueError" | OSError => "OSError"
  end.

Module Py.

(** Truth value of an object in [if x], [all] and [any]. *)
Definition truthy (v : json) : bool :=
  match v with
  | JNull => false
  | JBool b => b
  | JNum n => negb (n =? 0)%Z
  | JStr s => negb (String.eqb s "")
  | JList l => match l with [] => false | _ => true end
  | JDict d => match d with [] => false | _ => true end
  end.

(** [if name] for an argument that is a string or [None]. *)
Definition name_truthy (o : option string) : bool :=
  match o with
  | Some s => negb (String.eqb s "")
  | None => false
  end.

(** [d.get(key, default)] on a dict. *)
Fixpoint assoc (key : string) (d : list (string * json)) : option json :=
  match d with
  | [] => None
  | (k, v) :: d' => if String.eqb k key then Some v else assoc key d'
  end.

Definition get (key : string) (default : json) (d : list (string * json)) : json :=
  match assoc key d with Some v => v | None => default end.

Definition is_str (name : string) (v : json) : bool :=
  match v with JStr s => String.eqb s name | _ => false end.

(** [name in c] for a string [name]: key test on a dict, element test on a
    list, substring test on a string, TypeError otherwise. *)
Definition contains (name : string) (c : json) : exn + bool :=
  match c with
  | JDict d => inr (if assoc name d is Some _ then true else false)
  | JList l => inr (existsb (is_str name) l)
  | JStr s => inr (if String.index 0 name s is Some _ then true else false)
  | _ => inl TypeError
  end.

(** [c[name]] for a string [name]. *)
Definition getitem (name : string) (c : json) : exn + json :=
  match c with
  | JDict d => match assoc name d with Some v => inr v | None => inl KeyError end
  | _ => inl TypeError
  end.

(** [c.items()]. *)
Definition items (c : json) : exn + list (string * json) :=
  match c with
  | JDict d => inr d
  | _ => inl AttributeError
  end.

Fixpoint chars (s : string) : list json :=
  match s with
  | EmptyString => []
  | String a s' => JStr (String a EmptyString) :: chars s'
  end.

(** [for x in c]. *)
Definition iter (c : json) : exn + list json :=
  match c with
  | JList l => inr l
  | JDict d => inr (JStr <$> d.*1)
  | JStr s => inr (chars s)
  | _ => inl TypeError
  end.

(** [pos[i]] for an integer index. *)
Definition index (i : nat) (c : json) : exn + json :=
  match c with
  | JList l => match l !! i with Some v => inr v | None => inl IndexError end
  | JStr s => match chars s !! i with Some v => inr v | None => inl IndexError end
  | JDict _ => inl KeyError
  | _ => inl TypeError
  end.

(** The integer a value stands for in arithmetic ([True] is 1). *)
Definition num (v : json) : exn + Z :=
  match v with
  | JNum n => inr n
  | JBool b => inr (if b then 1 else 0)%Z
  | _ => inl TypeError
  end.

(** [l.remove(x)] when [x in l]: the first occurrence goes. *)
Fixpoint remove_first (x : string) (l : list string) : list string :=
  match l with
  | [] => []
  | y :: l' => if String.eqb y x then l' else y :: remove_first x l'
  end.

Definition mem (x : string) (l : list string) : bool :=
  existsb (String.eqb x) l.

End Py.

(** ** The host application *)

(** What a file holds when [json.load] reads it. *)
Inductive file_content : Type :=
| Garbage
| Document (doc : json).

(** A background image on disk, as [export_sets] sees it. *)
Inductive image_status : Type :=
| NoImage
| Unreadable
| Image (base64_data : string) (extension : string).

Record Host := {
  objExists : string → bool;
  selection : list string;
  files : gmap string file_content;
  writable : string → bool;
  image_file : string → image_status;
  restore_image : json → string → exn + string }.

(** Commands a method sends to the host. *)
Inductive event : Type :=
| Warning (msg : string)
| InViewMessage (msg : string)
| Select (objects : list string)
| SelectClear
| FileWritten (path : string) (doc : json).

(** [cmds.select(objects, replace=True)]: the host refuses names that do not
    resolve. *)
Definition cmds_select (h : Host) (objects : list string) : exn + event :=
  if forallb (objExists h) objects then inr (Select objects) else inl ValueError.

(** [cmds.objExists(obj)]: the host takes a name. *)
Definition cmds_objExists (h : Host) (obj : json) : exn + bool :=
  match obj with
  | JStr s => inr (objExists h s)
  | _ => inl TypeError
  end.

Definition json_load (h : Host) (path : string) : exn + json :=
  match files h !! path with
  | None => inl OSError
  | Some Garbage => inl ValueError
  | Some (Document doc) => inr doc
  end.

(** The host after it has carried out the commands of a trace. *)
Definition host_step (h : Host) (e : event) : Host :=
  match e with
  | Select objs =>
      {| objExists := objExists h; selection := objs; files := files h;
         writable := writable h; image_file := image_file h;
         restore_image := restore_image h |}
  | SelectClear =>
      {| objExists := objExists h; selection := []; files := files h;
         writable := writable h; image_file := image_file h;
         restore_image := restore_image h |}
  | FileWritten path doc =>
      {| objExists := objExists h; selection := selection h;
         files := <[path := Document doc]> (files h);
         writable := writable h; image_file := image_file h;
         restore_image := restore_image h |}
  | _ => h
  end.

Definition host_after (h : Host) (tr : list event) : Host := foldl host_step h tr.

(** ** The manager *)

(** [active_channels]: a dict whose six keys never change. *)
Record Channels := {
  tx : json; ty : json; tz : json;
  rx : json; ry : json; rz : json }.

Record Manager := {
  sets : gmap string (list string);
  set_positions : gmap string json;
  set_colors : gmap string json;
  set_sizes : gmap string json;
  set_transparency : gmap string json;
  set_parents : gmap string (option string);
  background_image : option string;
  active_channels : Channels;
  parent_groups : gmap string (list string);
  group_positions : gmap string json;
  group_colors : gmap string json;
  group_sizes : gmap string json;
  group_transparency : gmap string json }.

(** [SelectionSetManager.__init__] *)
Definition init : Manager := {|
  sets := ∅; set_positions := ∅; set_colors := ∅; set_sizes := ∅;
  set_transparency := ∅; set_parents := ∅; background_image := None;
  active_channels := {| tx := JBool true; ty := JBool true; tz := JBool true;
                        rx := JBool true; ry := JBool true; rz := JBool true |};
  parent_groups := ∅; group_positions := ∅; group_colors := ∅;
  group_sizes := ∅; group_transparency := ∅ |}.

(** What a method call comes to: it returns, an exception escapes it, or the
    model ran out of steps (the Python loop or recursion does not end). *)
Inductive result (A : Type) : Type :=
| Returns (v : A) (st : Manager) (tr : list event)
| Raises (e : exn) (st : Manager) (tr : list event)
| OutOfFuel.
Arguments Returns {A} v st tr.
Arguments Raises {A} e st tr.
Arguments OutOfFuel {A}.

Definition has_key {V} (m : gmap string V) (k : string) : bool :=
  match m !! k with Some _ => true | None => false end.

(** Assignment to one attribute of the manager object. *)
Definition with_sets (v : gmap string (list string)) (st : Manager) : Manager :=
  {| sets := v; set_positions := set_positions st;
     set_colors := set_colors st; set_sizes := set_sizes st;
     set_transparency := set_transparency st; set_parents := set_parents st;
     background_image := background_image st;
     active_channels := active_channels st;
     parent_groups := parent_groups st;
     group_positions := group_positions st; group_colors := group_colors st;
     group_sizes := group_sizes st;
     group_transparency := group_transparency st |}.
Definition with_set_positions (v : gmap string json) (st : Manager) : Manager :=
  {| sets := sets st; set_positions := v; set_colors := set_colors st;
     set_sizes := set_sizes st; set_transparency := set_transparency st;
     set_parents := set_parents st; background_image := background_image st;
     active_channels := active_channels st;
     parent_groups := parent_groups st;
     group_positions := group_positions st; group_colors := group_colors st;
     group_sizes := group_sizes st;
     group_transparency := group_transparency st |}.
Definition with_set_colors (v : gmap string json) (st : Manager) : Manager :=
  {| sets := sets st; set_positions := set_positions st; set_colors := v;
     set_sizes := set_sizes st; set_transparency := set_transparency st;
     set_parents := set_parents st; background_image := background_image st;
     active_channels := active_channels st;
     parent_groups := parent_groups st;
     group_positions := group_positions st; group_colors := group_colors st;
     group_sizes := group_sizes st;
     group_transparency := group_transparency st |}.
Definition with_set_sizes (v : gmap string json) (st : Manager) : Manager :=
  {| sets := sets st; set_positions := set_positions st;
     set_colors := set_colors st; set_sizes := v;
     set_transparency := set_transparency st; set_parents := set_parents st;
     background_image := background_image st;
     active_channels := active_channels st;
     parent_groups := parent_groups st;
     group_positions := group_positions st; group_colors := group_colors st;
     group_sizes := group_sizes st;
     group_transparency := group_transparency st |}.
Definition with_set_transparency (v : gmap string json) (st : Manager) : Manager :=
  {| sets := sets st; set_positions := set_positions st;
     set_colors := set_colors st; set_sizes := set_sizes st;
     set_transparency := v; set_parents := set_parents st;
     background_image := background_image st;
     active_channels := active_channels st;
     parent_groups := parent_groups st;
     group_positions := group_positions st; group_colors := group_colors st;
     group_sizes := group_sizes st;
     group_transparency := group_transparency st |}.
Definition with_set_parents (v : gmap string (option string)) (st : Manager) : Manager :=
  {| sets := sets st; set_positions := set_positions st;
     set_colors := set_colors st; set_sizes := set_sizes st;
     set_transparency := set_transparency st; set_parents := v;
     background_image := background_image st;
     active_channels := active_channels st;
     parent_groups := parent_groups st;
     group_positions := group_positions st; group_colors := group_colors st;
     group_sizes := group_sizes st;
     group_transparency := group_transparency st |}.
Definition with_background_image (v : option string) (st : Manager) : Manager :=
  {| sets := sets st; set_positions := set_positions st;
     set_colors := set_colors st; set_sizes := set_sizes st;
     set_transparency := set_transparency st; set_parents := set_parents st;
     background_image := v; active_channels := active_channels st;
     parent_groups := parent_groups st;
     group_positions := group_positions st; group_colors := group_colors st;
     group_sizes := group_sizes st;
     group_transparency := group_transparency st |}.
Definition with_active_channels (v : Channels) (st : Manager) : Manager :=
  {| sets := sets st; set_positions := set_positions st;
     set_colors := set_colors st; set_sizes := set_sizes st;
     set_transparency := set_transparency st; set_parents := set_parents st;
     background_image := background_image st; active_channels := v;
     parent_groups := parent_groups st;
     group_positions := group_positions st; group_colors := group_colors st;
     group_sizes := group_sizes st;
     group_transparency := group_transparency st |}.
Definition with_parent_groups (v : gmap string (list string)) (st : Manager) : Manager :=
  {| sets := sets st; set_positions := set_positions st;
     set_colors := set_colors st; set_sizes := set_sizes st;
     set_transparency := set_transparency st; set_parents := set_parents st;
     background_image := background_image st;
     active_channels := active_channels st; parent_groups := v;
     group_positions := group_positions st; group_colors := group_colors st;
     group_sizes := group_sizes st;
     group_transparency := group_transparency st |}.
Definition with_group_positions (v : gmap string json) (st : Manager) : Manager :=
  {| sets := sets st; set_positions := set_positions st;
     set_colors := set_colors st; set_sizes := set_sizes st;
     set_transparency := set_transparency st; set_parents := set_parents st;
     background_image := background_image st;
     active_channels := active_channels st;
     parent_groups := parent_groups st; group_positions := v;
     group_colors := group_colors st; group_sizes := group_sizes st;
     group_transparency := group_transparency st |}.
Definition with_group_colors (v : gmap string json) (st : Manager) : Manager :=
  {| sets := sets st; set_positions := set_positions st;
     set_colors := set_colors st; set_sizes := set_sizes st;
     set_transparency := set_transparency st; set_parents := set_parents st;
     background_image := background_image st;
     active_channels := active_channels st;
     parent_groups := parent_groups st;
     group_positions := group_positions st; group_colors := v;
     group_sizes := group_sizes st;
     group_transparency := group_transparency st |}.
Definition with_group_sizes (v : gmap string json) (st : Manager) : Manager :=
  {| sets := sets st; set_positions := set_positions st;
     set_colors := set_colors st; set_sizes := set_sizes st;
     set_transparency := set_transparency st; set_parents := set_parents st;
     background_image := background_image st;
     active_channels := active_channels st;
     parent_groups := parent_groups st;
     group_positions := group_positions st; group_colors := group_colors st;
     group_sizes := v; group_transparency := group_transparency st |}.
Definition with_group_transparency (v : gmap string json) (st : Manager) : Manager :=
  {| sets := sets st; set_positions := set_positions st;
     set_colors := set_colors st; set_sizes := set_sizes st;
     set_transparency := set_transparency st; set_parents := set_parents st;
     background_image := background_image st;
     active_channels := active_channels st;
     parent_groups := parent_groups st;
     group_positions := group_positions st; group_colors := group_colors st;
     group_sizes := group_sizes st; group_transparency := v |}.

(** ** Sequencing of steps that can raise *)

#[global] Instance exn_ret : MRet (sum exn) := fun A a => inr a.
#[global] Instance exn_bind : MBind (sum exn) := fun A B k x =>
  match x with
  | inl e => inl e
  | inr a => k a
  end.

(** ** Parent groups *)

(** The loop [while name in registry: name = f"{base}_{counter}"]. *)
Fixpoint unique_name (fuel : nat) (taken : string → bool) (base candidate : string)
    (counter : nat) : option string :=
  match fuel with
  | O => None
  | S fuel' =>
      if taken candidate
      then unique_name fuel' taken base (base +:+ "_" +:+ pretty counter) (S counter)
      else Some candidate
  end.

(** [max(pos[i] for pos in positions.values())] on a non-empty registry.  A
    coordinate that is not a number makes the comparison or the addition that
    follows raise; the model raises as soon as it reads it. *)
Definition max_coord (i : nat) (positions : list json) : exn + Z :=
  cs ← mapM (fun pos => c ← Py.index i pos; Py.num c) positions;
  match cs with
  | [] => inl ValueError
  | c :: cs' => inr (foldl Z.max c cs')
  end.

(** The position 20 right of and below everything in the registry.  The
    coordinates are the integers of [json], on which [max] and [+ 20] are
    exact. *)
Definition offset_position (positions : gmap string json) : exn + json :=
  let vals := (map_to_list positions).*2 in
  last_x ← max_coord 0 vals;
  last_y ← max_coord 1 vals;
  inr (JList [JNum (last_x + 20); JNum (last_y + 20)]).

Definition is_empty {V} (m : gmap string V) : bool :=
  match map_to_list m with [] => true | _ => false end.

Definition create_parent_group (fuel : nat) (st : Manager) (name : string)
    : result string :=
  match unique_name fuel (has_key (parent_groups st)) name name 1 with
  | None => OutOfFuel
  | Some group_name =>
      let st1 := with_parent_groups (<[group_name := []]> (parent_groups st)) st in
      let position :=
        if negb (is_empty (group_positions st1)) then offset_position (group_positions st1)
        else if negb (is_empty (set_positions st1)) then offset_position (set_positions st1)
        else inr (JList [JNum 20; JNum 20]) in
      match position with
      | inl e => Raises e st1 []
      | inr pos =>
          let st2 := with_group_positions (<[group_name := pos]> (group_positions st1)) st1 in
          let st3 := with_group_colors
            (<[group_name := JList [JNum 100; JNum 100; JNum 60]]> (group_colors st2)) st2 in
          let st4 := with_group_sizes
            (<[group_name := JList [JNum 300; JNum 200]]> (group_sizes st3)) st3 in
          let st5 := with_group_transparency
            (<[group_name := JNum 180]> (group_transparency st4)) st4 in
          Returns group_name st5 []
      end
  end.

(** [for group, sets in parent_groups.items(): if name in sets: sets.remove(name)] *)
Definition remove_from_groups (set_name : string) (groups : gmap string (list string))
    : gmap string (list string) :=
  (fun sets => if Py.mem set_name sets then Py.remove_first set_name sets else sets)
    <$> groups.

Definition add_set_to_group (st : Manager) (set_name group_name : string)
    : result bool :=
  if negb (has_key (sets st) set_name) then
    Returns false st [Warning ("Set '" +:+ set_name +:+ "' not found.")]
  else if negb (has_key (parent_groups st) group_name) then
    Returns false st [Warning ("Parent group '" +:+ group_name +:+ "' not found.")]
  else
    let groups1 := remove_from_groups set_name (parent_groups st) in
    let groups2 :=
      match groups1 !! group_name with
      | Some members =>
          if negb (Py.mem set_name members)
          then <[group_name := (members ++ [set_name])%list]> groups1
          else groups1
      | None => groups1
      end in
    Returns true (with_parent_groups groups2 st) [].

Definition remove_set_from_group (st : Manager) (set_name : string)
    (group_name : option string) : result bool :=
  if negb (has_key (sets st) set_name) then
    Returns false st [Warning ("Set '" +:+ set_name +:+ "' not found.")]
  else
    match group_name with
    | Some g =>
        match parent_groups st !! g with
        | None => Returns false st [Warning ("Parent group '" +:+ g +:+ "' not found.")]
        | Some members =>
            if Py.mem set_name members
            then Returns true
                   (with_parent_groups
                      (<[g := Py.remove_first set_name members]> (parent_groups st)) st) []
            else Returns true st []
        end
    | None =>
        Returns true
          (with_parent_groups (remove_from_groups set_name (parent_groups st)) st) []
    end.

(** [if old in d: d[new] = d[old]; del d[old]] *)
Definition move_key {V} (old_name new_name : string) (d : gmap string V) : gmap string V :=
  match d !! old_name with
  | Some v => delete old_name (<[new_name := v]> d)
  | None => d
  end.

Definition rename_parent_group (st : Manager) (old_name new_name : string)
    : result bool :=
  match parent_groups st !! old_name with
  | None => Returns false st [Warning ("Parent group '" +:+ old_name +:+ "' not found.")]
  | Some members =>
      if has_key (parent_groups st) new_name then
        Returns false st
          [Warning ("Parent group named '" +:+ new_name +:+ "' already exists.")]
      else
        let st1 := with_parent_groups (<[new_name := members]> (parent_groups st)) st in
        let st2 := with_group_positions (move_key old_name new_name (group_positions st1)) st1 in
        let st3 := with_group_colors (move_key old_name new_name (group_colors st2)) st2 in
        let st4 := with_group_sizes (move_key old_name new_name (group_sizes st3)) st3 in
        let st5 := with_group_transparency
          (move_key old_name new_name (group_transparency st4)) st4 in
        Returns true (with_parent_groups (delete old_name (parent_groups st5)) st5) []
  end.

Definition delete_parent_group (st : Manager) (name : string) : result bool :=
  if negb (has_key (parent_groups st) name) then
    Returns false st [Warning ("Parent group '" +:+ name +:+ "' not found.")]
  else
    let st1 := with_parent_groups (delete name (parent_groups st)) st in
    let st2 := with_group_positions (delete name (group_positions st1)) st1 in
    let st3 := with_group_colors (delete name (group_colors st2)) st2 in
    let st4 := with_group_sizes (delete name (group_sizes st3)) st3 in
    Returns true (with_group_transparency (delete name (group_transparency st4)) st4) [].

Definition update_group_position (st : Manager) (name : string) (x y : Z) : result bool :=
  if has_key (parent_groups st) name
  then Returns true
         (with_group_positions (<[name := JList [JNum x; JNum y]]> (group_positions st)) st) []
  else Returns false st [].

Definition update_group_size (st : Manager) (name : string) (width height : Z)
    : result bool :=
  if has_key (parent_groups st) name
  then Returns true
         (with_group_sizes (<[name := JList [JNum width; JNum height]]> (group_sizes st)) st) []
  else Returns false st [].

Definition update_group_color (st : Manager) (name : string) (r g b : Z) : result bool :=
  if has_key (parent_groups st) name
  then Returns true
         (with_group_colors (<[name := JList [JNum r; JNum g; JNum b]]> (group_colors st)) st) []
  else Returns false st [].

Definition update_group_transparency (st : Manager) (name : string) (transparency : Z)
    : result bool :=
  if has_key (parent_groups st) name
  then Returns true
         (with_group_transparency (<[name := JNum transparency]> (group_transparency st)) st) []
  else Returns false st [].

(** ** Selection sets *)

Definition create_set (h : Host) (fuel : nat) (st : Manager) (name : string)
    : result (option string) :=
  match selection h with
  | [] =>
      Returns None st
        [Warning "Nothing selected. Please select objects to create a set."]
  | _ =>
      match unique_name fuel (has_key (sets st)) name name 1 with
      | None => OutOfFuel
      | Some set_name =>
          let st1 := with_sets (<[set_name := selection h]> (sets st)) st in
          let position :=
            if negb (is_empty (set_positions st1)) then offset_position (set_positions st1)
            else inr (JList [JNum 20; JNum 20]) in
          match position with
          | inl e => Raises e st1 []
          | inr pos =>
              let st2 := with_set_positions (<[set_name := pos]> (set_positions st1)) st1 in
              let st3 := with_set_colors
                (<[set_name := JList [JNum 70; JNum 70; JNum 70]]> (set_colors st2)) st2 in
              let st4 := with_set_sizes
                (<[set_name := JList [JNum 200; JNum 150]]> (set_sizes st3)) st3 in
              let st5 := with_set_transparency
                (<[set_name := JNum 180]> (set_transparency st4)) st4 in
              let st6 := with_set_parents (<[set_name := None]> (set_parents st5)) st5 in
              Returns (Some set_name) st6 []
          end
      end
  end.

(** [for child, parent in set_parents.items(): if parent == old: set_parents[child] = new] *)
Definition repoint (old_name : string) (new_parent : option string)
    (parents : gmap string (option string)) : gmap string (option string) :=
  (fun parent => match parent with
                 | Some p => if String.eqb p old_name then new_parent else parent
                 | None => parent
                 end) <$> parents.

(** [for group, sets in parent_groups.items():
       if old in sets: sets.remove(old); sets.append(new)] *)
Definition rename_in_groups (old_name new_name : string)
    (groups : gmap string (list string)) : gmap string (list string) :=
  (fun sets => if Py.mem old_name sets
               then (Py.remove_first old_name sets ++ [new_name])%list
               else sets) <$> groups.

Definition rename_set (st : Manager) (old_name new_name : string) : result bool :=
  match sets st !! old_name with
  | None => Returns false st [Warning ("Set '" +:+ old_name +:+ "' not found.")]
  | Some objects =>
      if has_key (sets st) new_name then
        Returns false st [Warning ("Set named '" +:+ new_name +:+ "' already exists.")]
      else
        let st1 := with_sets (<[new_name := objects]> (sets st)) st in
        let st2 := with_set_positions (move_key old_name new_name (set_positions st1)) st1 in
        let st3 := with_set_colors (move_key old_name new_name (set_colors st2)) st2 in
        let st4 := with_set_sizes (move_key old_name new_name (set_sizes st3)) st3 in
        let st5 := with_set_transparency
          (move_key old_name new_name (set_transparency st4)) st4 in
        let st6 := with_set_parents (move_key old_name new_name (set_parents st5)) st5 in
        let st7 := with_set_parents (repoint old_name (Some new_name) (set_parents st6)) st6 in
        let st8 := with_parent_groups
          (rename_in_groups old_name new_name (parent_groups st7)) st7 in
        Returns true (with_sets (delete old_name (sets st8)) st8) []
  end.

Definition delete_set (st : Manager) (name : string) : result bool :=
  if has_key (sets st) name then
    let st1 := with_sets (delete name (sets st)) st in
    let st2 := with_set_positions (delete name (set_positions st1)) st1 in
    let st3 := with_set_colors (delete name (set_colors st2)) st2 in
    let st4 := with_set_sizes (delete name (set_sizes st3)) st3 in
    let st5 := with_set_transparency (delete name (set_transparency st4)) st4 in
    let st6 := with_set_parents (delete name (set_parents st5)) st5 in
    let st7 := with_set_parents (repoint name None (set_parents st6)) st6 in
    match remove_set_from_group st7 name None with
    | Returns _ st8 tr => Returns true st8 tr
    | Raises e st8 tr => Raises e st8 tr
    | OutOfFuel => OutOfFuel
    end
  else Returns false st [].

(** The recursion of the hierarchy flatten.  Python visits the children in
    the insertion order of [set_parents]; here they come in the key order of
    the finite map, so only the order of the result can differ. *)
Fixpoint get_all_objects_in_set_hierarchy (fuel : nat) (st : Manager)
    (set_name : string) : option (list string) :=
  match fuel with
  | O => None
  | S fuel' =>
      match sets st !! set_name with
      | None => Some []
      | Some objects =>
          let children :=
            filter (fun cp => cp.2 = Some set_name) (map_to_list (set_parents st)) in
          below ← mapM (fun cp => get_all_objects_in_set_hierarchy fuel' st cp.1) children;
          Some (objects ++ concat below)%list
      end
  end.

Definition channel_values (c : Channels) : list json :=
  [tx c; ty c; tz c; rx c; ry c; rz c].

Definition active_components (c : Channels) : list string :=
  ((if Py.truthy (tx c) then [".tx"] else []) ++
   (if Py.truthy (ty c) then [".ty"] else []) ++
   (if Py.truthy (tz c) then [".tz"] else []) ++
   (if Py.truthy (rx c) then [".rx"] else []) ++
   (if Py.truthy (ry c) then [".ry"] else []) ++
   (if Py.truthy (rz c) then [".rz"] else []))%list.

(** [[obj + component for obj in objects for component in components
       if cmds.objExists(obj + component)]] *)
Definition existing_attrs (h : Host) (components objects : list string) : list string :=
  flat_map (fun obj => List.filter (objExists h) (map (String.append obj) components))
    objects.

Definition selected_message (attrs objects : list string) : string :=
  "Selected " +:+ pretty (length attrs) +:+ " channels on " +:+
  pretty (length objects) +:+ " objects".

(** The [except] branch of the channel filtering. *)
Definition filtering_failed (h : Host) (st : Manager) (objects : list string)
    (e : exn) (tr : list event) : result unit :=
  let tr1 := (tr ++ [Warning ("Error in channel filtering: " +:+ exn_text e +:+
                              ". Selecting objects instead.")])%list in
  match cmds_select h objects with
  | inr ev => Returns () st (tr1 ++ [ev])%list
  | inl e' => Raises e' st tr1
  end.

Definition select_objects_with_channel_filtering (h : Host) (st : Manager)
    (objects : list string) : result unit :=
  match objects with
  | [] => Returns () st []
  | _ =>
      let values := channel_values (active_channels st) in
      if forallb Py.truthy values || negb (existsb Py.truthy values) then
        match cmds_select h objects with
        | inr ev => Returns () st [ev]
        | inl e => Raises e st []
        end
      else
        match cmds_select h objects with
        | inl e => filtering_failed h st objects e [SelectClear]
        | inr ev =>
            let selected_attrs :=
              existing_attrs h (active_components (active_channels st)) objects in
            match selected_attrs with
            | [] => Returns () st [SelectClear; ev]
            | _ =>
                match cmds_select h selected_attrs with
                | inl e => filtering_failed h st objects e [SelectClear; ev]
                | inr ev' =>
                    Returns () st
                      [SelectClear; ev; ev';
                       InViewMessage (selected_message selected_attrs objects)]
                end
            end
        end
  end.

Definition select_set (h : Host) (fuel : nat) (st : Manager) (name : string)
    (respect_channels : bool) : result bool :=
  if negb (has_key (sets st) name) then
    Returns false st [Warning ("Set '" +:+ name +:+ "' not found.")]
  else
    match get_all_objects_in_set_hierarchy fuel st name with
    | None => OutOfFuel
    | Some all_objects =>
        let valid_objects := List.filter (objExists h) all_objects in
        match valid_objects with
        | [] =>
            Returns false st
              [Warning ("No valid objects found in set '" +:+ name +:+
                        "' or its children.")]
        | _ =>
            if respect_channels then
              match select_objects_with_channel_filtering h st valid_objects with
              | Returns _ st' tr => Returns true st' tr
              | Raises e st' tr => Raises e st' tr
              | OutOfFuel => OutOfFuel
              end
            else
              match cmds_select h valid_objects with
              | inr ev => Returns true st [ev]
              | inl e => Raises e st []
              end
        end
    end.

(** ** Parent pointers *)

(** [self.set_parents.get(name)] *)
Definition parents_get (st : Manager) (name : string) : option string :=
  match set_parents st !! name with
  | Some parent => parent
  | None => None
  end.

(** The loop of [would_create_circular_reference]; [ancestor] starts at the
    proposed parent.  One unit of fuel per test of the loop condition. *)
Fixpoint would_create_circular_reference (fuel : nat) (st : Manager)
    (child_name : string) (ancestor : option string) : option bool :=
  match fuel with
  | O => None
  | S fuel' =>
      match ancestor with
      | Some a =>
          if Py.name_truthy ancestor then
            if String.eqb a child_name then Some true
            else would_create_circular_reference fuel' st child_name (parents_get st a)
          else Some false
      | None => Some false
      end
  end.

Definition name_of (o : option string) : string :=
  match o with Some s => s | None => "None" end.

Definition set_parent (fuel : nat) (st : Manager) (child_name : string)
    (parent_name : option string) : result bool :=
  if negb (has_key (sets st) child_name) then
    Returns false st [Warning ("Child set '" +:+ child_name +:+ "' not found.")]
  else if Py.name_truthy parent_name && negb (has_key (sets st) (name_of parent_name)) then
    Returns false st
      [Warning ("Parent set '" +:+ name_of parent_name +:+ "' not found.")]
  else
    let circular :=
      if Py.name_truthy parent_name
      then would_create_circular_reference fuel st child_name parent_name
      else Some false in
    match circular with
    | None => OutOfFuel
    | Some true =>
        Returns false st
          [Warning ("Cannot set '" +:+ name_of parent_name +:+ "' as parent of '" +:+
                    child_name +:+ "' - would create circular reference.")]
    | Some false =>
        Returns true (with_set_parents (<[child_name := parent_name]> (set_parents st)) st) []
    end.

Definition update_set_position (st : Manager) (name : string) (x y : Z) : result bool :=
  if has_key (sets st) name
  then Returns true
         (with_set_positions (<[name := JList [JNum x; JNum y]]> (set_positions st)) st) []
  else Returns false st [].

Definition update_set_size (st : Manager) (name : string) (width height : Z)
    : result bool :=
  if has_key (sets st) name
  then Returns true
         (with_set_sizes (<[name := JList [JNum width; JNum height]]> (set_sizes st)) st) []
  else Returns false st [].

Definition update_set_color (st : Manager) (name : string) (r g b : Z) : result bool :=
  if has_key (sets st) name
  then Returns true
         (with_set_colors (<[name := JList [JNum r; JNum g; JNum b]]> (set_colors st)) st) []
  else Returns false st [].

Definition update_set_transparency (st : Manager) (name : string) (transparency : Z)
    : result bool :=
  if has_key (sets st) name
  then Returns true
         (with_set_transparency (<[name := JNum transparency]> (set_transparency st)) st) []
  else Returns false st [].

(** [if channel in active_channels: active_channels[channel] = state] *)
Definition assign_channel (channel : string) (state : json) (c : Channels)
    : option Channels :=
  if String.eqb channel "tx" then
    Some {| tx := state; ty := ty c; tz := tz c; rx := rx c; ry := ry c; rz := rz c |}
  else if String.eqb channel "ty" then
    Some {| tx := tx c; ty := state; tz := tz c; rx := rx c; ry := ry c; rz := rz c |}
  else if String.eqb channel "tz" then
    Some {| tx := tx c; ty := ty c; tz := state; rx := rx c; ry := ry c; rz := rz c |}
  else if String.eqb channel "rx" then
    Some {| tx := tx c; ty := ty c; tz := tz c; rx := state; ry := ry c; rz := rz c |}
  else if String.eqb channel "ry" then
    Some {| tx := tx c; ty := ty c; tz := tz c; rx := rx c; ry := state; rz := rz c |}
  else if String.eqb channel "rz" then
    Some {| tx := tx c; ty := ty c; tz := tz c; rx := rx c; ry := ry c; rz := state |}
  else None.

Definition update_channel_state (st : Manager) (channel : string) (state : json)
    : result bool :=
  match assign_channel channel state (active_channels st) with
  | Some c => Returns true (with_active_channels c st) []
  | None => Returns false st []
  end.

Definition set_background_image (st : Manager) (image_path : string) : result bool :=
  Returns true (with_background_image (Some image_path) st) [].

(** ** Export *)

Definition dump_lists (m : gmap string (list string)) : json :=
  JDict ((fun kv => (kv.1, JList (JStr <$> kv.2))) <$> map_to_list m).

Definition dump_values (m : gmap string json) : json :=
  JDict (map_to_list m).

Definition dump_parent (parent : option string) : json :=
  match parent with Some p => JStr p | None => JNull end.

Definition dump_parents (m : gmap string (option string)) : json :=
  JDict ((fun kv => (kv.1, dump_parent kv.2)) <$> map_to_list m).

Definition dump_channels (c : Channels) : json :=
  JDict [("tx", tx c); ("ty", ty c); ("tz", tz c);
         ("rx", rx c); ("ry", ry c); ("rz", rz c)].

(** The items of the [export_data] dict, with the entry for the background
    image given. *)
Definition export_items (st : Manager) (image : json) : list (string * json) :=
  [("sets", dump_lists (sets st));
   ("positions", dump_values (set_positions st));
   ("colors", dump_values (set_colors st));
   ("sizes", dump_values (set_sizes st));
   ("transparency", dump_values (set_transparency st));
   ("parents", dump_parents (set_parents st));
   ("channels", dump_channels (active_channels st));
   ("background_image", image);
   ("parent_groups", dump_lists (parent_groups st));
   ("group_positions", dump_values (group_positions st));
   ("group_colors", dump_values (group_colors st));
   ("group_sizes", dump_values (group_sizes st));
   ("group_transparency", dump_values (group_transparency st))].

Definition export_data (st : Manager) (image : json) : json :=
  JDict (export_items st image).

(** The background image entry: [None] unless the manager has an image path
    and the file exists; reading the file can raise. *)
Definition export_image (h : Host) (st : Manager) : exn + json :=
  if Py.name_truthy (background_image st) then
    let path := name_of (background_image st) in
    match image_file h path with
    | NoImage => inr JNull
    | Unreadable => inl OSError
    | Image data ext =>
        inr (JDict [("data", JStr data); ("format", JStr ext); ("path", JStr path)])
    end
  else inr JNull.

Definition export_failed (st : Manager) (e : exn) : result bool :=
  Returns false st [Warning ("Failed to export sets: " +:+ exn_text e)].

Definition export_sets (h : Host) (st : Manager) (file_path : string) : result bool :=
  match export_image h st with
  | inl e => export_failed st e
  | inr image =>
      if writable h file_path
      then Returns true st [FileWritten file_path (export_data st image)]
      else export_failed st OSError
  end.

(** ** Import *)

(** A block of statements inside the [try] of [import_sets]: it ends normally
    or with an exception, and the assignments made up to there stay. *)
Definition proc : Type := Manager → option exn * Manager.

Definition skip : proc := fun st => (None, st).

Definition assign (f : Manager → Manager) : proc := fun st => (None, f st).

Definition seq (p q : proc) : proc := fun st =>
  match p st with
  | (None, st') => q st'
  | raised => raised
  end.

Definition eval {A} (x : exn + A) (k : A → proc) : proc := fun st =>
  match x with
  | inl e => (Some e, st)
  | inr a => k a st
  end.

Fixpoint for_each {A} (body : A → proc) (l : list A) : proc :=
  match l with
  | [] => skip
  | a :: l' => seq (body a) (for_each body l')
  end.

(** [[obj for obj in objects if cmds.objExists(obj)]] *)
Fixpoint valid_objects (h : Host) (objects : list json) : exn + list string :=
  match objects with
  | [] => inr []
  | obj :: rest =>
      keep ← cmds_objExists h obj;
      valid ← valid_objects h rest;
      inr (match obj with
           | JStr s => if keep : bool then s :: valid else valid
           | _ => valid
           end)
  end.

(** [if name in table: store(table[name]) else: store(default)] *)
Definition import_property (table : json) (name : string)
    (default : Manager → json) (store : json → Manager → Manager) : proc :=
  eval (Py.contains name table) (fun present =>
    if present : bool
    then eval (Py.getitem name table) (fun v => assign (store v))
    else fun st => assign (store (default st)) st).

Definition import_set (h : Host) (positions colors sizes transparency : json)
    (item : string * json) : proc :=
  let name := item.1 in
  eval (Py.iter item.2) (fun objects =>
  eval (valid_objects h objects) (fun valid =>
    match valid with
    | [] => skip
    | _ =>
        seq (assign (fun st => with_sets (<[name := valid]> (sets st)) st))
       (seq (import_property positions name
               (fun st => JList [JNum 20; JNum (20 + Z.of_nat (size (sets st)) * 30)])
               (fun v st => with_set_positions (<[name := v]> (set_positions st)) st))
       (seq (import_property colors name
               (fun _ => JList [JNum 70; JNum 70; JNum 70])
               (fun v st => with_set_colors (<[name := v]> (set_colors st)) st))
       (seq (import_property sizes name
               (fun _ => JList [JNum 200; JNum 150])
               (fun v st => with_set_sizes (<[name := v]> (set_sizes st)) st))
            (import_property transparency name
               (fun _ => JNum 180)
               (fun v st =>
                  with_set_transparency (<[name := v]> (set_transparency st)) st)))))
    end)).

(** [x in self.sets] for a value read from the file: a string is looked up,
    another hashable value is never a key, a list or dict cannot be hashed. *)
Definition in_sets (st : Manager) (x : json) : exn + bool :=
  match x with
  | JStr s => inr (has_key (sets st) s)
  | JList _ | JDict _ => inl TypeError
  | _ => inr false
  end.

(** [if name in self.sets and (parent is None or parent in self.sets):
       self.set_parents[name] = parent] *)
Definition import_parent (item : string * json) : proc := fun st =>
  let name := item.1 in
  if has_key (sets st) name then
    match item.2 with
    | JNull => (None, with_set_parents (<[name := None]> (set_parents st)) st)
    | parent =>
        match in_sets st parent with
        | inl e => (Some e, st)
        | inr true =>
            match parent with
            | JStr p => (None, with_set_parents (<[name := Some p]> (set_parents st)) st)
            | _ => (None, st)
            end
        | inr false => (None, st)
        end
    end
  else (None, st).

(** [[set_name for set_name in sets if set_name in self.sets]] *)
Fixpoint valid_sets (st : Manager) (members : list json) : exn + list string :=
  match members with
  | [] => inr []
  | x :: rest =>
      keep ← in_sets st x;
      valid ← valid_sets st rest;
      inr (match x with
           | JStr s => if keep : bool then s :: valid else valid
           | _ => valid
           end)
  end.

Definition import_group (positions colors sizes transparency : json)
    (item : string * json) : proc :=
  let name := item.1 in
  eval (Py.iter item.2) (fun members => fun st =>
  eval (valid_sets st members) (fun valid =>
    seq (assign (fun st => with_parent_groups (<[name := valid]> (parent_groups st)) st))
   (seq (import_property positions name
           (fun st => JList [JNum 20; JNum (20 + Z.of_nat (size (parent_groups st)) * 30)])
           (fun v st => with_group_positions (<[name := v]> (group_positions st)) st))
   (seq (import_property colors name
           (fun _ => JList [JNum 100; JNum 100; JNum 60])
           (fun v st => with_group_colors (<[name := v]> (group_colors st)) st))
   (seq (import_property sizes name
           (fun _ => JList [JNum 300; JNum 200])
           (fun v st => with_group_sizes (<[name := v]> (group_sizes st)) st))
        (import_property transparency name
           (fun _ => JNum 180)
           (fun v st =>
              with_group_transparency (<[name := v]> (group_transparency st)) st)))))) st).

(** [for channel, state in imported_channels.items():
       if channel in self.active_channels: self.active_channels[channel] = state] *)
Definition import_channel (item : string * json) : proc :=
  assign (fun st =>
    match assign_channel item.1 item.2 (active_channels st) with
    | Some c => with_active_channels c st
    | None => st
    end).

Definition import_channels (channels : json) : proc :=
  if Py.truthy channels
  then eval (Py.items channels) (for_each import_channel)
  else skip.

(** The eleven [clear()] calls. *)
Definition clear_registries (st : Manager) : Manager :=
  {| sets := ∅; set_positions := ∅; set_colors := ∅; set_sizes := ∅;
     set_transparency := ∅; set_parents := ∅;
     background_image := background_image st;
     active_channels := active_channels st;
     parent_groups := ∅; group_positions := ∅; group_colors := ∅;
     group_sizes := ∅; group_transparency := ∅ |}.

(** The statements of the [try] from the reading of the tables to the end of
    the three loops, for a file that passed the format check. *)
Definition import_registries (h : Host) (data : list (string * json)) : proc :=
  let imported_sets := Py.get "sets" (JDict []) data in
  let imported_positions := Py.get "positions" (JDict []) data in
  let imported_colors := Py.get "colors" (JDict []) data in
  let imported_sizes := Py.get "sizes" (JDict []) data in
  let imported_transparency := Py.get "transparency" (JDict []) data in
  let imported_parents := Py.get "parents" (JDict []) data in
  let imported_channels := Py.get "channels" (JDict []) data in
  let imported_parent_groups := Py.get "parent_groups" (JDict []) data in
  let imported_group_positions := Py.get "group_positions" (JDict []) data in
  let imported_group_colors := Py.get "group_colors" (JDict []) data in
  let imported_group_sizes := Py.get "group_sizes" (JDict []) data in
  let imported_group_transparency := Py.get "group_transparency" (JDict []) data in
  seq (import_channels imported_channels)
 (seq (assign clear_registries)
 (seq (eval (Py.items imported_sets)
         (for_each (import_set h imported_positions imported_colors imported_sizes
                      imported_transparency)))
 (seq (eval (Py.items imported_parents) (for_each import_parent))
      (eval (Py.items imported_parent_groups)
         (for_each (import_group imported_group_positions imported_group_colors
                      imported_group_sizes imported_group_transparency)))))).

(** The restoring of the background image, with its own [try]. *)
Definition import_background (h : Host) (data : list (string * json))
    (file_path : string) (st : Manager) : Manager * list event :=
  match Py.get "background_image" JNull data with
  | JDict (_ :: _) as bg_image_data =>
      match restore_image h bg_image_data file_path with
      | inr img_path => (with_background_image (Some img_path) st, [])
      | inl e =>
          (st, [Warning ("Failed to restore background image: " +:+ exn_text e)])
      end
  | _ => (st, [])
  end.

Definition import_failed (st : Manager) (e : exn) : result bool :=
  Returns false st [Warning ("Failed to import sets: " +:+ exn_text e)].

Definition import_sets (h : Host) (st : Manager) (file_path : string) : result bool :=
  match json_load h file_path with
  | inl e => import_failed st e
  | inr (JDict data) =>
      if Py.assoc "sets" data is Some _ then
        match import_registries h data st with
        | (Some e, st') => import_failed st' e
        | (None, st') =>
            let '(st'', tr) := import_background h data file_path st' in
            Returns true st'' tr
        end
      else Returns false st [Warning "Invalid JSON format for sets."]
  | inr _ => Returns false st [Warning "Invalid JSON format for sets."]
  end.

(** ** The hierarchy of sets *)

(** [parent] is the stored parent pointer of [child]. *)
Definition parent_of (st : Manager) (child parent : string) : Prop :=
  set_parents st !! child = Some (Some parent).

(** The same step taken from a set whose name is not the empty string: the
    walk of the cycle check goes on only from such a name. *)
Definition named_parent_of (st : Manager) (child parent : string) : Prop :=
  child ≠ "" ∧ parent_of st child parent.

(** No set is its own ancestor. *)
Definition forest (st : Manager) : Prop :=
  ∀ x, ¬ tc (parent_of st) x x.

(** The chain of parent pointers above [x] ends at a set without parent. *)
Definition rooted (st : Manager) (x : string) : Prop :=
  ∃ top, rtc (parent_of st) x top ∧ parents_get st top = None.

Definition circular_warning (child_name parent_name : string) : event :=
  Warning ("Cannot set '" +:+ parent_name +:+ "' as parent of '" +:+
           child_name +:+ "' - would create circular reference.").

(** A state that [import_sets] builds from a file: one set, named by the
    empty string. *)
Definition unnamed_set_file : json :=
  JDict [("sets", JDict [("", JList [JStr "pCube1"])])].

Definition cube_scene (doc : json) : Host := {|
  objExists := fun s => Py.mem s ["pCube1"; "pCube2"];
  selection := ["pCube1"];
  files := {[ "sets.json" := Document doc ]};
  writable := fun _ => true;
  image_file := fun _ => NoImage;
  restore_image := fun _ _ => inl OSError |}.

Definition unnamed_set_state : Manager :=
  with_set_transparency {[ "" := JNum 180 ]}
    (with_set_sizes {[ "" := JList [JNum 200; JNum 150] ]}
       (with_set_colors {[ "" := JList [JNum 70; JNum 70; JNum 70] ]}
          (with_set_positions {[ "" := JList [JNum 20; JNum 50] ]}
             (with_sets {[ "" := ["pCube1"] ]} init)))).

(** The manager a call leaves behind. *)
Definition state_after {A} (r : result A) : Manager :=
  match r with
  | Returns _ st _ => st
  | Raises _ st _ => st
  | OutOfFuel => init
  end.

(** Two sets made from the selection, then ["b"] put below ["a"]. *)
Definition a_over_b : Manager :=
  let h := cube_scene JNull in
  let st1 := state_after (create_set h 2 init "a") in
  let st2 := state_after (create_set h 2 st1 "b") in
  state_after (set_parent 2 st2 "b" (Some "a")).

(** One set made from the selection and given the empty string as its
    parent: [create_set("a")], then [set_parent("a", "")]. *)
Definition a_below_empty_name : Manager :=
  let h := cube_scene JNull in
  state_after (set_parent 1 (state_after (create_set h 1 init "a")) "a" (Some "")).

(** ** Channel filtering: the states of the flags *)

Definition all_channels_on (c : Channels) : bool :=
  forallb Py.truthy (channel_values c).

Definition no_channel_on (c : Channels) : bool :=
  negb (existsb Py.truthy (channel_values c)).

(** The suffix [comp] is one whose flag is on. *)
Definition enabled (c : Channels) (comp : string) : Prop :=
  (comp = ".tx" ∧ Py.truthy (tx c) = true) ∨
  (comp = ".ty" ∧ Py.truthy (ty c) = true) ∨
  (comp = ".tz" ∧ Py.truthy (tz c) = true) ∨
  (comp = ".rx" ∧ Py.truthy (rx c) = true) ∨
  (comp = ".ry" ∧ Py.truthy (ry c) = true) ∨
  (comp = ".rz" ∧ Py.truthy (rz c) = true).

Definition tx_only : Channels :=
  {| tx := JBool true; ty := JBool false; tz := JBool false;
     rx := JBool false; ry := JBool false; rz := JBool false |}.

(** Objects [A] and [B]; only [A] has a [tx] attribute. *)
Definition ab_scene : Host := {|
  objExists := fun s => Py.mem s ["A"; "B"; "A.tx"];
  selection := [];
  files := ∅;
  writable := fun _ => true;
  image_file := fun _ => NoImage;
  restore_image := fun _ _ => inl OSError |}.

(** ** Parent groups: membership *)

Definition in_group (st : Manager) (set_name group_name : string) : Prop :=
  ∃ members, parent_groups st !! group_name = Some members ∧ set_name ∈ members.

(** A set is a member of at most one parent group. *)
Definition one_group_per_set (st : Manager) : Prop :=
  ∀ s g1 g2, in_group st s g1 → in_group st s g2 → g1 = g2.

(** ** Files and states used in the examples *)

(** Two sets, each listed as the parent of the other. *)
Definition cyclic_parents_file : json :=
  JDict [("sets", JDict [("a", JList [JStr "pCube1"]); ("b", JList [JStr "pCube2"])]);
         ("parents", JDict [("a", JStr "b"); ("b", JStr "a")])].

(** One set, listed in two parent groups. *)
Definition two_groups_file : json :=
  JDict [("sets", JDict [("a", JList [JStr "pCube1"])]);
         ("parent_groups", JDict [("g1", JList [JStr "a"]); ("g2", JList [JStr "a"])])].

(** One set, listed twice in a parent group. *)
Definition listed_twice_file : json :=
  JDict [("sets", JDict [("a", JList [JStr "pCube1"])]);
         ("parent_groups", JDict [("g", JList [JStr "a"; JStr "a"])])].

(** A file that switches a channel off and whose ["sets"] entry is a
    number. *)
Definition sets_not_a_dict_file : json :=
  JDict [("channels", JDict [("tx", JBool false)]); ("sets", JNum 5)].

(** A set made from the selection and put into a new parent group. *)
Definition grouped_set : Manager :=
  let h := cube_scene JNull in
  let st1 := state_after (create_set h 2 init "a") in
  let st2 := state_after (create_parent_group 2 st1 "g") in
  state_after (add_set_to_group st2 "a" "g").

(** ** States of the data model *)

(** A parent pointer that is null or a name of the registry. *)
Definition names_a_set (registry : gmap string (list string)) (parent : option string)
    : Prop :=
  match parent with
  | Some p => p ∈ dom registry
  | None => True
  end.

#[global] Instance names_a_set_dec registry parent : Decision (names_a_set registry parent).
Proof. destruct parent; cbn; apply _. Defined.

(** Every set has at least one object, and every parent pointer is kept for
    an existing set and is null, the name of an existing set, or the empty
    string that [set_parent] stores when it is given one. *)
Definition well_formed (st : Manager) : Prop :=
  (∀ name objects, sets st !! name = Some objects → objects ≠ []) ∧
  (∀ name parent, set_parents st !! name = Some parent →
     name ∈ dom (sets st) ∧ (names_a_set (sets st) parent ∨ parent = Some "")).

(** What the import keeps of a parent entry: the pointers that are null or
    the name of a set of the registry. *)
Definition resolved (registry : gmap string (list string))
    (entry : option (option string)) : option (option string) :=
  entry ≫= fun parent =>
    if decide (names_a_set registry parent) then Some parent else None.

(** The parent of a set as the cycle check and the widgets read it: a
    pointer that is null or the empty string is no parent. *)
Definition parent_as_read (st : Manager) (name : string) : option string :=
  if Py.name_truthy (parents_get st name) then parents_get st name else None.

(** Every object recorded in a set exists in the scene. *)
Definition scene_has_objects (h : Host) (st : Manager) : Prop :=
  ∀ name objects obj,
    sets st !! name = Some objects → obj ∈ objects → objExists h obj = true.

(** [d[k] = v] for every item of a list, in order. *)
Definition insert_all {V} (items : list (string * V)) (d : gmap string V) : gmap string V :=
  foldl (fun m kv => <[kv.1 := kv.2]> m) d items.

(** ** Names with a counter *)

(** [f"{name}_{counter}"] *)
Definition numbered (name : string) (counter : nat) : string :=
  name +:+ "_" +:+ pretty counter.

(** A stored position whose two coordinates are numbers. *)
Definition has_coordinates (pos : json) : Prop :=
  ∃ x y, (Py.index 0 pos ≫= Py.num) = inr x ∧ (Py.index 1 pos ≫= Py.num) = inr y.

Definition numeric_positions (positions : gmap string json) : Prop :=
  ∀ name pos, positions !! name = Some pos → has_coordinates pos.

Definition set_exists_warning (name : string) : event :=
  Warning ("Set named '" +:+ name +:+ "' already exists.").

Definition group_exists_warning (name : string) : event :=
  Warning ("Parent group named '" +:+ name +:+ "' already exists.").

(** ** References to a name *)

(** Somewhere in the manager the name [x] occurs: as a key of one of the
    registries of the sets, as a parent pointer, or in a membership list. *)
Definition mentions (st : Manager) (x : string) : Prop :=
  x ∈ dom (sets st) ∨ x ∈ dom (set_positions st) ∨ x ∈ dom (set_colors st) ∨
  x ∈ dom (set_sizes st) ∨ x ∈ dom (set_transparency st) ∨
  x ∈ dom (set_parents st) ∨
  (∃ child, parent_of st child x) ∨
  (∃ group, in_group st x group).

(** No membership list holds a name twice. *)
Definition groups_without_duplicates (st : Manager) : Prop :=
  ∀ group members, parent_groups st !! group = Some members → NoDup members.

(** The manager after [set_parents[child] = parent]. *)
Definition with_parent (child parent : string) (st : Manager) : Manager :=
  with_set_parents (<[child := Some parent]> (set_parents st)) st.

(** A block of the import keeps a property of the manager, also when it ends
    with an exception. *)
Definition preserves (P : Manager → Prop) (p : proc) : Prop :=
  ∀ st e st', P st → p st = (e, st') → P st'.

(** Sets ["a"] and ["b"], ["b"] below ["a"], and ["a"] in the parent group
    ["g"]. *)
Definition family_in_group : Manager :=
  let st1 := state_after (create_parent_group 2 a_over_b "g") in
  state_after (add_set_to_group st1 "a" "g").

(** ** The states the manager can reach *)

(** A call of a method, with the host it runs in where it consults one. *)
Inductive call : Type :=
| CreateParentGroup (fuel : nat) (name : string)
| AddSetToGroup (set_name group_name : string)
| RemoveSetFromGroup (set_name : string) (group_name : option string)
| RenameParentGroup (old_name new_name : string)
| DeleteParentGroup (name : string)
| UpdateGroupPosition (name : string) (x y : Z)
| UpdateGroupSize (name : string) (width height : Z)
| UpdateGroupColor (name : string) (r g b : Z)
| UpdateGroupTransparency (name : string) (transparency : Z)
| CreateSet (h : Host) (fuel : nat) (name : string)
| RenameSet (old_name new_name : string)
| DeleteSet (name : string)
| SelectSet (h : Host) (fuel : nat) (name : string) (respect_channels : bool)
| SelectObjects (h : Host) (objects : list string)
| SetParent (fuel : nat) (child_name : string) (parent_name : option string)
| UpdateSetPosition (name : string) (x y : Z)
| UpdateSetSize (name : string) (width height : Z)
| UpdateSetColor (name : string) (r g b : Z)
| UpdateSetTransparency (name : string) (transparency : Z)
| UpdateChannelState (channel : string) (state : json)
| SetBackgroundImage (image_path : string)
| ExportSets (h : Host) (file_path : string)
| ImportSets (h : Host) (file_path : string).

(** The manager a call leaves behind when it returns or raises. *)
Definition left_by {A} (r : result A) : option Manager :=
  match r with
  | Returns _ st _ => Some st
  | Raises _ st _ => Some st
  | OutOfFuel => None
  end.

Definition perform (c : call) (st : Manager) : option Manager :=
  match c with
  | CreateParentGroup fuel name => left_by (create_parent_group fuel st name)
  | AddSetToGroup s g => left_by (add_set_to_group st s g)
  | RemoveSetFromGroup s g => left_by (remove_set_from_group st s g)
  | RenameParentGroup old_name new_name => left_by (rename_parent_group st old_name new_name)
  | DeleteParentGroup name => left_by (delete_parent_group st name)
  | UpdateGroupPosition name x y => left_by (update_group_position st name x y)
  | UpdateGroupSize name w h => left_by (update_group_size st name w h)
  | UpdateGroupColor name r g b => left_by (update_group_color st name r g b)
  | UpdateGroupTransparency name t => left_by (update_group_transparency st name t)
  | CreateSet h fuel name => left_by (create_set h fuel st name)
  | RenameSet old_name new_name => left_by (rename_set st old_name new_name)
  | DeleteSet name => left_by (delete_set st name)
  | SelectSet h fuel name respect => left_by (select_set h fuel st name respect)
  | SelectObjects h objects => left_by (select_objects_with_channel_filtering h st objects)
  | SetParent fuel child parent => left_by (set_parent fuel st child parent)
  | UpdateSetPosition name x y => left_by (update_set_position st name x y)
  | UpdateSetSize name w h => left_by (update_set_size st name w h)
  | UpdateSetColor name r g b => left_by (update_set_color st name r g b)
  | UpdateSetTransparency name t => left_by (update_set_transparency st name t)
  | UpdateChannelState channel state => left_by (update_channel_state st channel state)
  | SetBackgroundImage path => left_by (set_background_image st path)
  | ExportSets h path => left_by (export_sets h st path)
  | ImportSets h path => left_by (import_sets h st path)
  end.

(** The states reached from a new manager by calls of its methods. *)
Inductive reachable : Manager → Prop :=
| reachable_init : reachable init
| reachable_step (c : call) (st st' : Manager) :
    reachable st → perform c st = Some st' → reachable st'.

(** ** Hierarchy chains of the scene *)

(** [s.split(sep)] for a separator of one character: the pieces between the
    occurrences of [sep], in order; a string without [sep] is its own single
    piece. *)
Fixpoint split (sep : Ascii.ascii) (s : string) : list string :=
  match s with
  | EmptyString => [EmptyString]
  | String c s' =>
      if Ascii.eqb c sep then EmptyString :: split sep s'
      else match split sep s' with
           | piece :: pieces => String c piece :: pieces
           | [] => [String c EmptyString]
           end
  end.

(** [full_path.split("|")[-1]]: [utils.short_name], and the same expression
    in [create_chain_set]. *)
Definition short_name (full_path : string) : string :=
  match last (split "|"%char full_path) with
  | Some piece => piece
  | None => ""
  end.

(** [utils.get_unique_name]: the loop of the create methods, over a list of
    names. *)
Definition get_unique_name (fuel : nat) (base_name : string)
    (existing_names : list string) : option string :=
  unique_name fuel (fun name => Py.mem name existing_names) base_name base_name 1.

(** [[top_node] + (cmds.listRelatives(top_node, allDescendants=True,
    fullPath=True) or [])]; [listRelatives] answers [None] for a node without
    descendants. *)
Definition full_chain (listRelatives : string → option (list string))
    (top_node : string) : list string :=
  top_node :: match listRelatives top_node with
              | Some descendants => descendants
              | None => []
              end.

Definition missing_object_warning (top_node : string) : event :=
  Warning ("Object '" +:+ top_node +:+ "' does not exist.").

Definition select_hierarchy_chain (h : Host)
    (listRelatives : string → option (list string)) (st : Manager)
    (top_node : string) : result bool :=
  if negb (objExists h top_node) then
    Returns false st [missing_object_warning top_node]
  else
    match cmds_select h (full_chain listRelatives top_node) with
    | inr ev => Returns true st [ev]
    | inl e => Raises e st []
    end.

(** [create_chain_set]: the chain is selected, [create_set] reads the
    selection, and the selection found at the start is put back.  The host
    lists the selection under the names it was given. *)
Definition create_chain_set (h : Host)
    (listRelatives : string → option (list string)) (fuel : nat) (st : Manager)
    (top_node : string) (name : option string) : result (option string) :=
  if negb (objExists h top_node) then
    Returns None st [missing_object_warning top_node]
  else
    let set_name :=
      match name with
      | Some s => if Py.name_truthy name then s else short_name top_node +:+ "_Chain"
      | None => short_name top_node +:+ "_Chain"
      end in
    let current_selection := selection h in
    match cmds_select h (full_chain listRelatives top_node) with
    | inl e => Raises e st []
    | inr ev =>
        let h1 := host_step h ev in
        match create_set h1 fuel st set_name with
        | OutOfFuel => OutOfFuel
        | Raises e st' tr => Raises e st' (ev :: tr)
        | Returns result st' tr =>
            let restored :=
              match current_selection with
              | [] => inr SelectClear
              | _ => cmds_select (host_after h1 tr) current_selection
              end in
            match restored with
            | inr ev' => Returns result st' (ev :: tr ++ [ev'])%list
            | inl e => Raises e st' (ev :: tr)
            end
        end
    end.

(** ** The sets below a set *)

(** [child] is a set whose parent pointer is [parent]: the step the
    hierarchy flatten takes downwards. *)
Definition child_set_of (st : Manager) (child parent : string) : Prop :=
  parent_of st child parent ∧ child ∈ dom (sets st).

(** [obj] is recorded in [set_name] or in a set below it. *)
Definition in_hierarchy (st : Manager) (set_name obj : string) : Prop :=
  set_name ∈ dom (sets st) ∧
  ∃ below objects,
    rtc (child_set_of st) below set_name ∧
    sets st !! below = Some objects ∧ obj ∈ objects.

(** ** Stored coordinates *)

(** The integer at index [i] of a stored position. *)
Definition coordinate (i : nat) (pos : json) : exn + Z :=
  c ← Py.index i pos; Py.num c.

(** Every stored position holds an integer (a Python [int] or [bool]) at
    index 0 and at index 1.  The numbers of [json] are the integers; on such
    positions [max] and [+ 20] are exact.  A position that holds a [float],
    which a file can bring in, is not among them. *)
Definition integer_positions (positions : gmap string json) : Prop :=
  ∀ name pos, positions !! name = Some pos →
    ∃ x y : Z, coordinate 0 pos = inr x ∧ coordinate 1 pos = inr y.

(** [m] is the largest coordinate of index [i] among the stored positions. *)
Definition largest_coordinate (i : nat) (positions : gmap string json) (m : Z) : Prop :=
  (∃ name pos, positions !! name = Some pos ∧ coordinate i pos = inr m) ∧
  ∀ name pos c, positions !! name = Some pos → coordinate i pos = inr c → (c ≤ m)%Z.

(** Every position of the registry lies at least 20 to the left of and above
    the point [(x, y)]. *)
Definition clear_of (positions : gmap string json) (x y : Z) : Prop :=
  ∀ name pos px py,
    positions !! name = Some pos →
    coordinate 0 pos = inr px → coordinate 1 pos = inr py →
    (px + 20 ≤ x)%Z ∧ (py + 20 ≤ y)%Z.

(** ** What an import leaves *)

(** Every set holds at least one object and all its objects are in the
    scene; every parent entry belongs to a set and is null or the name of a
    set; every member of a parent group is a set. *)
Definition references_resolve (h : Host) (st : Manager) : Prop :=
  (∀ name objects, sets st !! name = Some objects →
     objects ≠ [] ∧ ∀ obj, obj ∈ objects → objExists h obj = true) ∧
  (∀ name parent, set_parents st !! name = Some parent →
     name ∈ dom (sets st) ∧ names_a_set (sets st) parent) ∧
  (∀ group members s, parent_groups st !! group = Some members → s ∈ members →
     s ∈ dom (sets st)).

(** The flags after the loop over the channels of a file. *)
Definition channels_after (items : list (string * json)) (c : Channels) : Channels :=
  foldl (fun c item => match assign_channel item.1 item.2 c with
                       | Some c' => c'
                       | None => c
                       end) c items.

(** A file that lists an object, a parent and a group member that do not
    resolve: the scene has no object [gone], so no set ["b"] is created. *)
Definition dangling_file : json :=
  JDict [("sets", JDict [("a", JList [JStr "pCube1"; JStr "gone"]);
                         ("b", JList [JStr "gone"])]);
         ("parents", JDict [("a", JStr "b")]);
         ("parent_groups", JDict [("g", JList [JStr "a"; JStr "b"])])].

(** ** Calls that name every set *)

(** A call other than [import_sets] in which no set is given the empty
    string as its name and no parent is named by it: the calls the
    interface makes, which asks for a non-empty name and passes [None] for
    "no parent". *)
Definition named_call (c : call) : Prop :=
  match c with
  | CreateSet _ _ name => name ≠ ""
  | RenameSet _ new_name => new_name ≠ ""
  | SetParent _ _ parent_name => parent_name ≠ Some ""
  | ImportSets _ _ => False
  | _ => True
  end.

(** The states reached from a new manager by such calls. *)
Inductive reachable_by_named_calls : Manager → Prop :=
| named_init : reachable_by_named_calls init
| named_step (c : call) (st st' : Manager) :
    reachable_by_named_calls st → named_call c → perform c st = Some st' →
    reachable_by_named_calls st'.

(** Every set has a non-empty name, and every parent entry belongs to a set
    and is null or the name of a set. *)
Definition named_hierarchy (st : Manager) : Prop :=
  ("" ∉ dom (sets st)) ∧
  ∀ name parent, set_parents st !! name = Some parent →
    name ∈ dom (sets st) ∧ names_a_set (sets st) parent.

(** A scene with a chain of three nodes below [|rig], and one cube
    selected. *)
Definition rig_scene : Host := {|
  objExists := fun s => Py.mem s ["|rig"; "|rig|arm"; "|rig|arm|hand"; "pCube1"];
  selection := ["pCube1"];
  files := ∅;
  writable := fun _ => true;
  image_file := fun _ => NoImage;
  restore_image := fun _ _ => inl OSError |}.

Definition rig_relatives (node : string) : option (list string) :=
  if String.eqb node "|rig" then Some ["|rig|arm"; "|rig|arm|hand"] else None.

(** ** The looks of the widgets *)

(** The four registries of visual properties, of the sets or of the
    groups. *)
Record Looks := {
  look_positions : gmap string json;
  look_colors : gmap string json;
  look_sizes : gmap string json;
  look_transparency : gmap string json }.

Definition set_looks (st : Manager) : Looks :=
  {| look_positions := set_positions st; look_colors := set_colors st;
     look_sizes := set_sizes st; look_transparency := set_transparency st |}.

Definition group_looks (st : Manager) : Looks :=
  {| look_positions := group_positions st; look_colors := group_colors st;
     look_sizes := group_sizes st; look_transparency := group_transparency st |}.

(** Every visual property that [before] holds under one of the names is
    found, with the same value, in [now]. *)
Definition looks_kept (names : string → Prop) (before now : Looks) : Prop :=
  ∀ name, names name →
    (∀ v, look_positions before !! name = Some v → look_positions now !! name = Some v) ∧
    (∀ v, look_colors before !! name = Some v → look_colors now !! name = Some v) ∧
    (∀ v, look_sizes before !! name = Some v → look_sizes now !! name = Some v) ∧
    (∀ v, look_transparency before !! name = Some v →
          look_transparency now !! name = Some v).

(** Where the loop over the sets of a file stands after the items [done],
    started in [acc0]. *)
Definition sets_stored (before : Looks) (acc0 : Manager)
    (done : list (string * list string)) (acc : Manager) : Prop :=
  (∀ name objects, (name, objects) ∈ done → sets acc !! name = Some objects) ∧
  (∀ name, name ∈ dom (sets acc) → name ∈ done.*1) ∧
  looks_kept (fun name => name ∈ done.*1) before (set_looks acc) ∧
  set_parents acc = set_parents acc0 ∧
  parent_groups acc = parent_groups acc0 ∧
  group_looks acc = group_looks acc0 ∧
  active_channels acc = active_channels acc0.

(** What the loop over the parents of a file leaves alone. *)
Definition parents_only (acc0 acc : Manager) : Prop :=
  sets acc = sets acc0 ∧
  set_looks acc = set_looks acc0 ∧
  parent_groups acc = parent_groups acc0 ∧
  group_looks acc = group_looks acc0 ∧
  active_channels acc = active_channels acc0.

(** Where the loop over the parent groups of a file stands after the items
    [done], started in [acc0]. *)
Definition groups_stored (before : Looks) (acc0 : Manager)
    (done : list (string * list string)) (acc : Manager) : Prop :=
  (∀ group members, (group, members) ∈ done →
     parent_groups acc !! group = Some (List.filter (has_key (sets acc0)) members)) ∧
  (∀ group, group ∈ dom (parent_groups acc) → group ∈ done.*1) ∧
  looks_kept (fun group => group ∈ done.*1) before (group_looks acc) ∧
  sets acc = sets acc0 ∧
  set_looks acc = set_looks acc0 ∧
  active_channels acc = active_channels acc0.

(** Sets ["a"] and ["b"] with the parent groups ["g"], which holds ["a"],
    and ["h"], which is empty. *)
Definition family_with_two_groups : Manager :=
  state_after (create_parent_group 2 family_in_group "h").

(** ** Channel flags *)

(** [active_channels[channel]], for a name that may not be a key. *)
Definition channel_flag (c : Channels) (channel : string) : option json :=
  if String.eqb channel "tx" then Some (tx c)
  else if String.eqb channel "ty" then Some (ty c)
  else if String.eqb channel "tz" then Some (tz c)
  else if String.eqb channel "rx" then Some (rx c)
  else if String.eqb channel "ry" then Some (ry c)
  else if String.eqb channel "rz" then Some (rz c)
  else None.

(** * Properties *)

(** ** Reading the registries *)

Lemma has_key_true {V} (m : gmap string V) (k : string) :
  has_key m k = true ↔ k ∈ dom m.
Proof.
  unfold has_key. rewrite elem_of_dom.
  destruct (m !! k); split; intros H; done.
Qed.

Lemma has_key_false {V} (m : gmap string V) (k : string) :
  has_key m k = false ↔ k ∉ dom m.
Proof.
  rewrite <- has_key_true. destruct (has_key m k); split; congruence.
Qed.

Lemma name_truthy_Some (s : string) : Py.name_truthy (Some s) = true ↔ s ≠ "".
Proof.
  cbn. destruct (String.eqb_spec s ""); split; intros H; try done.
Qed.

(** Reading an attribute of a manager built by assignments. *)
Ltac read_fields :=
  cbn [sets set_positions set_colors set_sizes set_transparency set_parents
       background_image active_channels parent_groups group_positions group_colors
       group_sizes group_transparency
       with_sets with_set_positions with_set_colors with_set_sizes
       with_set_transparency with_set_parents with_background_image
       with_active_channels with_parent_groups with_group_positions
       with_group_colors with_group_sizes with_group_transparency] in *.

(** Case analysis on the items of a registry given in full. *)
Ltac each_item H :=
  apply elem_of_map_to_list in H;
  match type of H with
  | _ ∈ ?l => let l' := eval vm_compute in l in change l with l' in H
  end;
  repeat match type of H with
  | _ ∈ _ :: _ => apply elem_of_cons in H as [H|H]
  | _ ∈ [] => by apply elem_of_nil in H
  end.

Lemma mem_true (x : string) (l : list string) : Py.mem x l = true ↔ x ∈ l.
Proof.
  unfold Py.mem. rewrite existsb_exists. split.
  - intros (y & Hy & Heq). apply String.eqb_eq in Heq as ->. by apply list_elem_of_In.
  - intros Hin. exists x. split; [by apply list_elem_of_In | apply String.eqb_refl].
Qed.

Lemma lookup_repoint (old_name : string) (new_parent : option string)
    (parents : gmap string (option string)) (child : string) :
  repoint old_name new_parent parents !! child
  = (fun parent => if decide (parent = Some old_name) then new_parent else parent)
      <$> parents !! child.
Proof.
  unfold repoint. rewrite lookup_fmap.
  destruct (parents !! child) as [[p|]|]; cbn; [|done|done].
  destruct (String.eqb_spec p old_name) as [->|Hne].
  - by rewrite decide_True.
  - rewrite decide_False; [done | congruence].
Qed.

Lemma move_key_lookup_new {V} (old_name new_name : string) (d : gmap string V) (v : V) :
  old_name ≠ new_name →
  d !! old_name = Some v →
  move_key old_name new_name d !! new_name = Some v.
Proof.
  intros Hne Hold. unfold move_key. rewrite Hold.
  rewrite lookup_delete_ne by done. apply lookup_insert_eq.
Qed.

Lemma move_key_lookup_old {V} (old_name new_name : string) (d : gmap string V) :
  old_name ≠ new_name →
  old_name ∉ dom (move_key old_name new_name d).
Proof.
  intros Hne. apply not_elem_of_dom. unfold move_key.
  destruct (d !! old_name) eqn:Hold; [apply lookup_delete_eq | done].
Qed.

Lemma move_key_lookup_other {V} (old_name new_name : string) (d : gmap string V)
    (k : string) :
  k ≠ old_name → k ≠ new_name →
  move_key old_name new_name d !! k = d !! k.
Proof.
  intros Hold Hnew. unfold move_key. destruct (d !! old_name); [|done].
  rewrite lookup_delete_ne by done. by rewrite lookup_insert_ne.
Qed.

(** ** The cycle check *)

Section CycleCheck.
Variable st : Manager.

(** The walk finds [child] when it lies on the chain, and says so after at
    most one test per link. *)
Lemma circular_when_reached child n parent :
  child ≠ "" →
  nsteps (named_parent_of st) n parent child →
  ∀ fuel, n < fuel →
    would_create_circular_reference fuel st child (Some parent) = Some true.
Proof.
  intros Hchild Hsteps.
  induction Hsteps as [x | n x y z [Hx Hxy] _ IH]; intros [|fuel] Hfuel; try lia.
  - cbn. destruct (String.eqb_spec x "") as [->|_]; [done|].
    by rewrite String.eqb_refl.
  - cbn. destruct (String.eqb_spec x "") as [->|_]; [done|]. cbn.
    destruct (String.eqb x z); [done|].
    unfold parents_get. rewrite Hxy. apply IH; [done | lia].
Qed.

(** The walk ends without finding [child] when the chain above the
    proposed parent ends and [child] is not on it. *)
Lemma not_circular_when_rooted child n parent top :
  nsteps (parent_of st) n parent top →
  parents_get st top = None →
  ¬ rtc (parent_of st) parent child →
  ∀ fuel, n + 1 < fuel →
    would_create_circular_reference fuel st child (Some parent) = Some false.
Proof.
  intros Hsteps Htop.
  induction Hsteps as [x | n x y z Hxy _ IH]; intros Hfree [|fuel] Hfuel; try lia.
  - cbn. destruct (negb (String.eqb x "")); [|done].
    destruct (String.eqb_spec x child) as [->|_]; [by destruct Hfree|].
    rewrite Htop. destruct fuel; [lia | done].
  - cbn. destruct (negb (String.eqb x "")); [|done].
    destruct (String.eqb_spec x child) as [->|_]; [by destruct Hfree|].
    unfold parents_get. rewrite Hxy. apply IH; [done | | lia].
    intros Hy. apply Hfree. by eapply rtc_l.
Qed.

End CycleCheck.

(** C1 (as amended): for existing sets [child] and [parent], when [parent] is
    a descendant of [child] or [child] itself, and neither [child] nor any name
    on the chain of parent pointers from [parent] up to [child] is the empty
    string, [set_parent child parent] returns [False] with the warning of a
    circular reference and leaves the manager as it was. *)
Theorem set_parent_rejects_descendant (st : Manager) (child parent : string) :
  child ∈ dom (sets st) →
  parent ∈ dom (sets st) →
  child ≠ "" →
  rtc (named_parent_of st) parent child →
  ∃ n : nat, ∀ fuel : nat, (n ≤ fuel)%nat →
    set_parent fuel st child (Some parent)
    = Returns false st [circular_warning child parent].
Proof.
  intros Hc Hp Hne Hdesc.
  assert (parent ≠ "") as Hpne.
  { inversion Hdesc as [|? ? ? [Hx _]]; by subst. }
  apply rtc_nsteps in Hdesc as [n Hn].
  exists (S n). intros fuel Hfuel. unfold set_parent.
  apply has_key_true in Hc, Hp. rewrite Hc. cbn [negb name_of].
  rewrite Hp, (proj2 (name_truthy_Some parent) Hpne). cbn [negb andb].
  rewrite (circular_when_reached st child n parent Hne Hn); [done | lia].
Qed.

Lemma set_parent_rejects_descendant_witness :
  ∃ n : nat, ∀ fuel : nat, (n ≤ fuel)%nat →
    set_parent fuel a_over_b "a" (Some "b")
    = Returns false a_over_b [circular_warning "a" "b"].
Proof.
  apply (set_parent_rejects_descendant a_over_b "a" "b").
  - apply elem_of_dom. vm_compute. by eexists.
  - apply elem_of_dom. vm_compute. by eexists.
  - discriminate.
  - apply rtc_once. split; [discriminate | vm_compute; reflexivity].
Defined.

(** C1, the claim as written, fails for a set named by the empty string:
    [set_parent("", "")] takes that name for "no parent", skips the cycle
    check, returns [True] and stores the set as its own parent. *)
Lemma set_parent_accepts_unnamed_self :
  import_sets (cube_scene unnamed_set_file) init "sets.json"
  = Returns true unnamed_set_state [] ∧
  "" ∈ dom (sets unnamed_set_state) ∧
  rtc (parent_of unnamed_set_state) "" "" ∧
  ∀ fuel : nat,
    set_parent fuel unnamed_set_state "" (Some "")
    = Returns true (with_set_parents {[ "" := Some "" ]} unnamed_set_state) [] ∧
    set_parent fuel unnamed_set_state "" (Some "")
    ≠ Returns false unnamed_set_state [circular_warning "" ""] ∧
    parent_of (state_after (set_parent fuel unnamed_set_state "" (Some ""))) "" "".
Proof.
  split; [by vm_compute|].
  split; [apply elem_of_dom; vm_compute; by eexists|].
  split; [constructor|].
  intros fuel. split; [by vm_compute|]. split; by vm_compute.
Qed.

(** C2 (as amended): for existing sets [child] and [parent], when following the
    parent pointers from [parent] never reaches [child] ([child] is neither
    [parent] nor one of its ancestors) and the chain above [parent] ends,
    [set_parent child parent] returns [True] and stores [parent] as the
    parent pointer of [child], so the walk from [child] reaches [parent]. *)
Theorem set_parent_accepts_and_links (st : Manager) (child parent : string) :
  child ∈ dom (sets st) →
  parent ∈ dom (sets st) →
  ¬ rtc (parent_of st) parent child →
  rooted st parent →
  let st' := with_set_parents (<[child := Some parent]> (set_parents st)) st in
  (∃ n : nat, ∀ fuel : nat, (n ≤ fuel)%nat →
     set_parent fuel st child (Some parent) = Returns true st' []) ∧
  parent_of st' child parent ∧
  tc (parent_of st') child parent.
Proof.
  intros Hc Hp Hfree (top & Hchain & Htop) st'.
  assert (parent_of st' child parent) as Hlink.
  { unfold parent_of, st'. cbn. apply lookup_insert_eq. }
  split; [|split; [done | by apply tc_once]].
  apply rtc_nsteps in Hchain as [n Hn].
  exists (n + 2). intros fuel Hfuel. unfold set_parent.
  apply has_key_true in Hc, Hp. rewrite Hc. cbn [negb name_of]. rewrite Hp.
  rewrite andb_false_r.
  destruct (Py.name_truthy (Some parent)); [|done].
  rewrite (not_circular_when_rooted st child n parent top Hn Htop Hfree); [done | lia].
Qed.

Lemma set_parent_accepts_and_links_witness :
  let st := a_over_b in
  let st' := with_set_parents (<["b" := Some "a"]> (set_parents st)) st in
  (∃ n : nat, ∀ fuel : nat, (n ≤ fuel)%nat → set_parent fuel st "b" (Some "a") = Returns true st' []) ∧
  parent_of st' "b" "a" ∧
  tc (parent_of st') "b" "a".
Proof.
  apply (set_parent_accepts_and_links a_over_b "b" "a").
  - apply elem_of_dom. vm_compute. by eexists.
  - apply elem_of_dom. vm_compute. by eexists.
  - intros H. inversion H as [|? ? ? Hstep _].
    vm_compute in Hstep. discriminate.
  - exists "a". split; [constructor | vm_compute; reflexivity].
Defined.

(** C2, the claim as written, fails: ["b"] is not an ancestor of ["a"], yet
    [set_parent("a", "b")] is refused, because ["a"] is an ancestor of ["b"]. *)
Lemma set_parent_refuses_parent_below_child :
  "a" ∈ dom (sets a_over_b) ∧
  "b" ∈ dom (sets a_over_b) ∧
  ¬ tc (parent_of a_over_b) "a" "b" ∧
  (∀ fuel : nat, (2 ≤ fuel)%nat →
     set_parent fuel a_over_b "a" (Some "b")
     = Returns false a_over_b [circular_warning "a" "b"]) ∧
  (∀ (fuel : nat) (st' : Manager) (tr : list event),
     set_parent fuel a_over_b "a" (Some "b") ≠ Returns true st' tr).
Proof.
  split; [apply elem_of_dom; vm_compute; by eexists|].
  split; [apply elem_of_dom; vm_compute; by eexists|].
  split; [|split].
  - intros H. inversion H as [? ? Hstep|? ? ? Hstep _]; vm_compute in Hstep; discriminate.
  - intros [|[|fuel]] Hfuel; try lia. by vm_compute.
  - intros [|[|fuel]] st' tr; by vm_compute.
Qed.

(** ** Deletion *)

(** X19: deleting an existing parent group returns [True], takes the group
    out of the membership registry and out of the four registries of its
    visual properties, and touches nothing that belongs to the sets: the
    member sets stay, with their objects, looks and parent pointers. *)
Lemma delete_parent_group_frame (st : Manager) (name : string) :
  name ∈ dom (parent_groups st) →
  ∃ st',
    delete_parent_group st name = Returns true st' [] ∧
    parent_groups st' = delete name (parent_groups st) ∧
    group_positions st' = delete name (group_positions st) ∧
    group_colors st' = delete name (group_colors st) ∧
    group_sizes st' = delete name (group_sizes st) ∧
    group_transparency st' = delete name (group_transparency st) ∧
    sets st' = sets st ∧
    set_positions st' = set_positions st ∧
    set_colors st' = set_colors st ∧
    set_sizes st' = set_sizes st ∧
    set_transparency st' = set_transparency st ∧
    set_parents st' = set_parents st.
Proof.
  intros Hin. unfold delete_parent_group.
  rewrite (proj2 (has_key_true _ _) Hin). cbn [negb].
  eexists. split; [reflexivity|]. by repeat split.
Qed.

(** Deleting a set takes out its own entries and sets to null the parent
    pointer of each of its children; the children stay, and so does every
    membership list of the parent groups. *)
Lemma delete_set_orphans_children (st : Manager) (name : string) :
  name ∈ dom (sets st) →
  ∃ st',
    delete_set st name = Returns true st' [Warning ("Set '" +:+ name +:+ "' not found.")] ∧
    sets st' = delete name (sets st) ∧
    set_positions st' = delete name (set_positions st) ∧
    set_colors st' = delete name (set_colors st) ∧
    set_sizes st' = delete name (set_sizes st) ∧
    set_transparency st' = delete name (set_transparency st) ∧
    set_parents st' = repoint name None (delete name (set_parents st)) ∧
    parent_groups st' = parent_groups st.
Proof.
  intros Hin. unfold delete_set, remove_set_from_group.
  rewrite (proj2 (has_key_true _ _) Hin).
  cbn [with_sets with_set_positions with_set_colors with_set_sizes with_set_transparency
       with_set_parents sets].
  assert (has_key (delete name (sets st)) name = false) as ->.
  { apply has_key_false, not_elem_of_dom, lookup_delete_eq. }
  cbn [negb]. eexists. split; [reflexivity|]. by repeat split.
Qed.

(** C9: [delete_set] calls [remove_set_from_group] after it has deleted the
    set from [sets], so that call finds no such set, warns and removes
    nothing: the deleted name stays in the membership list of its group. *)
Theorem delete_set_leaves_group_entry :
  parent_groups grouped_set !! "g" = Some ["a"] ∧
  ∃ st',
    delete_set grouped_set "a" = Returns true st' [Warning "Set 'a' not found."] ∧
    ("a" ∉ dom (sets st')) ∧
    parent_groups st' !! "g" = Some ["a"].
Proof.
  split; [by vm_compute|].
  eexists. split; [by vm_compute|].
  split; [apply not_elem_of_dom; by vm_compute | by vm_compute].
Qed.

(** ** Renaming a set *)

Lemma remove_first_NoDup (x : string) (l : list string) :
  NoDup l → x ∉ Py.remove_first x l.
Proof.
  induction 1 as [|y l Hy Hl IH]; cbn; [apply not_elem_of_nil|].
  destruct (String.eqb_spec y x) as [->|Hne]; [done|].
  apply not_elem_of_cons. split; [congruence | done].
Qed.

(** C5 (as amended): for an existing set [old_name] and a name [new_name]
    that no set uses, in a manager where no membership list holds a name
    twice, [rename_set] returns [True]; the objects, position, color, size,
    transparency and parent pointer of the old name are found under the new
    name, every set whose parent pointer was the old name now points to the
    new name, every group that held the old name holds the new name, and
    nothing in the manager mentions the old name any more. *)
Theorem rename_set_moves_bundle (st : Manager) (old_name new_name : string) :
  old_name ∈ dom (sets st) →
  new_name ∉ dom (sets st) →
  groups_without_duplicates st →
  ∃ st',
    rename_set st old_name new_name = Returns true st' [] ∧
    sets st' !! new_name = sets st !! old_name ∧
    (∀ v, set_positions st !! old_name = Some v → set_positions st' !! new_name = Some v) ∧
    (∀ v, set_colors st !! old_name = Some v → set_colors st' !! new_name = Some v) ∧
    (∀ v, set_sizes st !! old_name = Some v → set_sizes st' !! new_name = Some v) ∧
    (∀ v, set_transparency st !! old_name = Some v →
          set_transparency st' !! new_name = Some v) ∧
    (∀ p, set_parents st !! old_name = Some p → p ≠ Some old_name →
          set_parents st' !! new_name = Some p) ∧
    (∀ child, child ∈ dom (sets st) → child ≠ old_name → parent_of st child old_name →
              parent_of st' child new_name) ∧
    (∀ group, in_group st old_name group → in_group st' new_name group) ∧
    ¬ mentions st' old_name.
Proof.
  intros Hold Hnew Hnodup.
  assert (old_name ≠ new_name) as Hne by (intros ->; done).
  unfold rename_set. apply elem_of_dom in Hold as [objects Hobjects].
  rewrite Hobjects, (proj2 (has_key_false _ _) Hnew).
  eexists. split; [reflexivity|]. read_fields.
  split; [by rewrite lookup_delete_ne, lookup_insert_eq|].
  do 4 (split; [intros v Hv; by apply move_key_lookup_new|]).
  split; [|split; [|split]].
  - intros p Hp Hself. rewrite lookup_repoint.
    rewrite (move_key_lookup_new _ _ _ p) by done. cbn.
    by rewrite decide_False.
  - intros child Hchild_set Hc1 Hchild.
    assert (child ≠ new_name) as Hc2 by (intros ->; done).
    unfold parent_of in *. read_fields.
    rewrite lookup_repoint, move_key_lookup_other, Hchild by done. cbn.
    by rewrite decide_True.
  - intros group (members & Hgroup & Hin). exists (Py.remove_first old_name members ++ [new_name])%list.
    read_fields. unfold rename_in_groups. rewrite lookup_fmap, Hgroup. cbn.
    rewrite (proj2 (mem_true _ _) Hin). split; [done|].
    apply elem_of_app. right. by apply list_elem_of_singleton.
  - intros Hmentions. unfold mentions, parent_of, in_group in Hmentions. read_fields.
    destruct Hmentions as [H|[H|[H|[H|[H|[H|[[child H]|(group & members & Hgroup & Hin)]]]]]]].
    + apply elem_of_dom in H as [? H]. by rewrite lookup_delete_eq in H.
    + by apply move_key_lookup_old in H.
    + by apply move_key_lookup_old in H.
    + by apply move_key_lookup_old in H.
    + by apply move_key_lookup_old in H.
    + unfold repoint in H. rewrite dom_fmap_L in H. by apply move_key_lookup_old in H.
    + rewrite lookup_repoint in H.
      destruct (move_key old_name new_name (set_parents st) !! child) as [p|]; [|done].
      cbn in H. case_decide; congruence.
    + unfold rename_in_groups in Hgroup. rewrite lookup_fmap in Hgroup.
      destruct (parent_groups st !! group) as [members0|] eqn:Hgroup0; [|done].
      cbn in Hgroup. injection Hgroup as <-.
      destruct (Py.mem old_name members0) eqn:Hmem.
      * apply elem_of_app in Hin as [Hin|Hin].
        -- by apply (remove_first_NoDup old_name members0 (Hnodup _ _ Hgroup0)).
        -- apply list_elem_of_singleton in Hin. done.
      * apply mem_true in Hin. congruence.
Qed.

Lemma family_in_group_without_duplicates : groups_without_duplicates family_in_group.
Proof.
  intros group members H. each_item H. injection H as -> ->. apply NoDup_singleton.
Qed.

Lemma rename_set_moves_bundle_witness :
  ∃ st',
    rename_set family_in_group "a" "c" = Returns true st' [] ∧
    sets st' !! "c" = Some ["pCube1"] ∧
    parent_of st' "b" "c" ∧
    in_group st' "c" "g" ∧
    ¬ mentions st' "a".
Proof.
  destruct (rename_set_moves_bundle family_in_group "a" "c")
    as (st' & Hrun & Hobjects & _ & _ & _ & _ & _ & Hchildren & Hgroups & Hgone).
  - apply elem_of_dom. vm_compute. by eexists.
  - apply not_elem_of_dom. vm_compute. reflexivity.
  - exact family_in_group_without_duplicates.
  - exists st'. split; [exact Hrun|]. split; [exact Hobjects|].
    split; [|split; [|exact Hgone]].
    + apply Hchildren; [apply elem_of_dom; vm_compute; by eexists | discriminate |].
      vm_compute. reflexivity.
    + apply Hgroups. exists ["a"]. split; [vm_compute; reflexivity|].
      by apply list_elem_of_singleton.
Defined.

(** C5, the claim as written, fails when a membership list holds the old
    name twice: [rename_set] takes out the first occurrence only.  After the
    import of a file that lists the set twice in a group, renaming ["a"] to
    ["b"] leaves ["a"] in the list although no set has that name any more. *)
Lemma rename_set_leaves_second_entry :
  ∃ st st',
    import_sets (cube_scene listed_twice_file) init "sets.json" = Returns true st [] ∧
    "a" ∈ dom (sets st) ∧
    ("b" ∉ dom (sets st)) ∧
    rename_set st "a" "b" = Returns true st' [] ∧
    ("a" ∉ dom (sets st')) ∧
    parent_groups st' !! "g" = Some ["a"; "b"] ∧
    mentions st' "a".
Proof.
  eexists. eexists. split; [by vm_compute|].
  split; [apply elem_of_dom; vm_compute; by eexists|].
  split; [apply not_elem_of_dom; by vm_compute|].
  split; [by vm_compute|].
  split; [apply not_elem_of_dom; by vm_compute|].
  split; [by vm_compute|].
  do 7 right. exists "g", ["a"; "b"]. split; [by vm_compute | by left].
Qed.

(** ** Membership in parent groups *)

Lemma remove_first_subset (x y : string) (l : list string) :
  y ∈ Py.remove_first x l → y ∈ l.
Proof.
  induction l as [|z l IH]; cbn; [done|].
  destruct (String.eqb z x).
  - intros Hin. by right.
  - rewrite !elem_of_cons. intros [->|Hin]; [by left | right; by apply IH].
Qed.

Lemma remove_first_keeps_NoDup (x : string) (l : list string) :
  NoDup l → NoDup (Py.remove_first x l).
Proof.
  induction 1 as [|y l Hy Hl IH]; cbn; [constructor|].
  destruct (String.eqb y x); [done|].
  constructor; [|done]. intros Hin. by apply Hy, (remove_first_subset x).
Qed.

Lemma remove_from_groups_lookup (s group : string) (groups : gmap string (list string)) :
  remove_from_groups s groups !! group
  = (fun members => if Py.mem s members then Py.remove_first s members else members)
      <$> groups !! group.
Proof. unfold remove_from_groups. apply lookup_fmap. Qed.

(** After [add_set_to_group] the set is a member of the group named and of
    no other, provided no membership list held a name twice. *)
Lemma add_set_to_group_single (st : Manager) (s group : string) :
  s ∈ dom (sets st) →
  group ∈ dom (parent_groups st) →
  groups_without_duplicates st →
  ∃ st',
    add_set_to_group st s group = Returns true st' [] ∧
    in_group st' s group ∧
    (∀ g, in_group st' s g → g = group) ∧
    groups_without_duplicates st' ∧
    sets st' = sets st ∧
    dom (parent_groups st') = dom (parent_groups st).
Proof.
  intros Hs Hgroup Hnodup. unfold add_set_to_group.
  rewrite (proj2 (has_key_true _ _) Hs), (proj2 (has_key_true _ _) Hgroup). cbn [negb].
  apply elem_of_dom in Hgroup as [members0 Hmembers0].
  assert (∀ g members,
            remove_from_groups s (parent_groups st) !! g = Some members →
            (s ∉ members) ∧ NoDup members) as Hremoved.
  { intros g members. rewrite remove_from_groups_lookup.
    destruct (parent_groups st !! g) as [l|] eqn:Hl; [|done].
    cbn. intros [= <-]. pose proof (Hnodup g l Hl) as Hl'.
    destruct (Py.mem s l) eqn:Hmem.
    - split; [by apply remove_first_NoDup | by apply remove_first_keeps_NoDup].
    - split; [|done]. intros Hin. apply mem_true in Hin. congruence. }
  destruct (remove_from_groups s (parent_groups st) !! group) as [members|] eqn:Hmembers.
  2:{ rewrite remove_from_groups_lookup, Hmembers0 in Hmembers. done. }
  destruct (Hremoved group members Hmembers) as [Hnotin Hmnodup].
  assert (Py.mem s members = false) as ->.
  { destruct (Py.mem s members) eqn:Hmem; [|done]. by apply mem_true in Hmem. }
  cbn [negb]. eexists. split; [reflexivity|].
  unfold in_group, groups_without_duplicates. read_fields.
  split; [|split; [|split; [|split]]].
  - exists (members ++ [s])%list. rewrite lookup_insert_eq. split; [done|].
    apply elem_of_app. right. by apply list_elem_of_singleton.
  - intros g (l & Hl & Hin). destruct (decide (g = group)) as [->|Hne]; [done|].
    rewrite lookup_insert_ne in Hl by done. by destruct (Hremoved g l Hl).
  - intros g l Hl. destruct (decide (g = group)) as [->|Hne].
    + rewrite lookup_insert_eq in Hl. injection Hl as <-.
      apply NoDup_app. split; [done|]. split; [|apply NoDup_singleton].
      intros x Hx Hx'. apply list_elem_of_singleton in Hx' as ->. done.
    + rewrite lookup_insert_ne in Hl by done. by destruct (Hremoved g l Hl).
  - done.
  - rewrite dom_insert_L. unfold remove_from_groups. rewrite dom_fmap_L.
    apply subseteq_union_1_L, singleton_subseteq_l, elem_of_dom. by eexists.
Qed.

(** X20: in a manager where no membership list holds a name twice, adding
    an existing set to two existing groups in sequence succeeds both times
    and leaves the set a member of the second group only. *)
Lemma add_set_to_two_groups (st : Manager) (s g1 g2 : string) :
  s ∈ dom (sets st) →
  g1 ∈ dom (parent_groups st) →
  g2 ∈ dom (parent_groups st) →
  groups_without_duplicates st →
  ∃ st1 st2,
    add_set_to_group st s g1 = Returns true st1 [] ∧
    add_set_to_group st1 s g2 = Returns true st2 [] ∧
    in_group st2 s g2 ∧
    ∀ g, in_group st2 s g → g = g2.
Proof.
  intros Hs Hg1 Hg2 Hnodup.
  destruct (add_set_to_group_single st s g1 Hs Hg1 Hnodup)
    as (st1 & Hfirst & _ & _ & Hnodup1 & Hsets1 & Hdom1).
  destruct (add_set_to_group_single st1 s g2) as (st2 & Hsecond & Hin & Honly & _);
    [by rewrite Hsets1 | by rewrite Hdom1 | done |].
  by exists st1, st2.
Qed.

(** C6: [add_set_to_group] takes the set out of the other groups, but
    [import_sets] copies every membership list of the file: after the import
    the one set is a member of both groups. *)
Theorem import_sets_accepts_two_groups :
  one_group_per_set init ∧
  ∃ st,
    import_sets (cube_scene two_groups_file) init "sets.json" = Returns true st [] ∧
    parent_groups st !! "g1" = Some ["a"] ∧
    parent_groups st !! "g2" = Some ["a"] ∧
    ¬ one_group_per_set st.
Proof.
  split.
  { intros s g1 g2 (members & H & _). by vm_compute in H. }
  eexists. split; [by vm_compute|].
  split; [by vm_compute|]. split; [by vm_compute|].
  intros Hone.
  assert ("g1" = "g2") as Heq; [|discriminate Heq].
  apply (Hone "a"); exists ["a"]; (split; [by vm_compute | apply list_elem_of_singleton; done]).
Qed.

(** ** The forest of sets *)

Section NewEdge.
Variables (st : Manager) (child parent : string).

Lemma parent_of_new_edge (x y : string) :
  parent_of (with_parent child parent st) x y → (x = child ∧ y = parent) ∨ (x ≠ child ∧ parent_of st x y).
Proof.
  unfold parent_of, with_parent. read_fields. intros H.
  destruct (decide (x = child)) as [->|Hne].
  - rewrite lookup_insert_eq in H. left. split; congruence.
  - rewrite lookup_insert_ne in H by done. by right.
Qed.

(** The end of a path of the new graph is reached in the old graph from where
    the path started or from the new parent. *)
Lemma path_after_new_edge (x y : string) :
  rtc (parent_of (with_parent child parent st)) x y → rtc (parent_of st) x y ∨ rtc (parent_of st) parent y.
Proof.
  induction 1 as [x|x z y Hstep _ IH]; [by left|].
  apply parent_of_new_edge in Hstep as [[-> ->]|[_ Hstep]].
  - right. by destruct IH.
  - destruct IH as [IH|IH]; [left; by eapply rtc_l | by right].
Qed.

Lemma cycle_through_new_edge (x y : string) :
  tc (parent_of (with_parent child parent st)) x y →
  tc (parent_of st) x y ∨ (rtc (parent_of (with_parent child parent st)) x child ∧ rtc (parent_of st) parent y).
Proof.
  induction 1 as [x y Hstep|x z y Hstep Hrest IH].
  - apply parent_of_new_edge in Hstep as [[-> ->]|[_ Hstep]].
    + right. split; constructor.
    + left. by apply tc_once.
  - pose proof Hstep as Hstep'.
    apply parent_of_new_edge in Hstep as [[-> ->]|[_ Hstep]].
    + right. split; [constructor|].
      destruct IH as [IH|[_ IH]]; [by apply tc_rtc | done].
    + destruct IH as [IH|[IH1 IH2]].
      * left. by eapply tc_l.
      * right. split; [by eapply rtc_l | done].
Qed.

(** A new pointer closes a cycle only when the child was already reachable
    from the new parent. *)
Lemma new_edge_keeps_forest :
  forest st → ¬ rtc (parent_of st) parent child → forest (with_parent child parent st).
Proof.
  intros Hforest Hfree x Hcycle.
  apply cycle_through_new_edge in Hcycle as [Hcycle|[Hdown Hup]].
  - by apply (Hforest x).
  - apply Hfree. apply path_after_new_edge in Hdown as [Hdown|Hdown]; [|done].
    by etrans.
Qed.

End NewEdge.

(** Taking pointers away or setting them to null keeps the forest. *)
Lemma fewer_edges_keep_forest (st st' : Manager) :
  (∀ x y, parent_of st' x y → parent_of st x y) → forest st → forest st'.
Proof.
  intros Hsub Hforest x Hcycle. apply (Hforest x).
  exact (tc_congruence (fun a => a) (parent_of st) x x Hsub Hcycle).
Qed.

Lemma circular_fuel_mono (st : Manager) (child : string) (fuel : nat) :
  ∀ (ancestor : option string) (answer : bool) (fuel' : nat),
    would_create_circular_reference fuel st child ancestor = Some answer →
    (fuel ≤ fuel')%nat →
    would_create_circular_reference fuel' st child ancestor = Some answer.
Proof.
  induction fuel as [|fuel IH]; intros ancestor answer [|fuel'] Hrun Hle;
    try done; try lia.
  cbn [would_create_circular_reference] in *.
  destruct ancestor as [a|]; [|done].
  destruct (Py.name_truthy (Some a)); [|done].
  destruct (String.eqb a child); [done|].
  apply IH; [done | lia].
Qed.

(** [set_parent] keeps the forest when no set named by the empty string has
    a parent entry and the child is not that set. *)
Lemma set_parent_keeps_forest (fuel : nat) (st st' : Manager) (child : string)
    (parent_name : option string) (tr : list event) :
  forest st →
  "" ∉ dom (set_parents st) →
  child ≠ "" →
  set_parent fuel st child parent_name = Returns true st' tr →
  forest st'.
Proof.
  intros Hforest Hnamed Hchild. unfold set_parent.
  destruct (negb (has_key (sets st) child)); [discriminate|].
  destruct (Py.name_truthy parent_name && negb (has_key (sets st) (name_of parent_name)));
    [discriminate|].
  destruct parent_name as [parent|].
  2:{ cbn. intros [= <- _]. apply (fewer_edges_keep_forest st); [|done].
      intros x y. unfold parent_of. read_fields.
      destruct (decide (x = child)) as [->|Hne].
      - by rewrite lookup_insert_eq.
      - by rewrite lookup_insert_ne. }
  destruct (Py.name_truthy (Some parent)) eqn:Htruthy.
  - destruct (would_create_circular_reference fuel st child (Some parent))
      as [[|]|] eqn:Hwalk; try discriminate.
    intros [= <- _]. apply (new_edge_keeps_forest st child parent); [done|].
    intros Hreach.
    assert (rtc (named_parent_of st) parent child) as Hnamed_reach.
    { eapply rtc_subrel; [|exact Hreach].
      intros x y Hxy. split; [|done]. intros ->.
      apply Hnamed, elem_of_dom. by eexists. }
    apply rtc_nsteps in Hnamed_reach as [n Hn].
    pose proof (circular_when_reached st child n parent Hchild Hn (S n + fuel)
                  ltac:(lia)) as Hfound.
    apply (circular_fuel_mono _ _ _ _ _ (S n + fuel)) in Hwalk; [|lia].
    congruence.
  - intros [= <- _].
    assert (parent = "") as ->.
    { destruct (String.eqb_spec parent "") as [->|Hne]; [done|].
      apply (name_truthy_Some parent) in Hne. congruence. }
    apply (new_edge_keeps_forest st child ""); [done|].
    intros Hreach. inversion Hreach as [|? ? ? Hstep _]; [by subst|].
    apply Hnamed, elem_of_dom. by eexists.
Qed.

Lemma delete_set_keeps_forest (st st' : Manager) (name : string) (answer : bool)
    (tr : list event) :
  forest st → delete_set st name = Returns answer st' tr → forest st'.
Proof.
  intros Hforest Hrun.
  destruct (decide (name ∈ dom (sets st))) as [Hin|Hout].
  - destruct (delete_set_orphans_children st name Hin)
      as (st1 & Hrun1 & _ & _ & _ & _ & _ & Hparents & _).
    rewrite Hrun1 in Hrun. injection Hrun as _ <- _.
    apply (fewer_edges_keep_forest st); [|done].
    intros x y. unfold parent_of. rewrite Hparents, lookup_repoint.
    destruct (decide (x = name)) as [->|Hne]; [by rewrite lookup_delete_eq|].
    rewrite lookup_delete_ne by done.
    destruct (set_parents st !! x) as [q|]; [|done].
    cbn. case_decide; congruence.
  - unfold delete_set in Hrun. rewrite (proj2 (has_key_false _ _) Hout) in Hrun.
    by injection Hrun as _ <- _.
Qed.

(** Renaming to a name that the manager does not mention yet renames the
    nodes of the forest. *)
Lemma rename_set_keeps_forest (st st' : Manager) (old_name new_name : string)
    (tr : list event) :
  forest st →
  ¬ mentions st new_name →
  rename_set st old_name new_name = Returns true st' tr →
  forest st'.
Proof.
  intros Hforest Hfresh Hrun.
  assert (new_name ∉ dom (set_parents st)) as Hkey.
  { intros H. apply Hfresh. unfold mentions. tauto. }
  assert (∀ child, ¬ parent_of st child new_name) as Hpointer.
  { intros child H. apply Hfresh. unfold mentions. do 6 right. left. by exists child. }
  unfold rename_set in Hrun.
  destruct (sets st !! old_name) as [objects|] eqn:Hold; [|discriminate].
  destruct (has_key (sets st) new_name) eqn:Hnew; [discriminate|].
  assert (old_name ≠ new_name) as Hne.
  { intros ->. unfold has_key in Hnew. by rewrite Hold in Hnew. }
  injection Hrun as <- _.
  set (back := fun x : string => if decide (x = new_name) then old_name else x).
  intros x Hcycle. apply (Hforest (back x)).
  refine (tc_congruence back (parent_of st) x x _ Hcycle).
  clear x Hcycle. intros x y. unfold parent_of. read_fields.
  rewrite lookup_repoint. intros Hstep.
  assert (∃ q, set_parents st !! back x = Some q ∧
               (if decide (q = Some old_name) then Some new_name else q) = Some y)
    as (q & Hq & Hy).
  { unfold back, move_key in *.
    destruct (set_parents st !! old_name) as [v|] eqn:Hv.
    - destruct (decide (x = new_name)) as [->|Hx].
      + rewrite lookup_delete_ne, lookup_insert_eq in Hstep by done.
        cbn in Hstep. exists v. split; [done | congruence].
      + destruct (decide (x = old_name)) as [->|Hx'].
        * by rewrite lookup_delete_eq in Hstep.
        * rewrite lookup_delete_ne, lookup_insert_ne in Hstep by done.
          destruct (set_parents st !! x) as [q|]; [|done].
          cbn in Hstep. exists q. split; [done | congruence].
    - destruct (decide (x = new_name)) as [->|Hx].
      + apply not_elem_of_dom in Hkey. by rewrite Hkey in Hstep.
      + destruct (set_parents st !! x) as [q|]; [|done].
        cbn in Hstep. exists q. split; [done | congruence]. }
  case_decide as Hold_parent.
  - injection Hy as <-. unfold back at 2. rewrite decide_True by done.
    by rewrite Hq, Hold_parent.
  - subst q. unfold back at 2. rewrite decide_False; [done|].
    intros ->. by apply (Hpointer (back x)).
Qed.

(** In a forest every chain of parent pointers ends: a walk that met more
    sets than there are parent entries would have met one of them twice. *)
Lemma forest_rooted (st : Manager) (x : string) : forest st → rooted st x.
Proof.
  intros Hforest.
  assert (∀ (n : nat) (visited : gset string) (y : string),
            (size (dom (set_parents st) ∖ visited) < n)%nat →
            (∀ v, v ∈ visited → tc (parent_of st) v y) →
            rooted st y) as Hwalk.
  { induction n as [|n IH]; intros visited y Hsize Hvisited; [lia|].
    destruct (parents_get st y) as [p|] eqn:Hget; [|exists y; by split].
    assert (parent_of st y p) as Hstep.
    { unfold parent_of. unfold parents_get in Hget.
      destruct (set_parents st !! y) as [q|]; [by subst | done]. }
    assert (y ∉ visited) as Hnew.
    { intros Hin. by apply (Hforest y), Hvisited. }
    destruct (IH ({[y]} ∪ visited) p) as (top & Hchain & Htop).
    - assert (y ∈ dom (set_parents st) ∖ visited) as Hy.
      { apply elem_of_difference. split; [|done]. apply elem_of_dom. by eexists. }
      assert (dom (set_parents st) ∖ ({[y]} ∪ visited)
              = (dom (set_parents st) ∖ visited) ∖ {[y]}) as ->.
      { apply set_eq. intros z.
        rewrite !elem_of_difference, elem_of_union, elem_of_singleton. tauto. }
      assert ({[y]} ⊆ dom (set_parents st) ∖ visited) as Hsub
        by (by apply singleton_subseteq_l).
      pose proof (subseteq_size _ _ Hsub) as Hone.
      rewrite size_difference by done. rewrite size_singleton in *. lia.
    - intros v Hv. apply elem_of_union in Hv as [Hv|Hv].
      + apply elem_of_singleton in Hv as ->. by apply tc_once.
      + eapply tc_r; [by apply Hvisited | done].
    - exists top. split; [by eapply rtc_l | done]. }
  apply (Hwalk (S (size (dom (set_parents st) ∖ ∅))) ∅ x); [lia|].
  intros v Hv. by apply elem_of_empty in Hv.
Qed.

(** C3: the claim holds for the checked path [set_parent] but not for
    [import_sets], which copies the parent pointers of the file without the
    cycle check: after the import each of the two sets is its own ancestor,
    and the cycle check for a third set no longer ends. *)
Theorem import_sets_accepts_cycle :
  forest init ∧
  ∃ st,
    import_sets (cube_scene cyclic_parents_file) init "sets.json" = Returns true st [] ∧
    parent_of st "a" "b" ∧
    parent_of st "b" "a" ∧
    tc (parent_of st) "a" "a" ∧
    ¬ forest st ∧
    ∀ fuel, would_create_circular_reference fuel st "c" (Some "a") = None.
Proof.
  split.
  { intros x H. destruct H as [? ? Hstep|? ? ? Hstep _];
      unfold parent_of in Hstep; cbn in Hstep; by rewrite lookup_empty in Hstep. }
  eexists. split; [by vm_compute|].
  assert (∀ st, parent_of st "a" "b" → parent_of st "b" "a" → tc (parent_of st) "a" "a")
    as Hloop.
  { intros st Hab Hba. eapply tc_l; [exact Hab | by apply tc_once]. }
  split; [by vm_compute|]. split; [by vm_compute|].
  split; [apply Hloop; by vm_compute|].
  split; [intros Hforest; apply (Hforest "a"), Hloop; by vm_compute|].
  intros fuel. induction (lt_wf fuel) as [fuel _ IH].
  destruct fuel as [|[|fuel]]; [done | done |].
  change (would_create_circular_reference fuel
            (state_after (import_sets (cube_scene cyclic_parents_file) init "sets.json"))
            "c" (Some "a") = None).
  apply IH. lia.
Qed.

(** ** Names already taken *)

Lemma numbered_inj (name : string) : Inj (=) (=) (numbered name).
Proof.
  intros j k H. unfold numbered in H.
  apply String.app_inj in H. apply String.app_inj in H.
  by apply pretty_nat_inj in H.
Qed.

Lemma length_append (s1 s2 : string) :
  String.length (s1 +:+ s2) = String.length s1 + String.length s2.
Proof.
  induction s1 as [|a s1 IH]; [done|].
  change (S (String.length (s1 +:+ s2)) = S (String.length s1 + String.length s2)).
  by rewrite IH.
Qed.

Lemma numbered_longer (name : string) (k : nat) : numbered name k ≠ name.
Proof.
  intros H. apply (f_equal String.length) in H.
  unfold numbered in H. rewrite !length_append in H. cbn in H. lia.
Qed.

Section UniqueName.
Context {V : Type} (registry : gmap string V) (name : string).

(** The loop tries the name, then the numbered names in turn; each one found
    taken leaves one name less to find, so it stops within [size registry]
    rounds, on a free name. *)
Lemma unique_name_stops (fuel : nat) :
  ∀ (rest : gset string) (candidate : string) (counter : nat),
    (∀ k : nat, (counter ≤ k)%nat → numbered name k ∈ dom registry → numbered name k ∈ rest) →
    (candidate ∈ dom registry → candidate ∈ rest) →
    (∀ k : nat, (counter ≤ k)%nat → numbered name k ≠ candidate) →
    (size rest < fuel)%nat →
    ∃ found,
      unique_name fuel (has_key registry) name candidate counter = Some found ∧
      (found ∉ dom registry) ∧
      (found = candidate ∨ ∃ k : nat, (counter ≤ k)%nat ∧ found = numbered name k).
Proof.
  induction fuel as [|fuel IH]; intros rest candidate counter Hlater Hnow Hfresh Hsize;
    [lia|].
  cbn [unique_name]. destruct (has_key registry candidate) eqn:Htaken.
  - apply has_key_true in Htaken.
    destruct (IH (rest ∖ {[candidate]}) (numbered name counter) (S counter))
      as (found & Hrun & Hfree & Hshape).
    + intros k Hk Hin. apply elem_of_difference. split.
      * apply Hlater; [lia | done].
      * rewrite elem_of_singleton. apply Hfresh. lia.
    + intros Hin. apply elem_of_difference. split.
      * by apply Hlater.
      * rewrite elem_of_singleton. by apply Hfresh.
    + intros k Hk Heq. apply numbered_inj in Heq. lia.
    + assert ({[candidate]} ⊆ rest) as Hsub by (apply singleton_subseteq_l; by apply Hnow).
      pose proof (subseteq_size _ _ Hsub) as Hone.
      rewrite size_difference by done. rewrite size_singleton in *. lia.
    + exists found. split; [exact Hrun|]. split; [done|]. right.
      destruct Hshape as [->|(k & Hk & ->)]; [exists counter | exists k]; split; (lia || done).
  - apply has_key_false in Htaken. exists candidate. by split; [|split; [|left]].
Qed.

Lemma unique_name_free :
  ∃ found,
    (found ∉ dom registry) ∧
    (found = name ∨ ∃ k : nat, (1 ≤ k)%nat ∧ found = numbered name k) ∧
    ∀ fuel : nat, (size registry < fuel)%nat →
      unique_name fuel (has_key registry) name name 1 = Some found.
Proof.
  destruct (unique_name_stops (S (size registry)) (dom registry) name 1)
    as (found & Hrun & Hfree & Hshape); try done.
  - intros k _. apply numbered_longer.
  - rewrite size_dom. lia.
  - exists found. split; [done|]. split; [done|].
    intros fuel Hfuel.
    destruct (unique_name_stops fuel (dom registry) name 1)
      as (found' & Hrun' & _ & _); try done.
    + intros k _. apply numbered_longer.
    + by rewrite size_dom.
    + rewrite Hrun'. f_equal.
      clear -Hrun Hrun' Hfuel.
      assert (∀ f1 f2 c k r1 r2,
                unique_name f1 (has_key registry) name c k = Some r1 →
                unique_name f2 (has_key registry) name c k = Some r2 → r1 = r2) as Hdet.
      { induction f1 as [|f1 IH]; intros [|f2] c k r1 r2; cbn; try done.
        destruct (has_key registry c); [apply IH | congruence]. }
      by eapply Hdet.
Qed.

End UniqueName.

(** ** The position given to a new widget *)

Lemma mapM_all_return {A B} (f : A → exn + B) (l : list A) :
  (∀ a, a ∈ l → ∃ b, f a = inr b) →
  ∃ bs, mapM f l = inr bs ∧ length bs = length l.
Proof.
  induction l as [|a l IH]; intros Hall; [by exists []|].
  destruct (Hall a) as [b Hb]; [by left|].
  destruct IH as (bs & Hbs & Hlen); [intros a' Ha'; apply Hall; by right|].
  exists (b :: bs). cbn. rewrite Hb. cbn. rewrite Hbs. cbn. by rewrite Hlen.
Qed.

Lemma max_coord_numeric (i : nat) (vals : list json) :
  vals ≠ [] →
  (∀ pos, pos ∈ vals → ∃ z, (Py.index i pos ≫= Py.num) = inr z) →
  ∃ z, max_coord i vals = inr z.
Proof.
  intros Hne Hall. unfold max_coord.
  destruct (mapM_all_return (fun pos => c ← Py.index i pos; Py.num c) vals Hall)
    as (cs & -> & Hlen).
  cbn. destruct cs as [|c cs]; [|by eexists].
  destruct vals; [done | discriminate].
Qed.

Lemma offset_position_numeric (positions : gmap string json) :
  numeric_positions positions →
  is_empty positions = false →
  ∃ pos, offset_position positions = inr pos.
Proof.
  intros Hnum Hne. unfold offset_position.
  assert ((map_to_list positions).*2 ≠ []) as Hvals.
  { unfold is_empty in Hne. by destruct (map_to_list positions). }
  assert (∀ pos, pos ∈ (map_to_list positions).*2 → has_coordinates pos) as Hall.
  { intros pos Hin. apply list_elem_of_fmap in Hin as ([name pos'] & -> & Hin).
    apply elem_of_map_to_list in Hin. by eapply Hnum. }
  destruct (max_coord_numeric 0 _ Hvals) as [x ->].
  { intros pos Hin. destruct (Hall pos Hin) as (x & _ & Hx & _). eauto. }
  destruct (max_coord_numeric 1 _ Hvals) as [y ->].
  { intros pos Hin. destruct (Hall pos Hin) as (_ & y & _ & Hy). eauto. }
  by eexists.
Qed.

(** ** Creation under a name that may be taken *)

Lemma create_set_picks_free_name (h : Host) (st : Manager) (name : string) :
  selection h ≠ [] →
  numeric_positions (set_positions st) →
  ∃ set_name st',
    (set_name ∉ dom (sets st)) ∧
    (set_name = name ∨ ∃ k : nat, (1 ≤ k)%nat ∧ set_name = numbered name k) ∧
    sets st' = <[set_name := selection h]> (sets st) ∧
    ∀ fuel : nat, (size (sets st) < fuel)%nat →
      create_set h fuel st name = Returns (Some set_name) st' [].
Proof.
  intros Hsel Hnum.
  destruct (unique_name_free (sets st) name) as (set_name & Hfree & Hshape & Hrun).
  unfold create_set. destruct (selection h) as [|obj objs] eqn:Hselection; [done|].
  destruct (is_empty (set_positions st)) eqn:Hempty.
  - eexists set_name, _. split; [done|]. split; [done|]. split; [|intros fuel Hfuel].
    2:{ rewrite (Hrun fuel Hfuel). cbn [with_sets set_positions negb]. rewrite Hempty.
        cbn [negb]. reflexivity. }
    done.
  - destruct (offset_position_numeric _ Hnum Hempty) as [pos Hpos].
    eexists set_name, _. split; [done|]. split; [done|]. split; [|intros fuel Hfuel].
    2:{ rewrite (Hrun fuel Hfuel). cbn [with_sets set_positions negb]. rewrite Hempty.
        cbn [negb]. rewrite Hpos. reflexivity. }
    done.
Qed.

Lemma create_parent_group_picks_free_name (st : Manager) (name : string) :
  numeric_positions (group_positions st) →
  numeric_positions (set_positions st) →
  ∃ group_name st',
    (group_name ∉ dom (parent_groups st)) ∧
    (group_name = name ∨ ∃ k : nat, (1 ≤ k)%nat ∧ group_name = numbered name k) ∧
    parent_groups st' = <[group_name := []]> (parent_groups st) ∧
    sets st' = sets st ∧
    ∀ fuel : nat, (size (parent_groups st) < fuel)%nat →
      create_parent_group fuel st name = Returns group_name st' [].
Proof.
  intros Hgroups Hsets.
  destruct (unique_name_free (parent_groups st) name)
    as (group_name & Hfree & Hshape & Hrun).
  unfold create_parent_group.
  destruct (is_empty (group_positions st)) eqn:Hg;
    [destruct (is_empty (set_positions st)) eqn:Hs|].
  - eexists group_name, _. do 2 (split; [done|]). split; [|split; [|intros fuel Hfuel]].
    3:{ rewrite (Hrun fuel Hfuel). cbn [with_parent_groups group_positions set_positions].
        rewrite Hg, Hs. cbn [negb]. reflexivity. }
    all: done.
  - destruct (offset_position_numeric _ Hsets Hs) as [pos Hpos].
    eexists group_name, _. do 2 (split; [done|]). split; [|split; [|intros fuel Hfuel]].
    3:{ rewrite (Hrun fuel Hfuel). cbn [with_parent_groups group_positions set_positions].
        rewrite Hg, Hs. cbn [negb]. rewrite Hpos. reflexivity. }
    all: done.
  - destruct (offset_position_numeric _ Hgroups Hg) as [pos Hpos].
    eexists group_name, _. do 2 (split; [done|]). split; [|split; [|intros fuel Hfuel]].
    3:{ rewrite (Hrun fuel Hfuel). cbn [with_parent_groups group_positions set_positions].
        rewrite Hg. cbn [negb]. rewrite Hpos. reflexivity. }
    all: done.
Qed.

(** C10 (as amended): a rename whose target name is taken returns [False]
    with the warning that the name already exists and changes nothing.  A
    create never reports a collision: when the name is taken it stores the
    new entry under a free name [name_k] (the states of the visual properties
    being numeric positions, and the selection not empty for a set), returns
    that name, and leaves the entries already there as they were. *)
Theorem taken_name_outcome (h : Host) (st : Manager) (old_name name : string) :
  (old_name ∈ dom (sets st) → name ∈ dom (sets st) →
     rename_set st old_name name = Returns false st [set_exists_warning name]) ∧
  (old_name ∈ dom (parent_groups st) → name ∈ dom (parent_groups st) →
     rename_parent_group st old_name name
     = Returns false st [group_exists_warning name]) ∧
  (name ∈ dom (sets st) → selection h ≠ [] → numeric_positions (set_positions st) →
     ∃ (k : nat) (st' : Manager),
       (1 ≤ k)%nat ∧
       (numbered name k ∉ dom (sets st)) ∧
       sets st' = <[numbered name k := selection h]> (sets st) ∧
       ∀ fuel : nat, (size (sets st) < fuel)%nat →
         create_set h fuel st name = Returns (Some (numbered name k)) st' []) ∧
  (name ∈ dom (parent_groups st) →
   numeric_positions (group_positions st) → numeric_positions (set_positions st) →
     ∃ (k : nat) (st' : Manager),
       (1 ≤ k)%nat ∧
       (numbered name k ∉ dom (parent_groups st)) ∧
       parent_groups st' = <[numbered name k := []]> (parent_groups st) ∧
       sets st' = sets st ∧
       ∀ fuel : nat, (size (parent_groups st) < fuel)%nat →
         create_parent_group fuel st name = Returns (numbered name k) st' []).
Proof.
  repeat split.
  - intros Hold Hnew. unfold rename_set.
    apply elem_of_dom in Hold as [objects ->].
    by rewrite (proj2 (has_key_true _ _) Hnew).
  - intros Hold Hnew. unfold rename_parent_group.
    apply elem_of_dom in Hold as [members ->].
    by rewrite (proj2 (has_key_true _ _) Hnew).
  - intros Htaken Hsel Hnum.
    destruct (create_set_picks_free_name h st name Hsel Hnum)
      as (set_name & st' & Hfree & [->|(k & Hk & ->)] & Hsets & Hrun); [done|].
    by exists k, st'.
  - intros Htaken Hgroups Hsets.
    destruct (create_parent_group_picks_free_name st name Hgroups Hsets)
      as (group_name & st' & Hfree & [->|(k & Hk & ->)] & Hstored & Hkept & Hrun); [done|].
    by exists k, st'.
Qed.

Lemma grouped_set_numeric :
  numeric_positions (set_positions grouped_set) ∧
  numeric_positions (group_positions grouped_set).
Proof.
  split; intros name pos H; each_item H; injection H as -> ->; by eexists _, _.
Qed.

Lemma taken_name_outcome_witness :
  let h := cube_scene JNull in
  rename_set grouped_set "a" "a" = Returns false grouped_set [set_exists_warning "a"] ∧
  rename_parent_group grouped_set "g" "g"
  = Returns false grouped_set [group_exists_warning "g"] ∧
  (∃ (k : nat) (st' : Manager),
     (1 ≤ k)%nat ∧
     (numbered "a" k ∉ dom (sets grouped_set)) ∧
     sets st' = <[numbered "a" k := selection h]> (sets grouped_set) ∧
     ∀ fuel : nat, (size (sets grouped_set) < fuel)%nat →
       create_set h fuel grouped_set "a" = Returns (Some (numbered "a" k)) st' []) ∧
  (∃ (k : nat) (st' : Manager),
     (1 ≤ k)%nat ∧
     (numbered "g" k ∉ dom (parent_groups grouped_set)) ∧
     parent_groups st' = <[numbered "g" k := []]> (parent_groups grouped_set) ∧
     sets st' = sets grouped_set ∧
     ∀ fuel : nat, (size (parent_groups grouped_set) < fuel)%nat →
       create_parent_group fuel grouped_set "g" = Returns (numbered "g" k) st' []).
Proof.
  intros h.
  assert ("a" ∈ dom (sets grouped_set)) as Ha
    by (apply elem_of_dom; vm_compute; by eexists).
  assert ("g" ∈ dom (parent_groups grouped_set)) as Hg
    by (apply elem_of_dom; vm_compute; by eexists).
  destruct grouped_set_numeric as [Hsets Hgroups].
  destruct (taken_name_outcome h grouped_set "a" "a") as (Hrename & _ & Hcreate & _).
  destruct (taken_name_outcome h grouped_set "g" "g") as (_ & Hrename_g & _ & Hcreate_g).
  split; [by apply Hrename|]. split; [by apply Hrename_g|].
  split; [apply Hcreate; [done | discriminate | done] | by apply Hcreate_g].
Defined.

(** C10, the claim as written, fails for the create operations: asked for a
    name that is taken they do not report a collision, they succeed under
    the name with the next free counter. *)
Lemma create_on_taken_name_succeeds :
  "a" ∈ dom (sets grouped_set) ∧
  "g" ∈ dom (parent_groups grouped_set) ∧
  (∃ st', create_set (cube_scene JNull) 2 grouped_set "a" = Returns (Some "a_1") st' [] ∧
          sets st' !! "a" = sets grouped_set !! "a" ∧
          sets st' !! "a_1" = Some ["pCube1"]) ∧
  (∃ st', create_parent_group 2 grouped_set "g" = Returns "g_1" st' [] ∧
          parent_groups st' !! "g" = parent_groups grouped_set !! "g" ∧
          parent_groups st' !! "g_1" = Some []).
Proof.
  split; [apply elem_of_dom; vm_compute; by eexists|].
  split; [apply elem_of_dom; vm_compute; by eexists|].
  split; eexists; (split; [by vm_compute|]); by vm_compute.
Qed.

(** ** Selection with channel filtering *)

Section ChannelFiltering.
Variable h : Host.

Lemma existing_attrs_exist (comps objects : list string) :
  forallb (objExists h) (existing_attrs h comps objects) = true.
Proof.
  apply forallb_forall. intros a Ha.
  apply in_flat_map in Ha as (obj & _ & Ha).
  by apply filter_In in Ha as [_ Ha].
Qed.

(** The attribute paths kept are the pairs of an object and a component
    whose path exists in the scene. *)
Lemma existing_attrs_spec (comps objects : list string) (a : string) :
  a ∈ existing_attrs h comps objects ↔
  ∃ obj comp, obj ∈ objects ∧ comp ∈ comps ∧ a = obj +:+ comp ∧ objExists h a = true.
Proof.
  rewrite list_elem_of_In. unfold existing_attrs. rewrite in_flat_map. split.
  - intros (obj & Hobj & Ha). apply filter_In in Ha as [Ha Hex].
    apply in_map_iff in Ha as (comp & <- & Hcomp).
    exists obj, comp. by rewrite !list_elem_of_In.
  - intros (obj & comp & Hobj & Hcomp & -> & Hex).
    exists obj. rewrite <- list_elem_of_In. split; [done|].
    apply filter_In. split; [|done].
    apply in_map_iff. exists comp. by rewrite <- list_elem_of_In.
Qed.

Lemma elem_of_flagged (b : bool) (suffix comp : string) :
  comp ∈ (if b then [suffix] else []) ↔ comp = suffix ∧ b = true.
Proof.
  destruct b.
  - rewrite list_elem_of_singleton. tauto.
  - rewrite elem_of_nil. split; [tauto | intros [_ ?]; discriminate].
Qed.

Lemma active_components_spec (c : Channels) (comp : string) :
  comp ∈ active_components c ↔ enabled c comp.
Proof.
  unfold active_components, enabled.
  by rewrite !elem_of_app, !elem_of_flagged.
Qed.

End ChannelFiltering.

(** [select_set] hands to the channel filtering the objects of the hierarchy
    that exist in the scene, and only those. *)
Lemma select_set_filters_objects (h : Host) (fuel : nat) (st : Manager) (name : string)
    (all_objects : list string) (tr : list event) :
  name ∈ dom (sets st) →
  get_all_objects_in_set_hierarchy fuel st name = Some all_objects →
  List.filter (objExists h) all_objects ≠ [] →
  forallb (objExists h) (List.filter (objExists h) all_objects) = true ∧
  (select_objects_with_channel_filtering h st (List.filter (objExists h) all_objects)
   = Returns () st tr →
   select_set h fuel st name true = Returns true st tr).
Proof.
  intros Hname Hall Hvalid. split.
  - apply forallb_forall. intros obj Hobj. by apply filter_In in Hobj as [_ Hobj].
  - intros Hselect. unfold select_set.
    rewrite (proj2 (has_key_true _ _) Hname), Hall. cbn [negb].
    destruct (List.filter (objExists h) all_objects) as [|obj valid] eqn:Hfilter; [done|].
    by rewrite Hselect.
Qed.

(** C7 (as amended): for a non-empty list of objects that exist, with all six
    flags on or all six off the whole objects are selected.  Otherwise the
    selection is made of the attribute paths object + suffix, for the objects
    given and the suffixes whose flag is on, that exist in the scene, and the
    message counts those paths and all the objects given; when no such path
    exists the whole objects stay selected and nothing is reported. *)
Theorem channel_filtering_selection (h : Host) (st : Manager) (objects : list string) :
  objects ≠ [] →
  forallb (objExists h) objects = true →
  let c := active_channels st in
  let attrs := existing_attrs h (active_components c) objects in
  select_objects_with_channel_filtering h st objects
  = Returns () st
      (if all_channels_on c || no_channel_on c then [Select objects]
       else match attrs with
            | [] => [SelectClear; Select objects]
            | _ => [SelectClear; Select objects; Select attrs;
                    InViewMessage (selected_message attrs objects)]
            end) ∧
  (∀ a, a ∈ attrs ↔
        ∃ obj comp, obj ∈ objects ∧ enabled c comp ∧ a = obj +:+ comp ∧
                    objExists h a = true).
Proof.
  intros Hne Hvalid c attrs. split.
  - unfold select_objects_with_channel_filtering, cmds_select.
    destruct objects as [|obj objects]; [done|].
    rewrite Hvalid. fold c. fold (all_channels_on c). fold (no_channel_on c).
    destruct (all_channels_on c || no_channel_on c); [done|].
    fold attrs. pose proof (existing_attrs_exist h (active_components c) (obj :: objects)) as Hex.
    fold attrs in Hex. rewrite Hex. by destruct attrs.
  - intros a. unfold attrs. rewrite existing_attrs_spec.
    by setoid_rewrite active_components_spec.
Qed.

Lemma channel_filtering_selection_witness :
  let st := with_active_channels tx_only init in
  select_objects_with_channel_filtering ab_scene st ["A"; "B"]
  = Returns () st
      [SelectClear; Select ["A"; "B"]; Select ["A.tx"];
       InViewMessage "Selected 1 channels on 2 objects"].
Proof.
  intros st.
  exact (proj1 (channel_filtering_selection ab_scene st ["A"; "B"]
                  ltac:(discriminate) ltac:(reflexivity))).
Defined.

(** C7, the claim as written, fails on its own example: with only [tx] on and
    objects [A] and [B] of which only [A] has a [tx] attribute, the selection
    is [["A.tx"]] but the message says 2 objects, not 1; and for [B] alone
    the whole object stays selected without any warning or message. *)
Lemma channel_message_counts_every_object :
  let st := with_active_channels tx_only init in
  select_objects_with_channel_filtering ab_scene st ["A"; "B"]
  = Returns () st
      [SelectClear; Select ["A"; "B"]; Select ["A.tx"];
       InViewMessage "Selected 1 channels on 2 objects"] ∧
  selected_message ["A.tx"] ["A"; "B"] ≠ "Selected 1 channels on 1 objects" ∧
  select_objects_with_channel_filtering ab_scene st ["B"]
  = Returns () st [SelectClear; Select ["B"]].
Proof.
  by vm_compute.
Qed.

(** ** Operations that fail *)

(** X21: every method other than [import_sets] that returns its failure
    value ([False], or [None] for [create_set]) has left the manager as it
    was. *)
Lemma failing_operation_keeps_state (h : Host) (fuel : nat) (st st' : Manager)
    (tr : list event) (a b : string) (o : option string) (x y z : Z) (v : json)
    (flag : bool) :
  (add_set_to_group st a b = Returns false st' tr → st' = st) ∧
  (remove_set_from_group st a o = Returns false st' tr → st' = st) ∧
  (rename_parent_group st a b = Returns false st' tr → st' = st) ∧
  (delete_parent_group st a = Returns false st' tr → st' = st) ∧
  (update_group_position st a x y = Returns false st' tr → st' = st) ∧
  (update_group_size st a x y = Returns false st' tr → st' = st) ∧
  (update_group_color st a x y z = Returns false st' tr → st' = st) ∧
  (update_group_transparency st a x = Returns false st' tr → st' = st) ∧
  (create_set h fuel st a = Returns None st' tr → st' = st) ∧
  (rename_set st a b = Returns false st' tr → st' = st) ∧
  (delete_set st a = Returns false st' tr → st' = st) ∧
  (select_set h fuel st a flag = Returns false st' tr → st' = st) ∧
  (set_parent fuel st a o = Returns false st' tr → st' = st) ∧
  (update_set_position st a x y = Returns false st' tr → st' = st) ∧
  (update_set_size st a x y = Returns false st' tr → st' = st) ∧
  (update_set_color st a x y z = Returns false st' tr → st' = st) ∧
  (update_set_transparency st a x = Returns false st' tr → st' = st) ∧
  (update_channel_state st a v = Returns false st' tr → st' = st) ∧
  (export_sets h st a = Returns false st' tr → st' = st).
Proof.
  repeat split.
  - unfold add_set_to_group. repeat case_match; congruence.
  - unfold remove_set_from_group. repeat case_match; congruence.
  - unfold rename_parent_group. repeat case_match; congruence.
  - unfold delete_parent_group. repeat case_match; congruence.
  - unfold update_group_position. repeat case_match; congruence.
  - unfold update_group_size. repeat case_match; congruence.
  - unfold update_group_color. repeat case_match; congruence.
  - unfold update_group_transparency. repeat case_match; congruence.
  - unfold create_set. repeat case_match; congruence.
  - unfold rename_set. repeat case_match; congruence.
  - unfold delete_set, remove_set_from_group. repeat case_match; congruence.
  - unfold select_set, select_objects_with_channel_filtering, filtering_failed.
    repeat case_match; congruence.
  - unfold set_parent. repeat case_match; congruence.
  - unfold update_set_position. repeat case_match; congruence.
  - unfold update_set_size. repeat case_match; congruence.
  - unfold update_set_color. repeat case_match; congruence.
  - unfold update_set_transparency. repeat case_match; congruence.
  - unfold update_channel_state. repeat case_match; congruence.
  - unfold export_sets, export_failed. repeat case_match; congruence.
Qed.

(** X22: [import_sets] returns [False] with one warning and leaves the
    manager as it was when it fails before the clearing of the registries:
    the file is missing or is not JSON, or the document is not an object
    with a ["sets"] key. *)
Lemma import_sets_early_failure_keeps_state (h : Host) (st : Manager) (path : string) :
  (∀ e, json_load h path = inl e →
        import_sets h st path
        = Returns false st [Warning ("Failed to import sets: " +:+ exn_text e)]) ∧
  (∀ doc, json_load h path = inr doc →
          (∀ data, doc = JDict data → Py.assoc "sets" data = None) →
          import_sets h st path = Returns false st [Warning "Invalid JSON format for sets."]).
Proof.
  split.
  - intros e He. unfold import_sets. by rewrite He.
  - intros doc Hdoc Hshape. unfold import_sets. rewrite Hdoc.
    destruct doc as [| | | | |data]; try done.
    by rewrite (Hshape data eq_refl).
Qed.

(** C8: [import_sets] assigns the channel flags and clears the registries
    before it reads the tables of the file.  For a file whose ["sets"] entry
    is not an object the call fails after that: it returns [False], the sets
    and parent pointers of the manager are gone and the flag is changed. *)
Theorem import_sets_failure_clears_state :
  sets a_over_b !! "a" = Some ["pCube1"] ∧
  parent_of a_over_b "b" "a" ∧
  tx (active_channels a_over_b) = JBool true ∧
  ∃ st',
    import_sets (cube_scene sets_not_a_dict_file) a_over_b "sets.json"
    = Returns false st' [Warning "Failed to import sets: AttributeError"] ∧
    sets st' = ∅ ∧
    set_parents st' = ∅ ∧
    tx (active_channels st') = JBool false ∧
    st' ≠ a_over_b.
Proof.
  split; [by vm_compute|]. split; [by vm_compute|]. split; [by vm_compute|].
  eexists. split; [by vm_compute|].
  split; [done|]. split; [done|]. split; [done|].
  intros Heq. apply (f_equal (fun st => tx (active_channels st))) in Heq.
  by vm_compute in Heq.
Qed.

(** ** The states the manager can reach *)

Lemma well_formed_init : well_formed init.
Proof.
  split; intros name x H; cbn in H; by rewrite lookup_empty in H.
Qed.

Lemma well_formed_same_hierarchy (st st' : Manager) :
  sets st' = sets st → set_parents st' = set_parents st →
  well_formed st → well_formed st'.
Proof. unfold well_formed. by intros -> ->. Qed.

(** A pointer stays good when the registry grows. *)
Lemma names_a_set_insert (registry : gmap string (list string)) (name : string)
    (objects : list string) (parent : option string) :
  names_a_set registry parent → names_a_set (<[name := objects]> registry) parent.
Proof.
  destruct parent as [p|]; [|done]. cbn. rewrite dom_insert_L.
  intros Hp. by apply elem_of_union_r.
Qed.

Lemma well_formed_new_set (st : Manager) (name : string) (objects : list string) :
  objects ≠ [] →
  well_formed st →
  well_formed (with_sets (<[name := objects]> (sets st)) st).
Proof.
  intros Hne [Hnonempty Hpointers]. split; read_fields.
  - intros k objs Hk. apply lookup_insert_Some in Hk as [[_ <-]|[_ Hk]]; [done|].
    by eapply Hnonempty.
  - intros k parent Hk. destruct (Hpointers k parent Hk) as [Hin Hparent].
    rewrite dom_insert_L. split; [by apply elem_of_union_r|].
    destruct Hparent as [Hparent|Hparent]; [left | by right].
    by apply names_a_set_insert.
Qed.

Lemma well_formed_new_pointer (st : Manager) (name : string) (parent : option string) :
  name ∈ dom (sets st) →
  names_a_set (sets st) parent ∨ parent = Some "" →
  well_formed st →
  well_formed (with_set_parents (<[name := parent]> (set_parents st)) st).
Proof.
  intros Hname Hparent [Hnonempty Hpointers]. split; read_fields; [done|].
  intros k q Hk. apply lookup_insert_Some in Hk as [[<- <-]|[_ Hk]]; [done|].
  by apply Hpointers.
Qed.

Lemma create_set_well_formed (h : Host) (fuel : nat) (st st' : Manager)
    (name : string) :
  well_formed st →
  left_by (create_set h fuel st name) = Some st' →
  well_formed st'.
Proof.
  intros Hwf. unfold create_set.
  destruct (selection h) as [|obj objs] eqn:Hsel; [by intros [= <-]|].
  destruct (unique_name _ _ _ _ _) as [set_name|]; [|done].
  pose proof (well_formed_new_set st set_name (obj :: objs) ltac:(done) Hwf) as Hwf1.
  match goal with |- context [match ?p with inl _ => _ | inr _ => _ end] =>
    destruct p as [e|pos] end; [by intros [= <-]|].
  intros [= <-]. destruct Hwf1 as [Hnonempty Hpointers].
  split; read_fields; [done|].
  intros k parent Hk. apply lookup_insert_Some in Hk as [[<- <-]|[_ Hk]].
  - split; [|by left]. rewrite dom_insert_L. apply elem_of_union_l.
    by apply elem_of_singleton.
  - by apply Hpointers.
Qed.

Lemma set_parent_well_formed (fuel : nat) (st st' : Manager) (child : string)
    (parent_name : option string) :
  well_formed st →
  left_by (set_parent fuel st child parent_name) = Some st' →
  well_formed st'.
Proof.
  intros Hwf. unfold set_parent.
  destruct (has_key (sets st) child) eqn:Hchild; cbn [negb]; [|by intros [= <-]].
  destruct (Py.name_truthy parent_name && negb (has_key (sets st) (name_of parent_name)))
    eqn:Hparent; [by intros [= <-]|].
  match goal with |- context [match ?c with Some _ => _ | None => _ end] =>
    destruct c as [[|]|] end; [by intros [= <-] | | done].
  intros [= <-]. apply has_key_true in Hchild.
  apply well_formed_new_pointer; [done | | done].
  destruct parent_name as [p|]; [|by left].
  destruct (String.eqb_spec p "") as [->|Hnamed]; [by right|]. left.
  apply (name_truthy_Some p) in Hnamed. rewrite Hnamed in Hparent. cbn in Hparent.
  apply has_key_true. by destruct (has_key (sets st) p).
Qed.

Lemma delete_set_well_formed (st st' : Manager) (name : string) :
  well_formed st → left_by (delete_set st name) = Some st' → well_formed st'.
Proof.
  intros [Hnonempty Hpointers] Hrun.
  destruct (decide (name ∈ dom (sets st))) as [Hin|Hout].
  - destruct (delete_set_orphans_children st name Hin)
      as (st1 & Hrun1 & Hsets & _ & _ & _ & _ & Hparents & _).
    rewrite Hrun1 in Hrun. injection Hrun as <-.
    split; [rewrite Hsets | rewrite Hsets, Hparents].
    + intros k objects Hk. apply lookup_delete_Some in Hk as [_ Hk]. by eapply Hnonempty.
    + intros k parent. rewrite lookup_repoint.
      destruct (decide (k = name)) as [->|Hne]; [by rewrite lookup_delete_eq|].
      rewrite lookup_delete_ne by done.
      destruct (set_parents st !! k) as [q|] eqn:Hq; [|done].
      cbn. intros [= <-]. destruct (Hpointers k q Hq) as [Hk Hparent].
      rewrite dom_delete_L. split;
        [apply elem_of_difference; split; [done | by rewrite elem_of_singleton]|].
      case_decide as Hcase; [by left|].
      destruct Hparent as [Hparent|Hparent]; [left | by right].
      destruct q as [p|]; [|done]. cbn in *. rewrite dom_delete_L.
      apply elem_of_difference. split; [done|].
      rewrite elem_of_singleton. congruence.
  - unfold delete_set in Hrun. rewrite (proj2 (has_key_false _ _) Hout) in Hrun.
    injection Hrun as <-. by split.
Qed.

Lemma rename_set_well_formed (st st' : Manager) (old_name new_name : string) :
  well_formed st →
  left_by (rename_set st old_name new_name) = Some st' →
  well_formed st'.
Proof.
  intros [Hnonempty Hpointers]. unfold rename_set.
  destruct (sets st !! old_name) as [objects|] eqn:Hold; [|by intros [= <-]].
  destruct (has_key (sets st) new_name) eqn:Hnew; [by intros [= <-]|].
  assert (old_name ≠ new_name) as Hne.
  { intros ->. unfold has_key in Hnew. by rewrite Hold in Hnew. }
  intros [= <-]. split; read_fields.
  - intros k objs Hk. apply lookup_delete_Some in Hk as [_ Hk].
    apply lookup_insert_Some in Hk as [[_ <-]|[_ Hk]]; by eapply Hnonempty.
  - assert (∀ k, k ≠ old_name → (k = new_name ∨ k ∈ dom (sets st)) →
                 k ∈ dom (delete old_name (<[new_name := objects]> (sets st)))) as Hdom.
    { intros k Hk Hcase. rewrite dom_delete_L, dom_insert_L.
      apply elem_of_difference. split; [|by rewrite elem_of_singleton].
      destruct Hcase as [->|Hin]; [apply elem_of_union_l; by apply elem_of_singleton|].
      by apply elem_of_union_r. }
    intros k parent. rewrite lookup_repoint. unfold move_key.
    intros Hk.
    assert (k ≠ old_name ∧ ∃ k0 q, set_parents st !! k0 = Some q ∧
              (k = new_name ∨ k = k0) ∧
              parent = (if decide (q = Some old_name) then Some new_name else q))
      as (Hk_old & k0 & q & Hq & Hk0 & ->).
    { destruct (set_parents st !! old_name) as [v|] eqn:Hv.
      - destruct (decide (k = old_name)) as [->|Hk_old];
          [by rewrite lookup_delete_eq in Hk|].
        rewrite lookup_delete_ne in Hk by done. split; [done|].
        destruct (decide (k = new_name)) as [->|Hk_new].
        + rewrite lookup_insert_eq in Hk. cbn in Hk. injection Hk as <-.
          exists old_name, v. split; [done|]. split; [by left | done].
        + rewrite lookup_insert_ne in Hk by done.
          destruct (set_parents st !! k) as [q|] eqn:Hq; [|done].
          cbn in Hk. injection Hk as <-. exists k, q. split; [done|]. split; [by right | done].
      - destruct (set_parents st !! k) as [q|] eqn:Hq; [|done].
        cbn in Hk. injection Hk as <-.
        split; [intros ->; congruence|].
        exists k, q. split; [done|]. split; [by right | done]. }
    destruct (Hpointers k0 q Hq) as [Hk0_in Hparent]. split.
    + apply Hdom; [done|]. destruct Hk0 as [->| ->]; [by left | by right].
    + case_decide as Hcase; [left; apply Hdom; [done | by left]|].
      destruct Hparent as [Hparent|Hparent]; [left | by right].
      destruct q as [p|]; [|done]. apply Hdom; [congruence | by right].
Qed.

Section ImportInvariant.
Variable P : Manager → Prop.

Lemma skip_preserves : preserves P skip.
Proof. by intros st e st' HP [= _ <-]. Qed.

Lemma assign_preserves (f : Manager → Manager) :
  (∀ st, P st → P (f st)) → preserves P (assign f).
Proof. intros Hf st e st' HP [= _ <-]. by apply Hf. Qed.

Lemma seq_preserves (p q : proc) :
  preserves P p → preserves P q → preserves P (seq p q).
Proof.
  intros Hp Hq st e st' HP. unfold seq.
  destruct (p st) as [[e1|] st1] eqn:Hrun.
  - intros [= <- <-]. by eapply Hp.
  - intros Hrun'. eapply Hq; [|exact Hrun']. by eapply Hp.
Qed.

Lemma eval_preserves {A} (x : exn + A) (k : A → proc) :
  (∀ a, preserves P (k a)) → preserves P (eval x k).
Proof.
  intros Hk st e st' HP. unfold eval. destruct x as [e1|a].
  - by intros [= _ <-].
  - by apply Hk.
Qed.

Lemma for_each_preserves {A} (body : A → proc) (l : list A) :
  (∀ a, preserves P (body a)) → preserves P (for_each body l).
Proof.
  intros Hbody. induction l as [|a l IH]; cbn.
  - apply skip_preserves.
  - by apply seq_preserves.
Qed.

Lemma import_property_preserves (table : json) (name : string)
    (default : Manager → json) (store : json → Manager → Manager) :
  (∀ v st, P st → P (store v st)) →
  preserves P (import_property table name default store).
Proof.
  intros Hstore. unfold import_property. apply eval_preserves. intros [|].
  - apply eval_preserves. intros v. apply assign_preserves, Hstore.
  - intros st e st' HP [= _ <-]. by apply Hstore.
Qed.

End ImportInvariant.

Lemma import_set_well_formed (h : Host) (positions colors sizes transparency : json)
    (item : string * json) :
  preserves well_formed (import_set h positions colors sizes transparency item).
Proof.
  unfold import_set. apply eval_preserves. intros objects.
  apply eval_preserves. intros [|obj valid]; [apply skip_preserves|].
  repeat apply seq_preserves;
    try (apply import_property_preserves; intros v st;
         by apply well_formed_same_hierarchy).
  apply assign_preserves. intros st. by apply well_formed_new_set.
Qed.

Lemma import_parent_well_formed (item : string * json) :
  preserves well_formed (import_parent item).
Proof.
  intros st e st' Hwf. unfold import_parent.
  destruct (has_key (sets st) item.1) eqn:Hname; [|by intros [= _ <-]].
  apply has_key_true in Hname.
  destruct item.2 as [| | |p| |] eqn:Hitem; cbn; try by intros [= _ <-].
  - intros [= _ <-]. apply well_formed_new_pointer; [done | by left | done].
  - destruct (has_key (sets st) p) eqn:Hp; intros [= _ <-]; [|done].
    apply well_formed_new_pointer; [done | | done]. left. by apply has_key_true.
Qed.

Lemma import_group_well_formed (positions colors sizes transparency : json)
    (item : string * json) :
  preserves well_formed (import_group positions colors sizes transparency item).
Proof.
  unfold import_group. apply eval_preserves. intros members st.
  refine (eval_preserves well_formed (valid_sets st members) _ _ st). intros valid.
  repeat apply seq_preserves;
    try (apply import_property_preserves; intros v st0;
         by apply well_formed_same_hierarchy).
  apply assign_preserves. intros st0. by apply well_formed_same_hierarchy.
Qed.

Lemma import_background_keeps_sets (h : Host) (data : list (string * json))
    (path : string) (st : Manager) :
  sets (import_background h data path st).1 = sets st ∧
  set_parents (import_background h data path st).1 = set_parents st.
Proof.
  unfold import_background.
  destruct (Py.get "background_image" JNull data) as [| | | | |[|item d]]; try done.
  by destruct (restore_image h _ path).
Qed.

(** Whatever the file holds, the manager that [import_sets] leaves is a
    state of the data model when the manager before was one. *)
Lemma import_sets_well_formed (h : Host) (st st' : Manager) (path : string) :
  well_formed st →
  left_by (import_sets h st path) = Some st' →
  well_formed st'.
Proof.
  intros Hwf. unfold import_sets, import_failed.
  destruct (json_load h path) as [e|[| | | | |data]]; try by intros [= <-].
  destruct (Py.assoc "sets" data); [|by intros [= <-]].
  assert (preserves well_formed (import_registries h data)) as Hloops.
  { unfold import_registries. repeat apply seq_preserves.
    - unfold import_channels. destruct (Py.truthy _); [|apply skip_preserves].
      apply eval_preserves. intros items. apply for_each_preserves. intros item.
      apply assign_preserves. intros st0. destruct (assign_channel _ _ _); [|done].
      by apply well_formed_same_hierarchy.
    - intros st0 e st1 _ [= _ <-]. split; intros k x Hk; cbn in Hk;
        by rewrite lookup_empty in Hk.
    - apply eval_preserves. intros items. apply for_each_preserves.
      apply import_set_well_formed.
    - apply eval_preserves. intros items. apply for_each_preserves.
      apply import_parent_well_formed.
    - apply eval_preserves. intros items. apply for_each_preserves.
      apply import_group_well_formed. }
  destruct (import_registries h data st) as [[e|] st1] eqn:Hrun.
  - intros [= <-]. by eapply Hloops.
  - pose proof (import_background_keeps_sets h data path st1) as [Hsets Hparents].
    destruct (import_background h data path st1) as [st2 tr2].
    intros [= <-]. apply (well_formed_same_hierarchy st1); [done | done |].
    by eapply Hloops.
Qed.

(** The calls that leave the sets and the parent pointers alone. *)
Ltac same_hierarchy H IH :=
  repeat (case_match; try discriminate);
  cbn [left_by] in *; simplify_eq;
  exact (well_formed_same_hierarchy _ _ eq_refl eq_refl IH).

(** Every state the manager can reach is a state of the data model. *)
Lemma reachable_well_formed (st : Manager) : reachable st → well_formed st.
Proof.
  induction 1 as [|c st st' _ IH Hcall]; [apply well_formed_init|].
  destruct c; cbn [perform] in Hcall.
  - unfold create_parent_group in Hcall. same_hierarchy Hcall IH.
  - unfold add_set_to_group in Hcall. same_hierarchy Hcall IH.
  - unfold remove_set_from_group in Hcall. same_hierarchy Hcall IH.
  - unfold rename_parent_group in Hcall. same_hierarchy Hcall IH.
  - unfold delete_parent_group in Hcall. same_hierarchy Hcall IH.
  - unfold update_group_position in Hcall. same_hierarchy Hcall IH.
  - unfold update_group_size in Hcall. same_hierarchy Hcall IH.
  - unfold update_group_color in Hcall. same_hierarchy Hcall IH.
  - unfold update_group_transparency in Hcall. same_hierarchy Hcall IH.
  - by eapply create_set_well_formed.
  - by eapply rename_set_well_formed.
  - by eapply delete_set_well_formed.
  - unfold select_set, select_objects_with_channel_filtering, filtering_failed in Hcall.
    same_hierarchy Hcall IH.
  - unfold select_objects_with_channel_filtering, filtering_failed in Hcall.
    same_hierarchy Hcall IH.
  - by eapply set_parent_well_formed.
  - unfold update_set_position in Hcall. same_hierarchy Hcall IH.
  - unfold update_set_size in Hcall. same_hierarchy Hcall IH.
  - unfold update_set_color in Hcall. same_hierarchy Hcall IH.
  - unfold update_set_transparency in Hcall. same_hierarchy Hcall IH.
  - unfold update_channel_state in Hcall. same_hierarchy Hcall IH.
  - unfold set_background_image in Hcall. same_hierarchy Hcall IH.
  - unfold export_sets, export_failed in Hcall. same_hierarchy Hcall IH.
  - by eapply import_sets_well_formed.
Qed.

(** ** Export followed by import *)

Lemma insert_all_union {V} (items : list (string * V)) (d : gmap string V) :
  NoDup items.*1 → insert_all items d = list_to_map items ∪ d.
Proof.
  unfold insert_all. revert d.
  induction items as [|[k v] items IH]; intros d Hnodup.
  - cbn. by rewrite (left_id_L ∅ (∪)).
  - rewrite fmap_cons in Hnodup. apply NoDup_cons in Hnodup as [Hk Hnodup].
    cbn [foldl]. rewrite IH by done.
    rewrite list_to_map_cons, <- insert_union_l.
    symmetry. apply insert_union_r.
    by apply not_elem_of_list_to_map_1.
Qed.

Lemma insert_all_map_to_list {V} (m : gmap string V) :
  insert_all (map_to_list m) ∅ = m.
Proof.
  rewrite insert_all_union by apply NoDup_fst_map_to_list.
  by rewrite list_to_map_to_list, (right_id_L ∅ (∪)).
Qed.

Lemma assoc_list_to_map (items : list (string * json)) (k : string) :
  Py.assoc k items = (list_to_map items : gmap string json) !! k.
Proof.
  induction items as [|[k' v] items IH]; cbn; [by rewrite lookup_empty|].
  destruct (String.eqb_spec k' k) as [->|Hne].
  - by rewrite lookup_insert_eq.
  - by rewrite lookup_insert_ne.
Qed.

Lemma assoc_map_to_list (m : gmap string json) (k : string) :
  Py.assoc k (map_to_list m) = m !! k.
Proof. by rewrite assoc_list_to_map, list_to_map_to_list. Qed.

Section RoundTrip.
Variable h : Host.

(** A table that is a JSON object never makes the lookup raise. *)
Lemma import_property_dict (d : list (string * json)) (name : string)
    (default : Manager → json) (store : json → Manager → Manager) (acc : Manager) :
  ∃ v, import_property (JDict d) name default store acc = (None, store v acc).
Proof.
  unfold import_property, eval, assign. cbn.
  destruct (Py.assoc name d); eauto.
Qed.

Lemma valid_objects_all (objects : list string) :
  (∀ obj, obj ∈ objects → objExists h obj = true) →
  valid_objects h (JStr <$> objects) = inr objects.
Proof.
  induction objects as [|obj objects IH]; intros Hall; [done|].
  cbn. rewrite IH.
  - cbn. rewrite Hall; [done | by left].
  - intros o Ho. apply Hall. by right.
Qed.

Lemma import_set_stores (positions colors sizes transparency : list (string * json))
    (name : string) (objects : list string) (acc : Manager) :
  objects ≠ [] →
  (∀ obj, obj ∈ objects → objExists h obj = true) →
  ∃ acc',
    import_set h (JDict positions) (JDict colors) (JDict sizes) (JDict transparency)
      (name, JList (JStr <$> objects)) acc = (None, acc') ∧
    sets acc' = <[name := objects]> (sets acc) ∧
    set_parents acc' = set_parents acc.
Proof.
  intros Hne Hall. unfold import_set, eval. cbn [Py.iter fst snd].
  rewrite valid_objects_all by done.
  destruct objects as [|obj objects]; [done|].
  unfold seq at 1. unfold assign at 1.
  repeat match goal with
  | |- context [import_property (JDict ?d) ?n ?df ?s ?a] =>
      destruct (import_property_dict d n df s a) as [? ->]
  | |- context [seq _ _ _] => unfold seq at 1
  end.
  eexists. split; [reflexivity|]. done.
Qed.

End RoundTrip.

Section RoundTripLoops.
Variable h : Host.

Lemma import_set_loop (positions colors sizes transparency : list (string * json))
    (items : list (string * list string)) :
  (∀ name objects, (name, objects) ∈ items →
     objects ≠ [] ∧ ∀ obj, obj ∈ objects → objExists h obj = true) →
  ∀ acc, ∃ acc',
    for_each (import_set h (JDict positions) (JDict colors) (JDict sizes)
                (JDict transparency))
      ((fun kv => (kv.1, JList (JStr <$> kv.2))) <$> items) acc = (None, acc') ∧
    sets acc' = insert_all items (sets acc) ∧
    set_parents acc' = set_parents acc.
Proof.
  induction items as [|[name objects] items IH]; intros Hitems acc.
  - exists acc. by cbn.
  - destruct (Hitems name objects) as [Hne Hall]; [by left|].
    destruct (import_set_stores h positions colors sizes transparency name objects acc
                Hne Hall) as (acc1 & Hstep & Hsets & Hparents).
    destruct (IH (fun n o Hin => Hitems n o (list_elem_of_further _ _ _ Hin)) acc1)
      as (acc' & Hloop & Hsets' & Hparents').
    exists acc'. rewrite fmap_cons. cbn [for_each fst snd]. unfold seq.
    rewrite Hstep, Hloop. split; [done|].
    rewrite Hsets', Hparents', Hsets, Hparents. by cbn.
Qed.

Lemma import_parent_stores (name : string) (parent : option string) (acc : Manager) :
  name ∈ dom (sets acc) →
  import_parent (name, dump_parent parent) acc
  = (None, if decide (names_a_set (sets acc) parent)
           then with_set_parents (<[name := parent]> (set_parents acc)) acc
           else acc).
Proof.
  intros Hname. unfold import_parent. cbn [fst snd].
  rewrite (proj2 (has_key_true _ _) Hname).
  destruct parent as [p|]; [|done]. cbn.
  destruct (has_key (sets acc) p) eqn:Hp.
  - apply has_key_true in Hp. by rewrite decide_True.
  - apply has_key_false in Hp. by rewrite decide_False.
Qed.

(** The loop over the parents of the file stores the pointers that are null
    or name a set, and passes over the others. *)
Lemma import_parent_loop (items : list (string * option string)) :
  ∀ acc,
    NoDup items.*1 →
    (∀ name parent, (name, parent) ∈ items → name ∈ dom (sets acc)) →
    ∃ acc',
      for_each import_parent ((fun kv => (kv.1, dump_parent kv.2)) <$> items) acc
      = (None, acc') ∧
      sets acc' = sets acc ∧
      ∀ name,
        set_parents acc' !! name
        = match resolved (sets acc) ((list_to_map items : gmap _ _) !! name) with
          | Some parent => Some parent
          | None => set_parents acc !! name
          end.
Proof.
  induction items as [|[n p] items IH]; intros acc Hnodup Hitems.
  - exists acc. split; [done|]. split; [done|]. intros name. by rewrite list_to_map_nil, lookup_empty.
  - rewrite fmap_cons in Hnodup. apply NoDup_cons in Hnodup as [Hfresh Hnodup].
    assert (n ∈ dom (sets acc)) as Hn by (eapply Hitems; by left).
    pose proof (import_parent_stores n p acc Hn) as Hstep.
    set (acc1 := if decide (names_a_set (sets acc) p)
                 then with_set_parents (<[n := p]> (set_parents acc)) acc
                 else acc) in Hstep.
    assert (sets acc1 = sets acc) as Hsets1 by (unfold acc1; by case_decide).
    destruct (IH acc1 Hnodup) as (acc' & Hloop & Hsets' & Hlookup).
    { intros name parent Hin. rewrite Hsets1. eapply Hitems. by right. }
    exists acc'. rewrite fmap_cons. cbn [for_each fst snd]. unfold seq.
    rewrite Hstep, Hloop. split; [done|]. split; [by rewrite Hsets'|].
    intros name. rewrite Hlookup, Hsets1, list_to_map_cons. cbn [fst snd].
    destruct (decide (name = n)) as [->|Hne].
    + rewrite lookup_insert_eq, (not_elem_of_list_to_map_1 _ _ Hfresh). cbn.
      unfold acc1. case_decide; [apply lookup_insert_eq | done].
    + rewrite lookup_insert_ne by done.
      destruct (resolved (sets acc) (list_to_map items !! name)); [done|].
      unfold acc1. case_decide; [apply lookup_insert_ne; congruence | done].
Qed.

Lemma valid_sets_of_names (acc : Manager) (members : list string) :
  ∃ valid, valid_sets acc (JStr <$> members) = inr valid.
Proof.
  induction members as [|m members [valid IH]]; [by exists []|].
  cbn. rewrite IH. cbn. eauto.
Qed.

Lemma import_group_keeps_sets (positions colors sizes transparency : list (string * json))
    (name : string) (members : list string) (acc : Manager) :
  ∃ acc',
    import_group (JDict positions) (JDict colors) (JDict sizes) (JDict transparency)
      (name, JList (JStr <$> members)) acc = (None, acc') ∧
    sets acc' = sets acc ∧
    set_parents acc' = set_parents acc.
Proof.
  unfold import_group, eval. cbn [Py.iter fst snd].
  destruct (valid_sets_of_names acc members) as [valid ->].
  unfold seq at 1. unfold assign at 1.
  repeat match goal with
  | |- context [import_property (JDict ?d) ?n ?df ?s ?a] =>
      destruct (import_property_dict d n df s a) as [? ->]
  | |- context [seq _ _ _] => unfold seq at 1
  end.
  eexists. split; [reflexivity|]. done.
Qed.

Lemma import_group_loop (positions colors sizes transparency : list (string * json))
    (items : list (string * list string)) :
  ∀ acc, ∃ acc',
    for_each (import_group (JDict positions) (JDict colors) (JDict sizes)
                (JDict transparency))
      ((fun kv => (kv.1, JList (JStr <$> kv.2))) <$> items) acc = (None, acc') ∧
    sets acc' = sets acc ∧
    set_parents acc' = set_parents acc.
Proof.
  induction items as [|[name members] items IH]; intros acc.
  - exists acc. by cbn.
  - destruct (import_group_keeps_sets positions colors sizes transparency name members acc)
      as (acc1 & Hstep & Hsets & Hparents).
    destruct (IH acc1) as (acc' & Hloop & Hsets' & Hparents').
    exists acc'. rewrite fmap_cons. cbn [for_each fst snd]. unfold seq.
    rewrite Hstep, Hloop. by rewrite Hsets', Hparents'.
Qed.

Lemma import_channels_dumped (c : Channels) (acc : Manager) :
  import_channels (dump_channels c) acc = (None, with_active_channels c acc).
Proof. by destruct c. Qed.

End RoundTripLoops.

Lemma export_sets_written (h : Host) (st st1 : Manager) (path : string)
    (tr : list event) :
  export_sets h st path = Returns true st1 tr →
  st1 = st ∧ ∃ image, tr = [FileWritten path (export_data st image)].
Proof.
  unfold export_sets, export_failed.
  destruct (export_image h st) as [e|image]; [discriminate|].
  destruct (writable h path); [|discriminate].
  intros [= <- <-]. eauto.
Qed.

(** The three loops of the import, run on what the export wrote. *)
Lemma import_registries_of_export (h : Host) (st st0 : Manager) (image : json) :
  well_formed st →
  scene_has_objects h st →
  ∃ st',
    import_registries h (export_items st image) st0 = (None, st') ∧
    sets st' = sets st ∧
    ∀ name, set_parents st' !! name = resolved (sets st) (set_parents st !! name).
Proof.
  intros [Hnonempty Hpointers] Hscene.
  unfold import_registries, export_items.
  cbn [Py.get Py.assoc String.eqb Ascii.eqb Bool.eqb andb].
  unfold seq at 1. rewrite import_channels_dumped.
  unfold seq at 1. unfold assign at 1.
  set (cleared := clear_registries _).
  unfold dump_lists, dump_values, dump_parents, eval. cbn [Py.items].
  destruct (import_set_loop h (map_to_list (set_positions st)) (map_to_list (set_colors st))
              (map_to_list (set_sizes st)) (map_to_list (set_transparency st))
              (map_to_list (sets st))) with (acc := cleared)
    as (st1 & Hloop1 & Hsets1 & Hparents1).
  { intros name objects Hin. apply elem_of_map_to_list in Hin. split.
    - by eapply Hnonempty.
    - intros obj Hobj. by eapply Hscene. }
  unfold seq at 1. rewrite Hloop1.
  assert (sets st1 = sets st) as Hsets.
  { rewrite Hsets1. apply insert_all_map_to_list. }
  destruct (import_parent_loop (map_to_list (set_parents st)) st1)
    as (st2 & Hloop2 & Hsets2 & Hparents2).
  { apply NoDup_fst_map_to_list. }
  { intros name parent Hin. apply elem_of_map_to_list in Hin.
    rewrite Hsets. by destruct (Hpointers name parent Hin). }
  unfold seq at 1. rewrite Hloop2.
  destruct (import_group_loop (map_to_list (group_positions st))
              (map_to_list (group_colors st)) (map_to_list (group_sizes st))
              (map_to_list (group_transparency st)) (map_to_list (parent_groups st)) st2)
    as (st3 & Hloop3 & Hsets3 & Hparents3).
  exists st3. split; [exact Hloop3|]. split.
  - by rewrite Hsets3, Hsets2.
  - intros name. rewrite Hparents3, Hparents2, Hsets, list_to_map_to_list, Hparents1.
    destruct (resolved (sets st) (set_parents st !! name)); [done|].
    apply lookup_empty.
Qed.

(** C4 (as amended): for every state the manager can reach, in a scene
    where every recorded object exists, when [export_sets] has written the
    file, [import_sets] of that file, into any manager, returns [True] and
    gives the same sets with the same membership lists.  Every parent
    pointer that is null or names a set is stored as it was and no other
    pointer appears; a pointer that is the empty string, when no set has
    the empty name, is not stored again, and the set is left without a
    parent entry.  When every stored pointer is null or names a set, the
    parent pointers are the same; in every case each set has the parent it
    had as the manager reads it. *)
Theorem export_import_round_trip (h : Host) (st st0 : Manager) (path : string)
    (tr : list event) :
  reachable st →
  scene_has_objects h st →
  export_sets h st path = Returns true st tr →
  ∃ st' tr',
    import_sets (host_after h tr) st0 path = Returns true st' tr' ∧
    sets st' = sets st ∧
    (∀ name parent,
       set_parents st !! name = Some parent → names_a_set (sets st) parent →
       set_parents st' !! name = Some parent) ∧
    (∀ name parent,
       set_parents st' !! name = Some parent → set_parents st !! name = Some parent) ∧
    (∀ name parent,
       set_parents st !! name = Some parent → ¬ names_a_set (sets st) parent →
       parent = Some "" ∧ set_parents st' !! name = None) ∧
    ((∀ name parent,
        set_parents st !! name = Some parent → names_a_set (sets st) parent) →
     set_parents st' = set_parents st) ∧
    (∀ name, parent_as_read st' name = parent_as_read st name).
Proof.
  intros Hreach Hscene Hexport.
  pose proof (reachable_well_formed st Hreach) as Hwf.
  apply export_sets_written in Hexport as [_ [image ->]].
  set (h' := host_after h _).
  assert (scene_has_objects h' st) as Hscene' by exact Hscene.
  destruct (import_registries_of_export h' st st0 image Hwf Hscene')
    as (st2 & Hrun & Hsets & Hparents).
  unfold import_sets, json_load.
  replace (files h' !! path) with (Some (Document (export_data st image)))
    by (symmetry; apply lookup_insert_eq).
  unfold export_data. cbn [Py.assoc export_items String.eqb Ascii.eqb Bool.eqb andb].
  fold (export_items st image). rewrite Hrun.
  destruct (import_background_keeps_sets h' (export_items st image) path st2)
    as [Hsets' Hparents'].
  destruct (import_background h' (export_items st image) path st2) as [st3 tr3].
  cbn [fst] in Hsets', Hparents'.
  exists st3, tr3. split; [done|]. split; [by rewrite Hsets'|].
  assert (∀ name, set_parents st3 !! name = resolved (sets st) (set_parents st !! name))
    as Hlookup by (intros name; by rewrite Hparents').
  destruct Hwf as [_ Hpointers].
  split; [|split; [|split; [|split]]].
  - intros name parent Hname Hgood. rewrite Hlookup, Hname. cbn. by rewrite decide_True.
  - intros name parent. rewrite Hlookup.
    destruct (set_parents st !! name) as [q|]; [|done]. cbn. by case_decide.
  - intros name parent Hname Hbad. split.
    + by destruct (Hpointers name parent Hname) as [_ [Hgood| ->]].
    + rewrite Hlookup, Hname. cbn. by rewrite decide_False.
  - intros Hgood. apply map_eq. intros name. rewrite Hlookup.
    destruct (set_parents st !! name) as [q|] eqn:Hq; [|done]. cbn.
    rewrite decide_True; [done | by eapply Hgood].
  - intros name. unfold parent_as_read, parents_get. rewrite Hlookup.
    destruct (set_parents st !! name) as [q|] eqn:Hq; [|done]. cbn.
    case_decide as Hgood; [done|].
    destruct (Hpointers name q Hq) as [_ [Hq'| ->]]; done.
Qed.

Lemma a_over_b_reachable : reachable a_over_b.
Proof.
  set (h := cube_scene JNull).
  set (st1 := state_after (create_set h 2 init "a")).
  set (st2 := state_after (create_set h 2 st1 "b")).
  apply (reachable_step (SetParent 2 "b" (Some "a")) st2); [|by vm_compute].
  apply (reachable_step (CreateSet h 2 "b") st1); [|by vm_compute].
  apply (reachable_step (CreateSet h 2 "a") init); [|by vm_compute].
  apply reachable_init.
Qed.

Lemma cube_scene_has_objects (doc : json) : scene_has_objects (cube_scene doc) a_over_b.
Proof.
  intros name objects obj H Hobj.
  each_item H; injection H as -> ->;
    apply list_elem_of_singleton in Hobj as ->; reflexivity.
Qed.

Lemma export_import_round_trip_witness :
  ∃ st' tr',
    import_sets (host_after (cube_scene JNull)
                   [FileWritten "out.json" (export_data a_over_b JNull)])
      init "out.json"
    = Returns true st' tr' ∧
    sets st' = sets a_over_b ∧
    set_parents st' = set_parents a_over_b ∧
    (∀ name, parent_as_read st' name = parent_as_read a_over_b name).
Proof.
  destruct (export_import_round_trip (cube_scene JNull) a_over_b init "out.json"
              [FileWritten "out.json" (export_data a_over_b JNull)])
    as (st' & tr' & Hrun & Hsets & _ & _ & _ & Hsame & Hread).
  - exact a_over_b_reachable.
  - exact (cube_scene_has_objects JNull).
  - reflexivity.
  - exists st', tr'. split; [exact Hrun|]. split; [exact Hsets|]. split; [|exact Hread].
    apply Hsame. intros name parent H.
    each_item H; injection H as -> ->; cbn;
      first [done | apply elem_of_dom; vm_compute; by eexists].
Defined.

(** C4, the claim as written, fails for a parent pointer that is the empty
    string: after [create_set("a")] and [set_parent("a", "")] the manager
    holds the entry ["a": ""]; the export writes it, the import finds no set
    of that name and drops it, and the parent pointers are not the ones
    exported. *)
Lemma export_import_drops_empty_pointer :
  reachable a_below_empty_name ∧
  scene_has_objects (cube_scene JNull) a_below_empty_name ∧
  set_parents a_below_empty_name = {[ "a" := Some "" ]} ∧
  export_sets (cube_scene JNull) a_below_empty_name "out.json"
  = Returns true a_below_empty_name
      [FileWritten "out.json" (export_data a_below_empty_name JNull)] ∧
  ∃ st',
    import_sets (host_after (cube_scene JNull)
                   [FileWritten "out.json" (export_data a_below_empty_name JNull)])
      init "out.json"
    = Returns true st' [] ∧
    sets st' = sets a_below_empty_name ∧
    set_parents st' = ∅ ∧
    set_parents st' ≠ set_parents a_below_empty_name.
Proof.
  split.
  { set (st1 := state_after (create_set (cube_scene JNull) 1 init "a")).
    apply (reachable_step (SetParent 1 "a" (Some "")) st1); [|by vm_compute].
    apply (reachable_step (CreateSet (cube_scene JNull) 1 "a") init); [|by vm_compute].
    apply reachable_init. }
  split.
  { intros name objects obj H Hobj.
    each_item H; injection H as -> ->;
      apply list_elem_of_singleton in Hobj as ->; reflexivity. }
  split; [by vm_compute|]. split; [by vm_compute|].
  eexists. split; [by vm_compute|]. split; [by vm_compute|]. split; [by vm_compute|].
  intros Heq. assert (set_parents a_below_empty_name !! "a" = None) as Hnone.
  { rewrite <- Heq. by vm_compute. }
  by vm_compute in Hnone.
Qed.

(** * Further properties of the manager *)

(** ** Parent groups as containers *)

Lemma remove_first_other (x y : string) (l : list string) :
  y ≠ x → y ∈ l → y ∈ Py.remove_first x l.
Proof.
  intros Hne. induction l as [|z l IH]; cbn; [done|].
  rewrite elem_of_cons. intros [->|Hin].
  - destruct (String.eqb_spec z x); [done | by left].
  - destruct (String.eqb z x); [done | right; by apply IH].
Qed.

Lemma family_in_group_reachable : reachable family_in_group.
Proof.
  set (st1 := state_after (create_parent_group 2 a_over_b "g")).
  apply (reachable_step (AddSetToGroup "a" "g") st1); [|by vm_compute].
  apply (reachable_step (CreateParentGroup 2 "g") a_over_b); [|by vm_compute].
  exact a_over_b_reachable.
Qed.

(** X1: for an existing parent group and a name no group uses,
    [rename_parent_group] returns [True]: the membership list and the
    position, color, size and transparency of the old name are found under
    the new name, the old name is gone from the five registries of the
    groups, every other group keeps its list, and the sets and their parent
    pointers are untouched. *)
Theorem rename_parent_group_moves_bundle (st : Manager) (old_name new_name : string) :
  old_name ∈ dom (parent_groups st) →
  new_name ∉ dom (parent_groups st) →
  ∃ st',
    rename_parent_group st old_name new_name = Returns true st' [] ∧
    parent_groups st' !! new_name = parent_groups st !! old_name ∧
    (∀ v, group_positions st !! old_name = Some v →
          group_positions st' !! new_name = Some v) ∧
    (∀ v, group_colors st !! old_name = Some v → group_colors st' !! new_name = Some v) ∧
    (∀ v, group_sizes st !! old_name = Some v → group_sizes st' !! new_name = Some v) ∧
    (∀ v, group_transparency st !! old_name = Some v →
          group_transparency st' !! new_name = Some v) ∧
    (old_name ∉ dom (parent_groups st')) ∧
    (old_name ∉ dom (group_positions st')) ∧
    (old_name ∉ dom (group_colors st')) ∧
    (old_name ∉ dom (group_sizes st')) ∧
    (old_name ∉ dom (group_transparency st')) ∧
    (∀ g, g ≠ old_name → g ≠ new_name → parent_groups st' !! g = parent_groups st !! g) ∧
    sets st' = sets st ∧
    set_parents st' = set_parents st.
Proof.
  intros Hold Hnew.
  assert (old_name ≠ new_name) as Hne by (intros ->; done).
  unfold rename_parent_group. apply elem_of_dom in Hold as [members Hmembers].
  rewrite Hmembers, (proj2 (has_key_false _ _) Hnew).
  eexists. split; [reflexivity|]. read_fields.
  split; [by rewrite lookup_delete_ne, lookup_insert_eq|].
  do 4 (split; [intros v Hv; by apply move_key_lookup_new|]).
  split; [apply not_elem_of_dom, lookup_delete_eq|].
  do 4 (split; [by apply move_key_lookup_old|]).
  split; [|done].
  intros g Hg1 Hg2. rewrite lookup_delete_ne by done. by rewrite lookup_insert_ne.
Qed.

Lemma rename_parent_group_moves_bundle_witness :
  ∃ st',
    rename_parent_group family_in_group "g" "rig" = Returns true st' [] ∧
    parent_groups st' !! "rig" = Some ["a"] ∧
    group_colors st' !! "rig" = Some (JList [JNum 100; JNum 100; JNum 60]) ∧
    ("g" ∉ dom (parent_groups st')) ∧
    sets st' = sets family_in_group.
Proof.
  destruct (rename_parent_group_moves_bundle family_in_group "g" "rig")
    as (st' & Hrun & Hmembers & _ & Hcolor & _ & _ & Hgone & _ & _ & _ & _ & _ & Hsets & _).
  - apply elem_of_dom. vm_compute. by eexists.
  - apply not_elem_of_dom. vm_compute. reflexivity.
  - exists st'. split; [exact Hrun|]. split; [rewrite Hmembers; by vm_compute|].
    split; [apply Hcolor; by vm_compute|]. by split.
Defined.

(** X2: for an existing set, in a manager where no membership list holds a
    name twice, [remove_set_from_group] returns [True].  With a group named
    (an existing one) the set is no longer a member of that group and the
    other groups keep their lists; with no group named the set is a member
    of no group.  The membership of every other set is as before, and no
    group or set appears or disappears. *)
Theorem remove_set_from_group_leaves_no_entry (st : Manager) (s : string)
    (group : option string) :
  s ∈ dom (sets st) →
  (∀ g, group = Some g → g ∈ dom (parent_groups st)) →
  groups_without_duplicates st →
  ∃ st',
    remove_set_from_group st s group = Returns true st' [] ∧
    (∀ g, group = None ∨ group = Some g → ¬ in_group st' s g) ∧
    (∀ g g', group = Some g → g' ≠ g → parent_groups st' !! g' = parent_groups st !! g') ∧
    (∀ other g, other ≠ s → in_group st' other g ↔ in_group st other g) ∧
    dom (parent_groups st') = dom (parent_groups st) ∧
    sets st' = sets st.
Proof.
  intros Hs Hgroup Hnodup. unfold remove_set_from_group.
  rewrite (proj2 (has_key_true _ _) Hs). cbn [negb].
  assert (∀ members, NoDup members →
            let members' := if Py.mem s members then Py.remove_first s members
                            else members in
            (s ∉ members') ∧ ∀ other, other ≠ s → other ∈ members' ↔ other ∈ members)
    as Hlist.
  { intros members Hmembers. cbn. destruct (Py.mem s members) eqn:Hmem.
    - split; [by apply remove_first_NoDup|].
      intros other Hother. split; [apply remove_first_subset | by apply remove_first_other].
    - split; [|done]. intros Hin. apply mem_true in Hin. congruence. }
  destruct group as [g|].
  - pose proof (Hgroup g eq_refl) as Hg. apply elem_of_dom in Hg as [members Hmembers].
    rewrite Hmembers.
    destruct (Hlist members (Hnodup _ _ Hmembers)) as [Hgone Hothers].
    destruct (Py.mem s members) eqn:Hmem.
    + eexists. split; [reflexivity|]. unfold in_group. read_fields.
      split; [|split; [|split; [|split]]].
      * intros g' [?|[= <-]] (l & Hl & Hin); [done|].
        rewrite lookup_insert_eq in Hl. by injection Hl as <-.
      * intros g1 g' [= <-] Hne. by rewrite lookup_insert_ne.
      * intros other g' Hother. destruct (decide (g' = g)) as [->|Hne].
        -- rewrite lookup_insert_eq, Hmembers. split.
           ++ intros (l & [= <-] & Hin). exists members. split; [done|].
              by apply Hothers.
           ++ intros (l & [= <-] & Hin). eexists. split; [done|]. by apply Hothers.
        -- by rewrite lookup_insert_ne.
      * rewrite dom_insert_L. apply subseteq_union_1_L, singleton_subseteq_l.
        apply elem_of_dom. by eexists.
      * done.
    + exists st. split; [done|]. unfold in_group.
      split; [|split; [|split; [|split]]]; try done.
      intros g' [?|[= <-]] (l & Hl & Hin); [done|].
      rewrite Hmembers in Hl. injection Hl as <-. done.
  - eexists. split; [reflexivity|]. unfold in_group. read_fields.
    split; [|split; [|split; [|split]]]; try done.
    + intros g _ (l & Hl & Hin). rewrite remove_from_groups_lookup in Hl.
      destruct (parent_groups st !! g) as [members|] eqn:Hmembers; [|done].
      cbn in Hl. injection Hl as <-.
      by destruct (Hlist members (Hnodup _ _ Hmembers)).
    + intros other g Hother. rewrite remove_from_groups_lookup.
      destruct (parent_groups st !! g) as [members|] eqn:Hmembers; cbn.
      * destruct (Hlist members (Hnodup _ _ Hmembers)) as [_ Hothers]. split.
        -- intros (l & [= <-] & Hin). exists members. split; [done|]. by apply Hothers.
        -- intros (l & [= <-] & Hin). eexists. split; [done|]. by apply Hothers.
      * split; intros (l & Hl & _); done.
    + unfold remove_from_groups. apply dom_fmap_L.
Qed.

Lemma remove_set_from_group_leaves_no_entry_witness :
  ∃ st',
    remove_set_from_group family_in_group "a" None = Returns true st' [] ∧
    (∀ g, ¬ in_group st' "a" g) ∧
    dom (parent_groups st') = dom (parent_groups family_in_group).
Proof.
  destruct (remove_set_from_group_leaves_no_entry family_in_group "a" None)
    as (st' & Hrun & Hgone & _ & _ & Hdom & _).
  - apply elem_of_dom. vm_compute. by eexists.
  - intros g Hg. discriminate Hg.
  - exact family_in_group_without_duplicates.
  - exists st'. split; [exact Hrun|]. split; [|exact Hdom].
    intros g. apply Hgone. by left.
Defined.

(** ** The name and the place of a new entry *)

(** The name the loop stops on is the candidate when it is free, and
    otherwise the numbered name with the least counter that is free. *)
Lemma unique_name_first_free (taken : string → bool) (base : string) (fuel : nat) :
  ∀ (candidate : string) (counter : nat) (found : string),
    unique_name fuel taken base candidate counter = Some found →
    (found = candidate ∧ taken candidate = false) ∨
    (∃ k : nat, (counter ≤ k)%nat ∧ found = numbered base k ∧
       taken candidate = true ∧ taken found = false ∧
       ∀ j : nat, (counter ≤ j < k)%nat → taken (numbered base j) = true).
Proof.
  induction fuel as [|fuel IH]; intros candidate counter found; cbn; [done|].
  destruct (taken candidate) eqn:Hcandidate; [|intros [= <-]; by left].
  change (base +:+ "_" +:+ pretty counter) with (numbered base counter).
  intros Hrun. right.
  apply IH in Hrun as [[-> Hfree]|(k & Hk & -> & Htaken & Hfree & Hbelow)].
  - exists counter. split; [lia|]. do 3 (split; [done|]). intros j Hj. lia.
  - exists k. split; [lia|]. do 3 (split; [done|]). intros j Hj.
    destruct (decide (j = counter)) as [->|Hne]; [done|]. apply Hbelow. lia.
Qed.

Lemma mapM_returned {A B} (f : A → exn + B) (l : list A) (bs : list B) :
  mapM f l = inr bs → Forall2 (fun a b => f a = inr b) l bs.
Proof.
  revert bs. induction l as [|a l IH]; intros bs; cbn.
  - intros [= <-]. constructor.
  - destruct (f a) as [e|b] eqn:Ha; cbn; [done|].
    destruct (mapM f l) as [e|bs'] eqn:Hl; cbn; [done|].
    intros [= <-]. constructor; [done | by apply IH].
Qed.

Lemma foldl_max_bound (cs : list Z) :
  ∀ c z : Z, z = c ∨ z ∈ cs → (z ≤ foldl Z.max c cs)%Z.
Proof.
  induction cs as [|c' cs IH]; intros c z; cbn.
  - intros [->|Hin]; [lia | by apply elem_of_nil in Hin].
  - intros [->|Hin].
    + etrans; [|apply IH; by left]. lia.
    + apply elem_of_cons in Hin as [->|Hin].
      * etrans; [|apply IH; by left]. lia.
      * apply IH. by right.
Qed.

(** The maximum the create methods compute is above every coordinate read. *)
Lemma max_coord_bound (i : nat) (vals : list json) (z : Z) :
  max_coord i vals = inr z →
  ∀ pos c, pos ∈ vals → coordinate i pos = inr c → (c ≤ z)%Z.
Proof.
  unfold max_coord. intros Hmax pos c Hpos Hc.
  destruct (mapM _ vals) as [e|cs] eqn:Hcs; cbn in Hmax; [done|].
  apply mapM_returned in Hcs.
  apply list_elem_of_lookup in Hpos as [n Hn].
  destruct (Forall2_lookup_l _ _ _ _ _ Hcs Hn) as (c' & Hc' & Hread).
  change (coordinate i pos = inr c') in Hread. rewrite Hc in Hread.
  injection Hread as <-.
  destruct cs as [|c0 cs]; [done|]. injection Hmax as <-.
  apply foldl_max_bound. destruct n as [|n]; cbn in Hc'.
  - left. congruence.
  - right. apply list_elem_of_lookup. by exists n.
Qed.

Lemma is_empty_true {V} (m : gmap string V) : is_empty m = true ↔ m = ∅.
Proof.
  unfold is_empty. rewrite <- map_to_list_empty_iff.
  destruct (map_to_list m); split; intros H; done.
Qed.

Lemma foldl_max_in (cs : list Z) : ∀ c : Z, foldl Z.max c cs ∈ c :: cs.
Proof.
  induction cs as [|c' cs IH]; intros c; cbn; [by left|].
  specialize (IH (Z.max c c')).
  apply elem_of_cons in IH as [Heq|Hin].
  - rewrite Heq. destruct (Z.max_spec c c') as [[_ ->]|[_ ->]]; [right|]; by left.
  - do 2 right. exact Hin.
Qed.

(** The maximum the create methods compute is one of the coordinates read. *)
Lemma max_coord_attained (i : nat) (vals : list json) (z : Z) :
  max_coord i vals = inr z → ∃ pos, pos ∈ vals ∧ coordinate i pos = inr z.
Proof.
  unfold max_coord. intros Hmax.
  destruct (mapM _ vals) as [e|cs] eqn:Hcs; cbn in Hmax; [done|].
  apply mapM_returned in Hcs.
  destruct cs as [|c0 cs]; [done|]. injection Hmax as <-.
  pose proof (foldl_max_in cs c0) as Hin.
  apply list_elem_of_lookup in Hin as [n Hn].
  destruct (Forall2_lookup_r _ _ _ _ _ Hcs Hn) as (pos & Hpos & Hread).
  exists pos. split; [|exact Hread].
  apply list_elem_of_lookup. by exists n.
Qed.

Lemma integer_positions_numeric (positions : gmap string json) :
  integer_positions positions → numeric_positions positions.
Proof. intros Hint name pos Hpos. exact (Hint name pos Hpos). Qed.

(** With integers stored, the position computed is 20 right of the largest
    first coordinate and 20 below the largest second coordinate. *)
Lemma offset_position_largest (positions : gmap string json) :
  integer_positions positions →
  positions ≠ ∅ →
  ∃ x y,
    offset_position positions = inr (JList [JNum x; JNum y]) ∧
    largest_coordinate 0 positions (x - 20) ∧
    largest_coordinate 1 positions (y - 20).
Proof.
  intros Hint Hne.
  assert (is_empty positions = false) as Hempty.
  { destruct (is_empty positions) eqn:H; [|done]. by apply is_empty_true in H. }
  destruct (offset_position_numeric positions (integer_positions_numeric _ Hint) Hempty)
    as [pos Hpos].
  unfold offset_position in Hpos.
  destruct (max_coord 0 _) as [e|last_x] eqn:Hx; cbn in Hpos; [done|].
  destruct (max_coord 1 _) as [e|last_y] eqn:Hy; cbn in Hpos; [done|].
  exists (last_x + 20)%Z, (last_y + 20)%Z. unfold offset_position.
  rewrite Hx, Hy. split; [done|].
  assert (∀ p, p ∈ (map_to_list positions).*2 ↔ ∃ name, positions !! name = Some p)
    as Hvals.
  { intros p. rewrite list_elem_of_fmap. split.
    - intros ([name p'] & -> & Hin). exists name. by apply elem_of_map_to_list.
    - intros [name Hp]. exists (name, p). split; [done|]. by apply elem_of_map_to_list. }
  replace (last_x + 20 - 20)%Z with last_x by lia.
  replace (last_y + 20 - 20)%Z with last_y by lia.
  split; split.
  - destruct (max_coord_attained _ _ _ Hx) as (p & Hin & Hp).
    apply Hvals in Hin as [name Hname]. by exists name, p.
  - intros name p c Hp Hc. eapply max_coord_bound; [exact Hx| |exact Hc].
    apply Hvals. by exists name.
  - destruct (max_coord_attained _ _ _ Hy) as (p & Hin & Hp).
    apply Hvals in Hin as [name Hname]. by exists name, p.
  - intros name p c Hp Hc. eapply max_coord_bound; [exact Hy| |exact Hc].
    apply Hvals. by exists name.
Qed.

Lemma largest_coordinates_clear (positions : gmap string json) (x y : Z) :
  largest_coordinate 0 positions (x - 20) →
  largest_coordinate 1 positions (y - 20) →
  clear_of positions x y.
Proof.
  intros [_ Hx] [_ Hy] name pos px py Hpos Hpx Hpy.
  specialize (Hx name pos px Hpos Hpx). specialize (Hy name pos py Hpos Hpy). lia.
Qed.

Lemma family_in_group_integer :
  integer_positions (group_positions family_in_group) ∧
  integer_positions (set_positions family_in_group).
Proof.
  split; intros name pos H; each_item H; injection H as -> ->;
    eexists _, _; split; reflexivity.
Qed.

Lemma a_over_b_integer : integer_positions (set_positions a_over_b).
Proof.
  intros name pos H. each_item H; injection H as -> ->;
    eexists _, _; split; reflexivity.
Qed.

(** X3: with objects selected, stored set positions that are pairs of
    integers and a step budget above the number of sets, [create_set]
    returns the name it stored the set under: the name asked for when no
    set has it, otherwise the numbered name [name_k] with the least
    [k >= 1] that no set has.  The new set holds the selection, a position
    of two integers ([20, 20] when no position is stored), the default
    color, size and transparency and a null parent pointer; every entry
    that was there stays, and the parent groups are untouched. *)
Theorem create_set_registers_selection (h : Host) (fuel : nat) (st : Manager)
    (name : string) :
  selection h ≠ [] →
  integer_positions (set_positions st) →
  (size (sets st) < fuel)%nat →
  ∃ set_name st' x y,
    create_set h fuel st name = Returns (Some set_name) st' [] ∧
    (set_name ∉ dom (sets st)) ∧
    (set_name = name ∨
     ∃ k : nat, (1 ≤ k)%nat ∧ set_name = numbered name k ∧ name ∈ dom (sets st) ∧
       ∀ j : nat, (1 ≤ j < k)%nat → numbered name j ∈ dom (sets st)) ∧
    sets st' = <[set_name := selection h]> (sets st) ∧
    set_positions st' = <[set_name := JList [JNum x; JNum y]]> (set_positions st) ∧
    set_colors st' = <[set_name := JList [JNum 70; JNum 70; JNum 70]]> (set_colors st) ∧
    set_sizes st' = <[set_name := JList [JNum 200; JNum 150]]> (set_sizes st) ∧
    set_transparency st' = <[set_name := JNum 180]> (set_transparency st) ∧
    set_parents st' = <[set_name := None]> (set_parents st) ∧
    parent_groups st' = parent_groups st ∧
    (set_positions st = ∅ → x = 20%Z ∧ y = 20%Z).
Proof.
  intros Hsel Hint Hfuel.
  destruct (unique_name_free (sets st) name) as (set_name & Hfree & _ & Hrun).
  specialize (Hrun fuel Hfuel).
  assert (set_name = name ∨
          ∃ k : nat, (1 ≤ k)%nat ∧ set_name = numbered name k ∧ name ∈ dom (sets st) ∧
            ∀ j : nat, (1 ≤ j < k)%nat → numbered name j ∈ dom (sets st)) as Hfirst.
  { destruct (unique_name_first_free _ _ _ _ _ _ Hrun)
      as [[-> _]|(k & Hk & -> & Htaken & _ & Hbelow)]; [by left | right].
    exists k. do 2 (split; [done|]). split; [by apply has_key_true|].
    intros j Hj. by apply has_key_true, Hbelow. }
  unfold create_set. destruct (selection h) as [|obj objs] eqn:Hselection; [done|].
  rewrite Hrun. cbn [with_sets set_positions].
  destruct (decide (set_positions st = ∅)) as [Hempty|Hempty].
  - rewrite (proj2 (is_empty_true _) Hempty). cbn [negb].
    eexists set_name, _, 20%Z, 20%Z. split; [reflexivity|]. read_fields.
    by do 10 (split; [done|]).
  - destruct (offset_position_largest _ Hint Hempty) as (x & y & Hpos & _).
    destruct (is_empty (set_positions st)) eqn:His; [by apply is_empty_true in His|].
    cbn [negb]. rewrite Hpos.
    eexists set_name, _, x, y. split; [reflexivity|]. read_fields.
    by do 10 (split; [done|]).
Qed.

Lemma create_set_registers_selection_witness :
  ∃ set_name st' x y,
    create_set (cube_scene JNull) 3 a_over_b "a" = Returns (Some set_name) st' [] ∧
    (set_name ∉ dom (sets a_over_b)) ∧
    (set_name = "a" ∨
     ∃ k : nat, (1 ≤ k)%nat ∧ set_name = numbered "a" k ∧ "a" ∈ dom (sets a_over_b) ∧
       ∀ j : nat, (1 ≤ j < k)%nat → numbered "a" j ∈ dom (sets a_over_b)) ∧
    sets st' = <[set_name := ["pCube1"]]> (sets a_over_b) ∧
    set_positions st' = <[set_name := JList [JNum x; JNum y]]> (set_positions a_over_b) ∧
    set_parents st' = <[set_name := None]> (set_parents a_over_b).
Proof.
  destruct (create_set_registers_selection (cube_scene JNull) 3 a_over_b "a")
    as (set_name & st' & x & y & Hrun & Hfree & Hfirst & Hsets & Hpositions & _ & _ &
        _ & Hparents & _).
  - discriminate.
  - exact a_over_b_integer.
  - vm_compute. lia.
  - by exists set_name, st', x, y.
Defined.



(** ** The place of a new widget *)

(** X24: when the stored set positions are pairs of integers, [create_set]
    places the new set 20 to the right of the largest stored first
    coordinate and 20 below the largest stored second coordinate, so at
    least 20 clear of every stored set position; with no position stored it
    places it at [20, 20].  Positions that hold a [float] are not covered:
    there the sum is rounded, and the place can coincide with a stored
    one. *)
Theorem create_set_places_beyond_integer_positions (h : Host) (fuel : nat)
    (st : Manager) (name : string) :
  selection h ≠ [] →
  integer_positions (set_positions st) →
  (size (sets st) < fuel)%nat →
  ∃ set_name st' x y,
    create_set h fuel st name = Returns (Some set_name) st' [] ∧
    set_positions st' !! set_name = Some (JList [JNum x; JNum y]) ∧
    (set_positions st ≠ ∅ →
     largest_coordinate 0 (set_positions st) (x - 20) ∧
     largest_coordinate 1 (set_positions st) (y - 20)) ∧
    (set_positions st = ∅ → x = 20%Z ∧ y = 20%Z) ∧
    clear_of (set_positions st) x y.
Proof.
  intros Hsel Hint Hfuel.
  destruct (unique_name_free (sets st) name) as (set_name & _ & _ & Hrun).
  specialize (Hrun fuel Hfuel).
  unfold create_set. destruct (selection h) as [|obj objs] eqn:Hselection; [done|].
  rewrite Hrun. cbn [with_sets set_positions].
  destruct (decide (set_positions st = ∅)) as [Hempty|Hempty].
  - rewrite (proj2 (is_empty_true _) Hempty). cbn [negb].
    eexists set_name, _, 20%Z, 20%Z. split; [reflexivity|]. read_fields.
    split; [apply lookup_insert_eq|]. do 2 (split; [done|]).
    intros s pos px py Hpos. by rewrite Hempty in Hpos.
  - destruct (offset_position_largest _ Hint Hempty) as (x & y & Hpos & Hx & Hy).
    destruct (is_empty (set_positions st)) eqn:His; [by apply is_empty_true in His|].
    cbn [negb]. rewrite Hpos.
    eexists set_name, _, x, y. split; [reflexivity|]. read_fields.
    split; [apply lookup_insert_eq|]. split; [done|]. split; [done|].
    by apply largest_coordinates_clear.
Qed.

Lemma create_set_places_beyond_integer_positions_witness :
  ∃ set_name st' x y,
    create_set (cube_scene JNull) 3 a_over_b "c" = Returns (Some set_name) st' [] ∧
    set_positions st' !! set_name = Some (JList [JNum x; JNum y]) ∧
    largest_coordinate 0 (set_positions a_over_b) (x - 20) ∧
    largest_coordinate 1 (set_positions a_over_b) (y - 20) ∧
    clear_of (set_positions a_over_b) x y.
Proof.
  destruct (create_set_places_beyond_integer_positions (cube_scene JNull) 3 a_over_b "c")
    as (set_name & st' & x & y & Hrun & Hpos & Hlargest & _ & Hclear).
  - discriminate.
  - exact a_over_b_integer.
  - vm_compute. lia.
  - destruct Hlargest as [Hx Hy].
    { intros Hempty. assert (set_positions a_over_b !! "a" = None) as Hnone
        by (by rewrite Hempty). by vm_compute in Hnone. }
    by exists set_name, st', x, y.
Defined.

(** X25: when the stored positions are pairs of integers,
    [create_parent_group] places the new group 20 beyond the largest
    stored coordinates of the groups; when no group has a position, 20
    beyond the largest stored coordinates of the sets; and at [20, 20] when
    nothing has a position.  Positions that hold a [float] are not
    covered. *)
Theorem create_parent_group_places_beyond_integer_positions (fuel : nat)
    (st : Manager) (name : string) :
  integer_positions (group_positions st) →
  integer_positions (set_positions st) →
  (size (parent_groups st) < fuel)%nat →
  ∃ group_name st' x y,
    create_parent_group fuel st name = Returns group_name st' [] ∧
    group_positions st' !! group_name = Some (JList [JNum x; JNum y]) ∧
    (group_positions st ≠ ∅ →
     largest_coordinate 0 (group_positions st) (x - 20) ∧
     largest_coordinate 1 (group_positions st) (y - 20)) ∧
    (group_positions st = ∅ → set_positions st ≠ ∅ →
     largest_coordinate 0 (set_positions st) (x - 20) ∧
     largest_coordinate 1 (set_positions st) (y - 20)) ∧
    (group_positions st = ∅ → set_positions st = ∅ → x = 20%Z ∧ y = 20%Z) ∧
    clear_of (group_positions st) x y.
Proof.
  intros Hgroups Hsets Hfuel.
  destruct (unique_name_free (parent_groups st) name) as (group_name & _ & _ & Hrun).
  specialize (Hrun fuel Hfuel).
  assert (∀ x y, clear_of (∅ : gmap string json) x y) as Hnone.
  { intros x y s pos px py Hpos. done. }
  unfold create_parent_group. rewrite Hrun.
  cbn [with_parent_groups group_positions set_positions].
  destruct (decide (group_positions st = ∅)) as [Hg|Hg].
  - rewrite (proj2 (is_empty_true _) Hg). cbn [negb].
    destruct (decide (set_positions st = ∅)) as [Hs|Hs].
    + rewrite (proj2 (is_empty_true _) Hs). cbn [negb].
      eexists group_name, _, 20%Z, 20%Z. split; [reflexivity|]. read_fields.
      split; [apply lookup_insert_eq|]. do 3 (split; [done|]). by rewrite Hg.
    + destruct (offset_position_largest _ Hsets Hs) as (x & y & Hpos & Hx & Hy).
      destruct (is_empty (set_positions st)) eqn:His; [by apply is_empty_true in His|].
      cbn [negb]. rewrite Hpos.
      eexists group_name, _, x, y. split; [reflexivity|]. read_fields.
      split; [apply lookup_insert_eq|]. do 3 (split; [done|]). by rewrite Hg.
  - destruct (offset_position_largest _ Hgroups Hg) as (x & y & Hpos & Hx & Hy).
    destruct (is_empty (group_positions st)) eqn:His; [by apply is_empty_true in His|].
    cbn [negb]. rewrite Hpos.
    eexists group_name, _, x, y. split; [reflexivity|]. read_fields.
    split; [apply lookup_insert_eq|]. do 3 (split; [done|]).
    by apply largest_coordinates_clear.
Qed.

Lemma create_parent_group_places_beyond_integer_positions_witness :
  ∃ group_name st' x y,
    create_parent_group 2 family_in_group "h" = Returns group_name st' [] ∧
    group_positions st' !! group_name = Some (JList [JNum x; JNum y]) ∧
    largest_coordinate 0 (group_positions family_in_group) (x - 20) ∧
    largest_coordinate 1 (group_positions family_in_group) (y - 20) ∧
    clear_of (group_positions family_in_group) x y.
Proof.
  destruct (create_parent_group_places_beyond_integer_positions 2 family_in_group "h")
    as (group_name & st' & x & y & Hrun & Hpos & Hlargest & _ & _ & Hclear).
  - exact (proj1 family_in_group_integer).
  - exact (proj2 family_in_group_integer).
  - vm_compute. lia.
  - destruct Hlargest as [Hx Hy].
    { intros Hempty. assert (group_positions family_in_group !! "g" = None) as Hnone
        by (by rewrite Hempty). by vm_compute in Hnone. }
    by exists group_name, st', x, y.
Defined.

(** ** Deleting a set through the workspace *)

(** X5: the two manager calls [delete_widget] makes for an existing set,
    [remove_set_from_group(name)] and then [delete_set(name)], in a manager
    where no membership list holds a name twice: both return [True], the
    second with the warning of its own late [remove_set_from_group]; after
    them nothing in the manager mentions the name (no registry key, no parent
    pointer, no membership list), every other set keeps its objects and its
    groups, and a set that pointed to the deleted one has a null pointer. *)
Theorem delete_widget_calls_leave_no_reference (st : Manager) (s : string) :
  s ∈ dom (sets st) →
  groups_without_duplicates st →
  ∃ st1 st2,
    remove_set_from_group st s None = Returns true st1 [] ∧
    delete_set st1 s = Returns true st2 [Warning ("Set '" +:+ s +:+ "' not found.")] ∧
    ¬ mentions st2 s ∧
    (∀ other, other ≠ s → sets st2 !! other = sets st !! other) ∧
    (∀ other g, other ≠ s → in_group st2 other g ↔ in_group st other g) ∧
    (∀ child, child ≠ s → parent_of st child s → set_parents st2 !! child = Some None).
Proof.
  intros Hs Hnodup.
  set (st1 := with_parent_groups (remove_from_groups s (parent_groups st)) st).
  assert (remove_set_from_group st s None = Returns true st1 []) as Hfirst.
  { unfold remove_set_from_group. by rewrite (proj2 (has_key_true _ _) Hs). }
  destruct (delete_set_orphans_children st1 s Hs)
    as (st2 & Hsecond & Hsets & Hpos & Hcol & Hsiz & Htra & Hpar & Hgroups).
  exists st1, st2. split; [done|]. split; [done|].
  assert (∀ x g, in_group st2 x g ↔
            ∃ members, parent_groups st !! g = Some members ∧
              x ∈ (if Py.mem s members then Py.remove_first s members else members))
    as Hmembers.
  { intros x g. unfold in_group. rewrite Hgroups. unfold st1. read_fields.
    rewrite remove_from_groups_lookup.
    destruct (parent_groups st !! g) as [members|]; cbn.
    - split.
      + intros (l & [= <-] & Hin). by exists members.
      + intros (l & [= <-] & Hin). by eexists.
    - split; intros (l & Hl & _); done. }
  split; [|split; [|split]].
  - unfold mentions, parent_of. rewrite Hsets, Hpos, Hcol, Hsiz, Htra, Hpar.
    unfold st1. read_fields.
    intros [H|[H|[H|[H|[H|[H|[[child H]|[g H]]]]]]]].
    + apply elem_of_dom in H as [? H]. by rewrite lookup_delete_eq in H.
    + apply elem_of_dom in H as [? H]. by rewrite lookup_delete_eq in H.
    + apply elem_of_dom in H as [? H]. by rewrite lookup_delete_eq in H.
    + apply elem_of_dom in H as [? H]. by rewrite lookup_delete_eq in H.
    + apply elem_of_dom in H as [? H]. by rewrite lookup_delete_eq in H.
    + unfold repoint in H. rewrite dom_fmap_L in H.
      apply elem_of_dom in H as [? H]. by rewrite lookup_delete_eq in H.
    + rewrite lookup_repoint in H.
      destruct (delete s (set_parents st) !! child) as [p|]; [|done].
      cbn in H. case_decide; congruence.
    + apply Hmembers in H as (members & Hg & Hin).
      pose proof (Hnodup g members Hg) as Hdup.
      destruct (Py.mem s members) eqn:Hmem.
      * by apply (remove_first_NoDup s members Hdup).
      * apply mem_true in Hin. congruence.
  - intros other Hother. rewrite Hsets. unfold st1. read_fields.
    by rewrite lookup_delete_ne.
  - intros other g Hother. rewrite Hmembers. unfold in_group.
    split; intros (members & Hg & Hin); exists members; (split; [done|]).
    + destruct (Py.mem s members); [by apply remove_first_subset in Hin | done].
    + destruct (Py.mem s members); [by apply remove_first_other | done].
  - intros child Hchild Hpointer. rewrite Hpar. unfold st1. read_fields.
    rewrite lookup_repoint, lookup_delete_ne by done.
    unfold parent_of in Hpointer. rewrite Hpointer. cbn. by rewrite decide_True.
Qed.

Lemma delete_widget_calls_leave_no_reference_witness :
  ∃ st1 st2,
    remove_set_from_group family_in_group "a" None = Returns true st1 [] ∧
    delete_set st1 "a" = Returns true st2 [Warning "Set 'a' not found."] ∧
    ¬ mentions st2 "a" ∧
    sets st2 !! "b" = Some ["pCube1"] ∧
    set_parents st2 !! "b" = Some None.
Proof.
  destruct (delete_widget_calls_leave_no_reference family_in_group "a")
    as (st1 & st2 & Hfirst & Hsecond & Hgone & Hsets & _ & Horphan).
  - apply elem_of_dom. vm_compute. by eexists.
  - exact family_in_group_without_duplicates.
  - exists st1, st2. do 3 (split; [done|]). split.
    + rewrite Hsets by discriminate. by vm_compute.
    + apply Horphan; [discriminate | by vm_compute].
Defined.

(** ** The walks over the hierarchy *)

Lemma a_over_b_forest : forest a_over_b.
Proof.
  assert (∀ x y, parent_of a_over_b x y → x = "b" ∧ y = "a") as Hedge.
  { intros x y H. unfold parent_of in H. each_item H; by simplify_eq. }
  intros x H. apply tc_nsteps in H as (n & Hn & H).
  inversion H as [|m ? y ? Hxy Hrest]; subst; [lia|].
  apply Hedge in Hxy as [-> ->].
  inversion Hrest as [|? ? z ? Hyz _]; subst.
  by apply Hedge in Hyz as [? _].
Qed.

(** The walk up a chain of pointers that ends. *)
Lemma cycle_walk_decides (st : Manager) (child : string) (n : nat) (parent top : string) :
  nsteps (parent_of st) n parent top →
  parents_get st top = None →
  ∃ answer : bool,
    (∀ fuel : nat, (n + 1 < fuel)%nat →
       would_create_circular_reference fuel st child (Some parent) = Some answer) ∧
    (answer = true ↔ child ≠ "" ∧ rtc (named_parent_of st) parent child).
Proof.
  intros Hsteps Htop.
  assert (∀ x, x = "" →
            (∀ fuel : nat, (0 < fuel)%nat →
               would_create_circular_reference fuel st child (Some x) = Some false) ∧
            (false = true ↔ child ≠ "" ∧ rtc (named_parent_of st) x child)) as Hunnamed.
  { intros x ->. split; [intros [|fuel] Hfuel; [lia | done]|].
    split; [done|]. intros [Hchild Hrtc].
    inversion Hrtc as [|? ? ? [Hx _]]; by subst. }
  assert (∀ x, x ≠ "" → x = child →
            (∀ fuel : nat, (0 < fuel)%nat →
               would_create_circular_reference fuel st child (Some x) = Some true) ∧
            (true = true ↔ child ≠ "" ∧ rtc (named_parent_of st) x child)) as Hfound.
  { intros x Hx <-. split.
    - intros [|fuel] Hfuel; [lia|]. cbn.
      destruct (String.eqb_spec x "") as [->|_]; [done|]. cbn.
      by rewrite String.eqb_refl.
    - split; [|done]. intros _. split; [done | constructor]. }
  induction Hsteps as [x | n x y z Hxy Hrest IH].
  - destruct (decide (x = "")) as [Hx|Hx].
    { exists false. destruct (Hunnamed x Hx) as [Hrun Hiff].
      split; [intros fuel Hfuel; apply Hrun; lia | done]. }
    destruct (decide (x = child)) as [Hc|Hc].
    { exists true. destruct (Hfound x Hx Hc) as [Hrun Hiff].
      split; [intros fuel Hfuel; apply Hrun; lia | done]. }
    exists false. split.
    + intros [|[|fuel]] Hfuel; try lia. cbn.
      destruct (String.eqb_spec x "") as [->|_]; [done|]. cbn.
      destruct (String.eqb_spec x child) as [->|_]; [done|].
      by rewrite Htop.
    + split; [done|]. intros [_ Hrtc].
      inversion Hrtc as [|? y ? [_ Hstep]]; subst; [done|].
      unfold parents_get in Htop. unfold parent_of in Hstep. by rewrite Hstep in Htop.
  - destruct (decide (x = "")) as [Hx|Hx].
    { exists false. destruct (Hunnamed x Hx) as [Hrun Hiff].
      split; [intros fuel Hfuel; apply Hrun; lia | done]. }
    destruct (decide (x = child)) as [Hc|Hc].
    { exists true. destruct (Hfound x Hx Hc) as [Hrun Hiff].
      split; [intros fuel Hfuel; apply Hrun; lia | done]. }
    destruct (IH Htop) as (answer & Hrun & Hiff).
    exists answer. split.
    + intros [|fuel] Hfuel; [lia|]. cbn.
      destruct (String.eqb_spec x "") as [->|_]; [done|]. cbn.
      destruct (String.eqb_spec x child) as [->|_]; [done|].
      unfold parents_get. rewrite Hxy. apply Hrun. lia.
    + rewrite Hiff. split; intros [Hchild Hrtc]; (split; [done|]).
      * eapply rtc_l; [|exact Hrtc]. by split.
      * inversion Hrtc as [|? y' ? [_ Hstep]]; subst; [done|].
        unfold parent_of in Hxy, Hstep. by simplify_eq.
Qed.

(** X6: in a forest the walk of [would_create_circular_reference] ends, and
    it answers [True] exactly when the child has a non-empty name and is the
    proposed parent or lies on the chain of parent pointers above it, every
    set on the way up to it having a non-empty name. *)
Theorem cycle_check_decides (st : Manager) (child parent : string) :
  forest st →
  ∃ (answer : bool) (n : nat),
    (∀ fuel : nat, (n ≤ fuel)%nat →
       would_create_circular_reference fuel st child (Some parent) = Some answer) ∧
    (answer = true ↔ child ≠ "" ∧ rtc (named_parent_of st) parent child).
Proof.
  intros Hforest.
  destruct (forest_rooted st parent Hforest) as (top & Hchain & Htop).
  apply rtc_nsteps in Hchain as [n Hn].
  destruct (cycle_walk_decides st child n parent top Hn Htop) as (answer & Hrun & Hiff).
  exists answer, (n + 2). split; [|done].
  intros fuel Hfuel. apply Hrun. lia.
Qed.

Lemma cycle_check_decides_witness :
  ∃ (answer : bool) (n : nat),
    (∀ fuel : nat, (n ≤ fuel)%nat →
       would_create_circular_reference fuel a_over_b "a" (Some "b") = Some answer) ∧
    (answer = true ↔ "a" ≠ "" ∧ rtc (named_parent_of a_over_b) "b" "a").
Proof.
  apply (cycle_check_decides a_over_b "a" "b"). exact a_over_b_forest.
Defined.

(** ** The objects below a set *)

Section Flatten.
Variable st : Manager.
Hypothesis Hforest : forest st.

Lemma child_listed (child set_name : string) :
  (child, Some set_name) ∈ filter (fun cp => cp.2 = Some set_name)
                             (map_to_list (set_parents st))
  ↔ parent_of st child set_name.
Proof.
  rewrite list_elem_of_filter, elem_of_map_to_list. unfold parent_of. cbn. tauto.
Qed.

(** The flatten ends once its step budget exceeds the number of sets that
    can still lie below, and returns the objects of the hierarchy. *)
Lemma flatten_collects (fuel : nat) :
  ∀ (rest : gset string) (set_name : string),
    (∀ below, tc (parent_of st) below set_name → below ∈ rest) →
    (size rest < fuel)%nat →
    ∃ all_objects,
      get_all_objects_in_set_hierarchy fuel st set_name = Some all_objects ∧
      ∀ obj, obj ∈ all_objects ↔ in_hierarchy st set_name obj.
Proof.
  induction fuel as [|fuel IH]; intros rest set_name Hrest Hfuel; [lia|].
  cbn [get_all_objects_in_set_hierarchy].
  destruct (sets st !! set_name) as [objects|] eqn:Hobjects.
  2:{ exists []. split; [done|]. intros obj. split; [by intros ?%elem_of_nil|].
      intros [Hin _]. apply elem_of_dom in Hin as [? Hin]. congruence. }
  set (children := filter (fun cp => cp.2 = Some set_name) (map_to_list (set_parents st))).
  assert (∀ cp, cp ∈ children →
            ∃ objs, get_all_objects_in_set_hierarchy fuel st cp.1 = Some objs ∧
                    ∀ obj, obj ∈ objs ↔ in_hierarchy st cp.1 obj) as Hchildren.
  { intros [c p] Hcp. cbn [fst].
    assert (p = Some set_name) as ->.
    { unfold children in Hcp. by apply list_elem_of_filter in Hcp as [? _]. }
    apply child_listed in Hcp.
    apply (IH (rest ∖ {[c]})).
    - intros below Hbelow. apply elem_of_difference. split.
      + apply Hrest. eapply tc_r; [exact Hbelow | exact Hcp].
      + intros ->%elem_of_singleton. by apply (Hforest c).
    - assert (c ∈ rest) as Hc by (apply Hrest; by apply tc_once).
      pose proof (size_difference rest {[c]}) as Hsize.
      rewrite size_singleton in Hsize.
      assert (({[c]} : gset string) ⊆ rest) as Hsub by (by apply singleton_subseteq_l).
      specialize (Hsize Hsub).
      assert (size rest ≠ 0)%nat.
      { intros Hzero. apply size_empty_inv in Hzero.
        rewrite (leibniz_equiv _ _ Hzero) in Hc. by apply not_elem_of_empty in Hc. }
      lia. }
  assert (is_Some (mapM (fun cp => get_all_objects_in_set_hierarchy fuel st cp.1) children))
    as [lower Hlower].
  { apply mapM_is_Some, Forall_forall. intros cp Hcp.
    destruct (Hchildren cp Hcp) as (objs & Hobjs & _). by exists objs. }
  rewrite Hlower. cbn. eexists. split; [reflexivity|].
  apply mapM_Some in Hlower.
  intros obj. rewrite elem_of_app. split.
  - intros [Hin|Hin].
    + split; [apply elem_of_dom; by eexists|].
      exists set_name, objects. split; [constructor | done].
    + apply list_elem_of_In, in_concat in Hin as (objs & Hobjs & Hin).
      apply list_elem_of_In, list_elem_of_lookup in Hobjs as [i Hi].
      destruct (Forall2_lookup_r _ _ _ _ _ Hlower Hi) as ([c p] & Hcp & Hrun).
      apply list_elem_of_lookup_2 in Hcp.
      destruct (Hchildren _ Hcp) as (objs' & Hrun' & Hspec). cbn [fst] in *.
      rewrite Hrun in Hrun'. injection Hrun' as <-.
      assert (p = Some set_name) as ->.
      { unfold children in Hcp. by apply list_elem_of_filter in Hcp as [? _]. }
      apply child_listed in Hcp.
      apply list_elem_of_In in Hin.
      pose proof (proj1 (Hspec obj) Hin) as (Hcset & source & sobjs & Hpath & Hsource & Hin').
      split; [apply elem_of_dom; by eexists|].
      exists source, sobjs. split; [|done].
      eapply rtc_r; [exact Hpath | by split].
  - intros (_ & source & objs & Hpath & Hsource & Hin).
    apply rtc_inv_r in Hpath as [->|(c & Hpath & Hstep & Hc)].
    + left. congruence.
    + right. apply child_listed in Hstep.
      apply list_elem_of_lookup in Hstep as [i Hi].
      destruct (Forall2_lookup_l _ _ _ _ _ Hlower Hi) as (objs' & Hobjs' & Hrun).
      destruct (Hchildren (c, Some set_name)) as (objs'' & Hrun' & Hspec);
        [by eapply list_elem_of_lookup_2|].
      cbn [fst] in *. rewrite Hrun in Hrun'. injection Hrun' as <-.
      apply list_elem_of_In, in_concat. exists objs'. split.
      * apply list_elem_of_In. by eapply list_elem_of_lookup_2.
      * apply list_elem_of_In, Hspec. split; [done|]. by exists source, objs.
Qed.

End Flatten.

(** X7: in a forest, with a step budget above the number of parent entries,
    [get_all_objects_in_set_hierarchy] ends and returns the objects of the
    hierarchy: an object is in the list exactly when the set named exists
    and the object is recorded in it or in a set reached from it by going
    down from a set to a set that points to it.  A name that is not a set
    gives the empty list. *)
Theorem hierarchy_flatten_collects (st : Manager) (fuel : nat) (set_name : string) :
  forest st →
  (size (set_parents st) < fuel)%nat →
  ∃ all_objects,
    get_all_objects_in_set_hierarchy fuel st set_name = Some all_objects ∧
    (∀ obj, obj ∈ all_objects ↔ in_hierarchy st set_name obj) ∧
    (set_name ∉ dom (sets st) → all_objects = []).
Proof.
  intros Hforest Hfuel.
  destruct (flatten_collects st Hforest fuel (dom (set_parents st)) set_name)
    as (all_objects & Hrun & Hspec).
  - intros below Hbelow.
    inversion Hbelow as [? ? Hstep|? y ? Hstep _]; subst;
      apply elem_of_dom; unfold parent_of in Hstep; by eexists.
  - by rewrite size_dom.
  - exists all_objects. split; [done|]. split; [done|].
    intros Hmissing. apply elem_of_nil_inv. intros obj Hin.
    by apply Hspec in Hin as [? _].
Qed.

Lemma hierarchy_flatten_collects_witness :
  ∃ all_objects,
    get_all_objects_in_set_hierarchy 3 a_over_b "a" = Some all_objects ∧
    (∀ obj, obj ∈ all_objects ↔ in_hierarchy a_over_b "a" obj) ∧
    ("a" ∉ dom (sets a_over_b) → all_objects = []).
Proof.
  apply (hierarchy_flatten_collects a_over_b 3 "a").
  - exact a_over_b_forest.
  - vm_compute. lia.
Defined.

(** ** Selecting a set *)

(** For objects that exist the channel filtering returns; the manager is
    the one it was given. *)
Lemma channel_filtering_returns (h : Host) (st : Manager) (objects : list string) :
  forallb (objExists h) objects = true →
  ∃ tr, select_objects_with_channel_filtering h st objects = Returns () st tr.
Proof.
  intros Hvalid. unfold select_objects_with_channel_filtering, cmds_select.
  destruct objects as [|obj objects]; [by eexists|].
  rewrite Hvalid.
  destruct (forallb Py.truthy _ || negb (existsb Py.truthy _)); [by eexists|].
  rewrite existing_attrs_exist.
  destruct (existing_attrs h _ _); by eexists.
Qed.

(** X8: in a forest, with a step budget above the number of parent entries,
    [select_set] on an existing set works on the objects of its hierarchy
    that exist in the scene: an object is among them exactly when it is
    recorded in the set or in a set below it and the scene has it.  When
    there is none it returns [False] with a warning; otherwise it returns
    [True], leaves the manager as it was, and has selected exactly those
    objects, or, when the channels are to be respected, has handed them to
    the channel filtering.  Objects missing from the scene are passed over
    without a message. *)
Theorem select_set_selects_existing_hierarchy (h : Host) (fuel : nat) (st : Manager)
    (name : string) (respect_channels : bool) :
  forest st →
  (size (set_parents st) < fuel)%nat →
  name ∈ dom (sets st) →
  ∃ objects,
    (∀ obj, obj ∈ objects ↔ in_hierarchy st name obj ∧ objExists h obj = true) ∧
    match objects with
    | [] =>
        select_set h fuel st name respect_channels
        = Returns false st
            [Warning ("No valid objects found in set '" +:+ name +:+ "' or its children.")]
    | _ =>
        ∃ tr,
          select_set h fuel st name respect_channels = Returns true st tr ∧
          if respect_channels
          then select_objects_with_channel_filtering h st objects = Returns () st tr
          else tr = [Select objects]
    end.
Proof.
  intros Hforest Hfuel Hname.
  destruct (flatten_collects st Hforest fuel (dom (set_parents st)) name)
    as (all_objects & Hrun & Hspec).
  { intros below Hbelow.
    inversion Hbelow as [? ? Hstep|? y ? Hstep _]; subst;
      apply elem_of_dom; unfold parent_of in Hstep; by eexists. }
  { by rewrite size_dom. }
  exists (List.filter (objExists h) all_objects). split.
  { intros obj. rewrite <- Hspec, list_elem_of_In, filter_In, <- list_elem_of_In. done. }
  assert (forallb (objExists h) (List.filter (objExists h) all_objects) = true) as Hvalid.
  { apply forallb_forall. intros obj Hobj. by apply filter_In in Hobj as [_ Hobj]. }
  unfold select_set. rewrite (proj2 (has_key_true _ _) Hname), Hrun. cbn [negb].
  destruct (List.filter (objExists h) all_objects) as [|obj valid] eqn:Hfilter; [done|].
  destruct respect_channels.
  - destruct (channel_filtering_returns h st (obj :: valid) Hvalid) as [tr Htr].
    exists tr. by rewrite Htr.
  - unfold cmds_select. rewrite Hvalid. by eexists.
Qed.

Lemma select_set_selects_existing_hierarchy_witness :
  ∃ objects,
    (∀ obj, obj ∈ objects ↔
            in_hierarchy a_over_b "a" obj ∧ objExists (cube_scene JNull) obj = true) ∧
    match objects with
    | [] =>
        select_set (cube_scene JNull) 3 a_over_b "a" false
        = Returns false a_over_b
            [Warning ("No valid objects found in set '" +:+ "a" +:+ "' or its children.")]
    | _ =>
        ∃ tr,
          select_set (cube_scene JNull) 3 a_over_b "a" false = Returns true a_over_b tr ∧
          tr = [Select objects]
    end.
Proof.
  apply (select_set_selects_existing_hierarchy (cube_scene JNull) 3 a_over_b "a" false).
  - exact a_over_b_forest.
  - vm_compute. lia.
  - apply elem_of_dom. vm_compute. by eexists.
Defined.

(** X9: selecting and exporting never change the manager: whether
    [select_set], [select_objects_with_channel_filtering],
    [select_hierarchy_chain] or [export_sets] returns or raises, the
    registries, the channel flags and the background image are the ones
    before the call. *)
Theorem selection_and_export_keep_manager (h : Host)
    (listRelatives : string → option (list string)) (fuel : nat) (st st' : Manager)
    (name : string) (objects : list string) (respect_channels : bool) :
  (left_by (select_set h fuel st name respect_channels) = Some st' → st' = st) ∧
  (left_by (select_objects_with_channel_filtering h st objects) = Some st' → st' = st) ∧
  (left_by (select_hierarchy_chain h listRelatives st name) = Some st' → st' = st) ∧
  (left_by (export_sets h st name) = Some st' → st' = st).
Proof.
  assert (∀ objs, left_by (select_objects_with_channel_filtering h st objs) = Some st' →
                  st' = st) as Hfilter.
  { intros objs. unfold select_objects_with_channel_filtering, filtering_failed.
    repeat case_match; cbn [left_by]; congruence. }
  split; [|split; [exact (Hfilter objects)|split]].
  - unfold select_set.
    destruct (negb (has_key (sets st) name)); [cbn; congruence|].
    destruct (get_all_objects_in_set_hierarchy fuel st name) as [all_objects|];
      [|discriminate].
    destruct (List.filter (objExists h) all_objects) as [|obj valid]; [cbn; congruence|].
    destruct respect_channels.
    + pose proof (Hfilter (obj :: valid)) as Hleft.
      destruct (select_objects_with_channel_filtering h st (obj :: valid));
        cbn [left_by] in *; done.
    + destruct (cmds_select h (obj :: valid)); cbn; congruence.
  - unfold select_hierarchy_chain. repeat case_match; cbn [left_by]; congruence.
  - unfold export_sets, export_failed. repeat case_match; cbn [left_by]; congruence.
Qed.

(** ** Operations on the hierarchy keep the forest *)

(** X10: the three methods that change parent pointers keep the forest.
    After [delete_set], whatever it returns, no set is its own ancestor;
    after a successful [set_parent] neither, when the child has a
    non-empty name and no set with the empty name has a parent entry; and
    after a successful [rename_set] neither, when nothing in the manager
    mentions the new name yet. *)
Theorem hierarchy_operations_keep_forest (fuel : nat) (st st' : Manager)
    (name new_name : string) (parent_name : option string) (answer : bool)
    (tr : list event) :
  forest st →
  (delete_set st name = Returns answer st' tr → forest st') ∧
  (("" ∉ dom (set_parents st)) → name ≠ "" →
   set_parent fuel st name parent_name = Returns true st' tr → forest st') ∧
  (¬ mentions st new_name →
   rename_set st name new_name = Returns true st' tr → forest st').
Proof.
  intros Hforest. split; [|split].
  - by apply delete_set_keeps_forest.
  - intros Hnamed Hname. by apply set_parent_keeps_forest.
  - intros Hfresh. by apply rename_set_keeps_forest.
Qed.

Lemma hierarchy_operations_keep_forest_witness :
  forest (state_after (delete_set a_over_b "a")) ∧
  forest (state_after (set_parent 3 a_over_b "b" None)) ∧
  forest (state_after (rename_set a_over_b "a" "c")).
Proof.
  split; [|split].
  - apply (proj1 (hierarchy_operations_keep_forest 3 a_over_b _ "a" "c" None true
                    [Warning "Set 'a' not found."] a_over_b_forest)).
    by vm_compute.
  - apply (proj1 (proj2 (hierarchy_operations_keep_forest 3 a_over_b _ "b" "c" None true []
                           a_over_b_forest))).
    + apply not_elem_of_dom. by vm_compute.
    + discriminate.
    + by vm_compute.
  - apply (proj2 (proj2 (hierarchy_operations_keep_forest 3 a_over_b _ "a" "c" None true []
                           a_over_b_forest))).
    + unfold mentions, parent_of, in_group.
      intros [H|[H|[H|[H|[H|[H|[[child H]|(g & members & H & _)]]]]]]];
        try (apply elem_of_dom in H as [v H]; vm_compute in H; discriminate).
      * each_item H; by simplify_eq.
      * vm_compute in H. discriminate.
    + by vm_compute.
Defined.

(** ** What an import keeps of a file *)

Lemma eval_preserves_on (P : Manager → Prop) {A} (x : exn + A) (k : A → proc) :
  (∀ a, x = inr a → preserves P (k a)) → preserves P (eval x k).
Proof.
  intros Hk st e st' HP. unfold eval. destruct x as [e1|a].
  - by intros [= _ <-].
  - by apply Hk.
Qed.

(** The objects kept are in the scene. *)
Lemma valid_objects_exist (h : Host) (objects : list json) :
  ∀ valid, valid_objects h objects = inr valid →
    ∀ obj, obj ∈ valid → objExists h obj = true.
Proof.
  induction objects as [|x objects IH]; intros valid; cbn.
  - intros [= <-] obj Hin. by apply elem_of_nil in Hin.
  - destruct x as [| | |s| |]; cbn; try done.
    destruct (valid_objects h objects) as [e|rest]; cbn; [done|].
    destruct (objExists h s) eqn:Hs; intros [= <-] obj Hin.
    + apply elem_of_cons in Hin as [->|Hin]; [done | by eapply IH].
    + by eapply IH.
Qed.

(** The members kept are sets. *)
Lemma valid_sets_are_sets (st : Manager) (members : list json) :
  ∀ valid, valid_sets st members = inr valid →
    ∀ s, s ∈ valid → s ∈ dom (sets st).
Proof.
  induction members as [|x members IH]; intros valid; cbn.
  - intros [= <-] s Hin. by apply elem_of_nil in Hin.
  - destruct x as [| | |name| |]; cbn; try done;
      destruct (valid_sets st members) as [e|rest]; cbn; try done;
      try (intros [= <-]; by eapply IH).
    destruct (has_key (sets st) name) eqn:Hname; intros [= <-] s Hin.
    + apply elem_of_cons in Hin as [->|Hin]; [by apply has_key_true | by eapply IH].
    + by eapply IH.
Qed.

Section Resolve.
Variable h : Host.

Lemma references_resolve_same (st st' : Manager) :
  sets st' = sets st → set_parents st' = set_parents st →
  parent_groups st' = parent_groups st →
  references_resolve h st → references_resolve h st'.
Proof. unfold references_resolve. by intros -> -> ->. Qed.

Lemma import_set_resolves (positions colors sizes transparency : json)
    (item : string * json) :
  preserves (references_resolve h)
    (import_set h positions colors sizes transparency item).
Proof.
  unfold import_set. apply eval_preserves. intros objects.
  apply eval_preserves_on. intros [|obj valid] Hvalid; [apply skip_preserves|].
  repeat apply seq_preserves;
    try (apply import_property_preserves; intros v st;
         by apply references_resolve_same).
  apply assign_preserves. intros st (Hsets & Hpointers & Hmembers).
  split; [|split]; read_fields.
  - intros k objs Hk. apply lookup_insert_Some in Hk as [[_ <-]|[_ Hk]].
    + split; [done|]. by apply (valid_objects_exist h objects).
    + by eapply Hsets.
  - intros k parent Hk. destruct (Hpointers k parent Hk) as [Hin Hparent].
    rewrite dom_insert_L. split; [by apply elem_of_union_r|].
    by apply names_a_set_insert.
  - intros g members s Hg Hs. rewrite dom_insert_L. apply elem_of_union_r.
    by eapply Hmembers.
Qed.

Lemma import_parent_resolves (item : string * json) :
  preserves (references_resolve h) (import_parent item).
Proof.
  assert (∀ st parent, item.1 ∈ dom (sets st) → names_a_set (sets st) parent →
            references_resolve h st →
            references_resolve h
              (with_set_parents (<[item.1 := parent]> (set_parents st)) st)) as Hstore.
  { intros st parent Hname Hparent (Hsets & Hpointers & Hmembers).
    split; [|split]; read_fields; [done | | done].
    intros k q Hk. apply lookup_insert_Some in Hk as [[<- <-]|[_ Hk]]; [done|].
    by apply Hpointers. }
  intros st e st' Hres. unfold import_parent.
  destruct (has_key (sets st) item.1) eqn:Hname; [|by intros [= _ <-]].
  apply has_key_true in Hname.
  destruct item.2 as [| | |p| |] eqn:Hitem; cbn; try by intros [= _ <-].
  - intros [= _ <-]. by apply Hstore.
  - destruct (has_key (sets st) p) eqn:Hp; intros [= _ <-]; [|done].
    apply Hstore; [done | | done]. by apply has_key_true.
Qed.

Lemma import_group_resolves (positions colors sizes transparency : json)
    (item : string * json) :
  preserves (references_resolve h)
    (import_group positions colors sizes transparency item).
Proof.
  intros st e st' Hres. unfold import_group, eval.
  destruct (Py.iter item.2) as [e1|members]; [by intros [= _ <-]|].
  destruct (valid_sets st members) as [e1|valid] eqn:Hvalid; [by intros [= _ <-]|].
  unfold seq at 1. unfold assign at 1.
  set (st1 := with_parent_groups _ st).
  assert (references_resolve h st1) as Hres1.
  { destruct Hres as (Hsets & Hpointers & Hmembers).
    split; [|split]; unfold st1; read_fields; [done | done |].
    intros g members' s Hg Hs. apply lookup_insert_Some in Hg as [[_ <-]|[_ Hg]].
    - by apply (valid_sets_are_sets st members valid).
    - by eapply Hmembers. }
  revert Hres1. generalize st1. clear st1 Hres. intros st1 Hres1 Hrun.
  assert (preserves (references_resolve h)
            (seq (import_property positions item.1
                    (fun st => JList [JNum 20;
                                      JNum (20 + Z.of_nat (size (parent_groups st)) * 30)])
                    (fun v st => with_group_positions (<[item.1 := v]> (group_positions st)) st))
            (seq (import_property colors item.1
                    (fun _ => JList [JNum 100; JNum 100; JNum 60])
                    (fun v st => with_group_colors (<[item.1 := v]> (group_colors st)) st))
            (seq (import_property sizes item.1
                    (fun _ => JList [JNum 300; JNum 200])
                    (fun v st => with_group_sizes (<[item.1 := v]> (group_sizes st)) st))
                 (import_property transparency item.1
                    (fun _ => JNum 180)
                    (fun v st =>
                       with_group_transparency (<[item.1 := v]> (group_transparency st)) st))))))
    as Hrest.
  { repeat apply seq_preserves;
      apply import_property_preserves; intros v st0; by apply references_resolve_same. }
  by eapply Hrest.
Qed.

Lemma import_registries_resolve (data : list (string * json)) (st st' : Manager) :
  import_registries h data st = (None, st') → references_resolve h st'.
Proof.
  unfold import_registries. unfold seq at 1.
  destruct (import_channels _ st) as [[e|] st0]; [discriminate|].
  unfold seq at 1. unfold assign at 1. intros Hrun.
  assert (references_resolve h (clear_registries st0)) as Hcleared.
  { split; [|split]; cbn; intros;
      match goal with H : ∅ !! _ = Some _ |- _ => by rewrite lookup_empty in H end. }
  revert Hrun. generalize (clear_registries st0) Hcleared. intros st1 Hres Hrun.
  assert (preserves (references_resolve h)
            (seq (eval (Py.items (Py.get "sets" (JDict []) data))
                    (for_each (import_set h (Py.get "positions" (JDict []) data)
                                 (Py.get "colors" (JDict []) data)
                                 (Py.get "sizes" (JDict []) data)
                                 (Py.get "transparency" (JDict []) data))))
            (seq (eval (Py.items (Py.get "parents" (JDict []) data)) (for_each import_parent))
                 (eval (Py.items (Py.get "parent_groups" (JDict []) data))
                    (for_each (import_group (Py.get "group_positions" (JDict []) data)
                                 (Py.get "group_colors" (JDict []) data)
                                 (Py.get "group_sizes" (JDict []) data)
                                 (Py.get "group_transparency" (JDict []) data)))))))
    as Hloops.
  { repeat apply seq_preserves; apply eval_preserves; intros items;
      apply for_each_preserves.
    - apply import_set_resolves.
    - apply import_parent_resolves.
    - apply import_group_resolves. }
  by eapply Hloops.
Qed.

End Resolve.

Lemma import_background_keeps_registries (h : Host) (data : list (string * json))
    (path : string) (st : Manager) :
  sets (import_background h data path st).1 = sets st ∧
  set_parents (import_background h data path st).1 = set_parents st ∧
  parent_groups (import_background h data path st).1 = parent_groups st ∧
  active_channels (import_background h data path st).1 = active_channels st.
Proof.
  unfold import_background.
  destruct (Py.get "background_image" JNull data) as [| | | | |[|item d]]; try done.
  by destruct (restore_image h _ path).
Qed.

(** X11: whatever the file holds, after an [import_sets] that returns
    [True] every set of the manager holds at least one object and all its
    objects exist in the scene, every parent entry belongs to a set and is
    null or the name of a set, and every member of every parent group is a
    set: objects and references of the file that do not resolve are left
    out, a set without a resolving object is not created. *)
Theorem import_sets_keeps_what_resolves (h : Host) (st st' : Manager) (path : string)
    (tr : list event) :
  import_sets h st path = Returns true st' tr →
  references_resolve h st'.
Proof.
  unfold import_sets, import_failed.
  destruct (json_load h path) as [e|[| | | | |data]]; try discriminate.
  destruct (Py.assoc "sets" data); [|discriminate].
  destruct (import_registries h data st) as [[e|] st1] eqn:Hrun; [discriminate|].
  pose proof (import_background_keeps_registries h data path st1)
    as (Hsets & Hparents & Hgroups & _).
  destruct (import_background h data path st1) as [st2 tr2].
  intros [= <- _]. apply (references_resolve_same h st1); try done.
  by eapply import_registries_resolve.
Qed.

Lemma import_sets_keeps_what_resolves_witness :
  let h := cube_scene dangling_file in
  references_resolve h (state_after (import_sets h init "sets.json")).
Proof.
  intros h.
  apply (import_sets_keeps_what_resolves h init _ "sets.json" []).
  by vm_compute.
Defined.

(** ** An import replaces the registries *)

Lemma with_own_channels (st : Manager) : with_active_channels (active_channels st) st = st.
Proof. by destruct st. Qed.

Lemma import_channel_loop (items : list (string * json)) :
  ∀ st, for_each import_channel items st
        = (None, with_active_channels (channels_after items (active_channels st)) st).
Proof.
  induction items as [|item items IH]; intros st.
  - cbn. unfold skip. by rewrite with_own_channels.
  - cbn [for_each channels_after foldl]. unfold seq, import_channel at 1, assign.
    rewrite IH. f_equal.
    destruct (assign_channel item.1 item.2 (active_channels st)) as [c|]; [|done].
    by destruct st.
Qed.

(** The loop over the channels reads and writes the flags only. *)
Lemma import_channels_on_flags (channels : json) (st : Manager) :
  (∃ e, ∀ st0, import_channels channels st0 = (Some e, st0)) ∨
  (∃ after : Channels → Channels,
     ∀ st0, import_channels channels st0
            = (None, with_active_channels (after (active_channels st0)) st0)).
Proof.
  unfold import_channels. destruct (Py.truthy channels).
  - unfold eval. destruct (Py.items channels) as [e|items].
    + left. by exists e.
    + right. exists (channels_after items). intros st0. apply import_channel_loop.
  - right. exists (fun c => c). intros st0. unfold skip. by rewrite with_own_channels.
Qed.

(** X12: a successful [import_sets] is a full replacement: two managers
    with the same channel flags and the same background image path end, on
    the same file, in the same state with the same commands sent, whatever
    sets, parent pointers, groups and visual properties each held before. *)
Theorem import_sets_replaces_registries (h : Host) (st1 st2 st' : Manager)
    (path : string) (tr : list event) :
  active_channels st1 = active_channels st2 →
  background_image st1 = background_image st2 →
  import_sets h st1 path = Returns true st' tr →
  import_sets h st2 path = Returns true st' tr.
Proof.
  intros Hchannels Himage. unfold import_sets, import_failed.
  destruct (json_load h path) as [e|[| | | | |data]]; try discriminate.
  destruct (Py.assoc "sets" data); [|discriminate].
  assert (∀ st0, import_registries h data st1 = (None, st0) →
                 import_registries h data st2 = (None, st0)) as Hsame.
  { intros st0. unfold import_registries. unfold seq at 1 5.
    destruct (import_channels_on_flags (Py.get "channels" (JDict []) data) st1)
      as [[e Hraise]|[after Hrun]].
    - by rewrite Hraise.
    - rewrite !Hrun. unfold seq at 1 4. unfold assign at 1 2.
      assert (clear_registries (with_active_channels (after (active_channels st1)) st1)
              = clear_registries (with_active_channels (after (active_channels st2)) st2))
        as ->; [|done].
      unfold clear_registries. cbn. by rewrite Hchannels, Himage. }
  destruct (import_registries h data st1) as [[e|] st0] eqn:Hrun; [discriminate|].
  by rewrite (Hsame st0 eq_refl).
Qed.

Lemma import_sets_replaces_registries_witness :
  let h := cube_scene two_groups_file in
  import_sets h a_over_b "sets.json"
  = Returns true (state_after (import_sets h init "sets.json")) [].
Proof.
  intros h.
  apply (import_sets_replaces_registries h init a_over_b _ "sets.json" []);
    by vm_compute.
Defined.

(** ** Short names of scene paths *)

Lemma append_assoc (a b c : string) : (a +:+ b) +:+ c = a +:+ (b +:+ c).
Proof.
  induction a as [|x a IH]; [done|].
  change (String x ((a +:+ b) +:+ c) = String x (a +:+ (b +:+ c))). by rewrite IH.
Qed.

Lemma append_empty_r (a : string) : a +:+ "" = a.
Proof.
  induction a as [|x a IH]; [done|].
  change (String x (a +:+ "") = String x a). by rewrite IH.
Qed.

Lemma split_nonempty (sep : Ascii.ascii) (s : string) : split sep s ≠ [].
Proof.
  destruct s as [|c s]; cbn; [done|].
  destruct (Ascii.eqb c sep); [done|]. by destruct (split sep s).
Qed.

(** Joining the pieces with the separator gives the string back. *)
Lemma split_join (sep : Ascii.ascii) (s : string) :
  String.concat (String sep "") (split sep s) = s.
Proof.
  induction s as [|c s IH]; [done|]. cbn [split].
  pose proof (split_nonempty sep s) as Hne.
  destruct (Ascii.eqb_spec c sep) as [->|Hc].
  - destruct (split sep s) as [|piece pieces]; [done|].
    change (String sep (String.concat (String sep "") (piece :: pieces)) = String sep s).
    by rewrite IH.
  - destruct (split sep s) as [|piece pieces]; [done|].
    rewrite <- IH. by destruct pieces.
Qed.

(** No piece holds the separator. *)
Lemma split_pieces_plain (sep : Ascii.ascii) (s : string) :
  ∀ piece, piece ∈ split sep s → ∀ a b, piece ≠ a +:+ String sep b.
Proof.
  induction s as [|c s IH]; intros piece; cbn [split].
  - intros ->%list_elem_of_singleton a b. by destruct a.
  - pose proof (split_nonempty sep s) as Hne.
    destruct (Ascii.eqb_spec c sep) as [->|Hc].
    + intros [->|Hin]%elem_of_cons; [intros a b; by destruct a | by apply IH].
    + destruct (split sep s) as [|first pieces]; [done|].
      intros [->|Hin]%elem_of_cons.
      * intros [|x a] b; cbn; intros [= ? Hrest]; [done|].
        eapply (IH first); [by left | exact Hrest].
      * apply IH. by right.
Qed.

Lemma concat_snoc (sep : string) (pieces : list string) (piece : string) :
  String.concat sep (pieces ++ [piece])
  = match pieces with
    | [] => piece
    | _ => String.concat sep pieces +:+ sep +:+ piece
    end.
Proof.
  induction pieces as [|p pieces IH]; [done|].
  destruct pieces as [|q pieces]; [done|].
  change (p +:+ sep +:+ String.concat sep ((q :: pieces) ++ [piece])
          = (p +:+ sep +:+ String.concat sep (q :: pieces)) +:+ sep +:+ piece).
  rewrite IH. by rewrite !append_assoc.
Qed.

(** X13: [short_name] returns the last component of a path: the path is
    the short name itself, or something ending in ["|"] followed by the
    short name, and the short name holds no ["|"]. *)
Theorem short_name_is_last_component (full_path : string) :
  (∃ prefix, full_path = prefix +:+ short_name full_path ∧
             (prefix = "" ∨ ∃ front, prefix = front +:+ "|")) ∧
  (∀ a b, short_name full_path ≠ a +:+ "|" +:+ b).
Proof.
  unfold short_name.
  destruct (last (split "|" full_path)) as [piece|] eqn:Hlast.
  2:{ apply last_None in Hlast. by apply split_nonempty in Hlast. }
  pose proof (split_join "|" full_path) as Hjoin.
  pose proof (split_pieces_plain "|" full_path piece (last_Some_elem_of _ _ Hlast))
    as Hplain.
  apply last_Some in Hlast as [front Hfront]. rewrite Hfront, concat_snoc in Hjoin.
  split; [|exact Hplain].
  destruct front as [|p front].
  - exists "". split; [done | by left].
  - exists (String.concat "|" (p :: front) +:+ "|"). split.
    + by rewrite append_assoc.
    + right. by eexists.
Qed.

(** ** Unique names over a list *)

Lemma unique_name_ext (taken taken' : string → bool) (base : string) (fuel : nat) :
  (∀ name, taken name = taken' name) →
  ∀ candidate counter,
    unique_name fuel taken base candidate counter
    = unique_name fuel taken' base candidate counter.
Proof.
  intros Hext. induction fuel as [|fuel IH]; intros candidate counter; cbn; [done|].
  rewrite Hext. by rewrite IH.
Qed.

Lemma size_list_to_set_le (l : list string) :
  (size (list_to_set l : gset string) ≤ length l)%nat.
Proof.
  induction l as [|x l IH]; cbn; [by rewrite size_empty|].
  rewrite size_union_alt, size_singleton.
  pose proof (subseteq_size (list_to_set l ∖ {[x]}) (list_to_set l : gset string)) as Hle.
  assert (list_to_set l ∖ {[x]} ⊆ (list_to_set l : gset string)) as Hsub.
  { intros y Hy. by apply elem_of_difference in Hy as [? _]. }
  specialize (Hle Hsub). lia.
Qed.

(** X14: with a step budget above the number of names given,
    [get_unique_name] returns a name that is not in the list: the base name
    when it is not in the list, otherwise [base_k] for the least [k >= 1]
    whose name is not in the list. *)
Theorem get_unique_name_first_free (fuel : nat) (base_name : string)
    (existing_names : list string) :
  (length existing_names < fuel)%nat →
  ∃ found,
    get_unique_name fuel base_name existing_names = Some found ∧
    (found ∉ existing_names) ∧
    ((found = base_name ∧ base_name ∉ existing_names) ∨
     ∃ k : nat, (1 ≤ k)%nat ∧ found = numbered base_name k ∧
       base_name ∈ existing_names ∧
       ∀ j : nat, (1 ≤ j < k)%nat → numbered base_name j ∈ existing_names).
Proof.
  intros Hfuel. unfold get_unique_name.
  set (registry := gset_to_gmap () (list_to_set existing_names : gset string)).
  assert (∀ name, Py.mem name existing_names = has_key registry name) as Hext.
  { intros name. unfold has_key, registry. rewrite lookup_gset_to_gmap.
    destruct (Py.mem name existing_names) eqn:Hmem.
    - apply mem_true in Hmem. rewrite option_guard_True; [done|].
      by apply elem_of_list_to_set.
    - rewrite option_guard_False; [done|]. intros Hin%elem_of_list_to_set.
      apply mem_true in Hin. congruence. }
  rewrite (unique_name_ext _ _ _ _ Hext).
  destruct (unique_name_free registry base_name) as (found & _ & _ & Hrun).
  assert (size registry < fuel)%nat as Hsize.
  { unfold registry. rewrite <- size_dom, dom_gset_to_gmap.
    pose proof (size_list_to_set_le existing_names). lia. }
  specialize (Hrun fuel Hsize). exists found. split; [done|].
  assert (∀ name, has_key registry name = true ↔ name ∈ existing_names) as Hin.
  { intros name. by rewrite <- Hext, mem_true. }
  assert (∀ name, has_key registry name = false → name ∉ existing_names) as Hout.
  { intros name Hfalse Hname. apply Hin in Hname. congruence. }
  destruct (unique_name_first_free _ _ _ _ _ _ Hrun)
    as [[-> Hfree]|(k & Hk & -> & Htaken & Hfree & Hbelow)].
  - split; [by apply Hout|]. left. split; [done | by apply Hout].
  - split; [by apply Hout|]. right. exists k. do 2 (split; [done|]).
    split; [by apply Hin|]. intros j Hj. by apply Hin, Hbelow.
Qed.

Lemma get_unique_name_first_free_witness :
  ∃ found,
    get_unique_name 3 "ctrl" ["ctrl"; "ctrl_1"] = Some found ∧
    (found ∉ ["ctrl"; "ctrl_1"]) ∧
    ((found = "ctrl" ∧ "ctrl" ∉ ["ctrl"; "ctrl_1"]) ∨
     ∃ k : nat, (1 ≤ k)%nat ∧ found = numbered "ctrl" k ∧
       "ctrl" ∈ ["ctrl"; "ctrl_1"] ∧
       ∀ j : nat, (1 ≤ j < k)%nat → numbered "ctrl" j ∈ ["ctrl"; "ctrl_1"]).
Proof.
  apply (get_unique_name_first_free 3 "ctrl" ["ctrl"; "ctrl_1"]). cbn. lia.
Defined.

(** ** Sets made of a hierarchy chain *)

Lemma host_step_objects (h : Host) (e : event) : objExists (host_step h e) = objExists h.
Proof. by destruct e. Qed.

(** X15: for a top node that exists, a chain and a current selection whose
    objects exist, numeric stored positions and a step budget above the
    number of sets, [create_chain_set] returns the name of a new set that
    holds the top node followed by its descendants; the name is the one
    given, or [<short name of the top node>_Chain] when none or an empty
    one is given, or that name with a counter when it is taken.  The
    selection the user had is selected again at the end (or the selection
    is cleared when there was none), and a top node that does not exist
    gives [None] with a warning and changes nothing. *)
Theorem create_chain_set_keeps_selection (h : Host)
    (listRelatives : string → option (list string)) (fuel : nat) (st : Manager)
    (top_node : string) (name : option string) :
  (objExists h top_node = false →
   create_chain_set h listRelatives fuel st top_node name
   = Returns None st [missing_object_warning top_node]) ∧
  (forallb (objExists h) (full_chain listRelatives top_node) = true →
   forallb (objExists h) (selection h) = true →
   numeric_positions (set_positions st) →
   (size (sets st) < fuel)%nat →
   let base := if Py.name_truthy name then name_of name
               else short_name top_node +:+ "_Chain" in
   ∃ set_name st' tr,
     create_chain_set h listRelatives fuel st top_node name
     = Returns (Some set_name) st' tr ∧
     (set_name ∉ dom (sets st)) ∧
     (set_name = base ∨ ∃ k : nat, (1 ≤ k)%nat ∧ set_name = numbered base k) ∧
     sets st' = <[set_name := full_chain listRelatives top_node]> (sets st) ∧
     selection (host_after h tr) = selection h).
Proof.
  split.
  - intros Hmissing. unfold create_chain_set. by rewrite Hmissing.
  - intros Hchain Hselection Hnum Hfuel base.
    assert (objExists h top_node = true) as Htop.
    { cbn in Hchain. by apply andb_true_iff in Hchain as [? _]. }
    set (h1 := host_step h (Select (full_chain listRelatives top_node))).
    destruct (create_set_picks_free_name h1 st base)
      as (set_name & st' & Hfree & Hshape & Hsets & Hrun); [done | done |].
    specialize (Hrun fuel Hfuel).
    unfold create_chain_set, cmds_select. rewrite Htop, Hchain. cbn [negb].
    assert ((match name with
             | Some s => if Py.name_truthy name then s
                         else short_name top_node +:+ "_Chain"
             | None => short_name top_node +:+ "_Chain"
             end) = base) as ->.
    { unfold base. destruct name as [s|]; [|done]. by destruct (Py.name_truthy (Some s)). }
    fold h1. rewrite Hrun. cbn [host_after foldl app].
    destruct (selection h) as [|obj objs] eqn:Hcurrent.
    + exists set_name, st', [Select (full_chain listRelatives top_node); SelectClear].
      done.
    + unfold h1 at 1. rewrite host_step_objects, Hselection.
      exists set_name, st',
        [Select (full_chain listRelatives top_node); Select (obj :: objs)].
      done.
Qed.

Lemma create_chain_set_keeps_selection_witness :
  ∃ set_name st' tr,
    create_chain_set rig_scene rig_relatives 2 init "|rig" None
    = Returns (Some set_name) st' tr ∧
    (set_name ∉ dom (sets init)) ∧
    (set_name = "rig_Chain" ∨ ∃ k : nat, (1 ≤ k)%nat ∧ set_name = numbered "rig_Chain" k) ∧
    sets st' = <[set_name := ["|rig"; "|rig|arm"; "|rig|arm|hand"]]> (sets init) ∧
    selection (host_after rig_scene tr) = ["pCube1"].
Proof.
  apply (proj2 (create_chain_set_keeps_selection rig_scene rig_relatives 2 init "|rig" None)).
  - reflexivity.
  - reflexivity.
  - intros name pos H. cbn in H. by rewrite lookup_empty in H.
  - vm_compute. lia.
Defined.

(** ** What every reachable state satisfies *)

(** X16: in every state the manager reaches from a new one by calls of its
    methods, [import_sets] included, every set holds at least one object,
    every parent entry belongs to an existing set, and every parent pointer
    names an existing set or is the empty string. *)
Theorem reachable_states_keep_sets_and_pointers (st : Manager) :
  reachable st →
  (∀ name objects, sets st !! name = Some objects → objects ≠ []) ∧
  (∀ name, name ∈ dom (set_parents st) → name ∈ dom (sets st)) ∧
  (∀ child parent, parent_of st child parent → parent ∈ dom (sets st) ∨ parent = "").
Proof.
  intros Hreach. destruct (reachable_well_formed st Hreach) as [Hsets Hpointers].
  split; [exact Hsets|]. split.
  - intros name [parent Hname]%elem_of_dom. by destruct (Hpointers name parent Hname).
  - intros child parent Hchild. destruct (Hpointers child _ Hchild) as [_ [Hp|Hp]].
    + by left.
    + right. congruence.
Qed.

Lemma reachable_states_keep_sets_and_pointers_witness :
  (∀ name objects, sets family_in_group !! name = Some objects → objects ≠ []) ∧
  (∀ name, name ∈ dom (set_parents family_in_group) → name ∈ dom (sets family_in_group)) ∧
  (∀ child parent, parent_of family_in_group child parent →
     parent ∈ dom (sets family_in_group) ∨ parent = "").
Proof.
  apply (reachable_states_keep_sets_and_pointers family_in_group).
  exact family_in_group_reachable.
Defined.

(** ** The forest, for calls that name every set *)

Lemma numbered_named (name : string) (k : nat) : numbered name k ≠ "".
Proof. unfold numbered. by destruct name. Qed.

Lemma named_same_hierarchy (st st' : Manager) :
  sets st' = sets st → set_parents st' = set_parents st →
  forest st ∧ named_hierarchy st → forest st' ∧ named_hierarchy st'.
Proof.
  unfold forest, parent_of, named_hierarchy. by intros -> ->.
Qed.

(** Renaming to a name that no parent entry uses, as a key or as a pointer,
    renames the nodes of the forest. *)
Lemma rename_set_keeps_forest_unreferenced (st st' : Manager) (old_name new_name : string)
    (tr : list event) :
  forest st →
  new_name ∉ dom (set_parents st) →
  (∀ child, ¬ parent_of st child new_name) →
  rename_set st old_name new_name = Returns true st' tr →
  forest st'.
Proof.
  intros Hforest Hkey Hpointer Hrun.
  unfold rename_set in Hrun.
  destruct (sets st !! old_name) as [objects|] eqn:Hold; [|discriminate].
  destruct (has_key (sets st) new_name) eqn:Hnew; [discriminate|].
  assert (old_name ≠ new_name) as Hne.
  { intros ->. unfold has_key in Hnew. by rewrite Hold in Hnew. }
  injection Hrun as <- _.
  set (back := fun x : string => if decide (x = new_name) then old_name else x).
  intros x Hcycle. apply (Hforest (back x)).
  refine (tc_congruence back (parent_of st) x x _ Hcycle).
  clear x Hcycle. intros x y. unfold parent_of. read_fields.
  rewrite lookup_repoint. intros Hstep.
  assert (∃ q, set_parents st !! back x = Some q ∧
               (if decide (q = Some old_name) then Some new_name else q) = Some y)
    as (q & Hq & Hy).
  { unfold back, move_key in *.
    destruct (set_parents st !! old_name) as [v|] eqn:Hv.
    - destruct (decide (x = new_name)) as [->|Hx].
      + rewrite lookup_delete_ne, lookup_insert_eq in Hstep by done.
        cbn in Hstep. exists v. split; [done | congruence].
      + destruct (decide (x = old_name)) as [->|Hx'].
        * by rewrite lookup_delete_eq in Hstep.
        * rewrite lookup_delete_ne, lookup_insert_ne in Hstep by done.
          destruct (set_parents st !! x) as [q|]; [|done].
          cbn in Hstep. exists q. split; [done | congruence].
    - destruct (decide (x = new_name)) as [->|Hx].
      + apply not_elem_of_dom in Hkey. by rewrite Hkey in Hstep.
      + destruct (set_parents st !! x) as [q|]; [|done].
        cbn in Hstep. exists q. split; [done | congruence]. }
  case_decide as Hold_parent.
  - injection Hy as <-. unfold back at 2. rewrite decide_True by done.
    by rewrite Hq, Hold_parent.
  - subst q. unfold back at 2. rewrite decide_False; [done|].
    intros ->. by apply (Hpointer (back x)).
Qed.

Lemma create_set_named (h : Host) (fuel : nat) (st st' : Manager) (name : string) :
  forest st ∧ named_hierarchy st →
  name ≠ "" →
  left_by (create_set h fuel st name) = Some st' →
  forest st' ∧ named_hierarchy st'.
Proof.
  intros [Hforest [Hnamed Hpointers]] Hname. unfold create_set.
  destruct (selection h) as [|obj objs]; [by intros [= <-]|].
  destruct (unique_name fuel (has_key (sets st)) name name 1) as [set_name|] eqn:Hrun;
    [|discriminate].
  assert (set_name ≠ "") as Hset_name.
  { destruct (unique_name_first_free _ _ _ _ _ _ Hrun) as [[-> _]|(k & _ & -> & _)];
      [done | apply numbered_named]. }
  assert (∀ parents,
            (∀ x y, parents !! x = Some (Some y) → set_parents st !! x = Some (Some y)) →
            (∀ x q, parents !! x = Some q →
                    x = set_name ∧ q = None ∨ set_parents st !! x = Some q) →
            ∀ st1, sets st1 = <[set_name := obj :: objs]> (sets st) →
                   set_parents st1 = parents →
                   forest st1 ∧ named_hierarchy st1) as Hbuilt.
  { intros parents Hedges Hentries st1 Hsets1 Hparents1. split; [|split].
    - apply (fewer_edges_keep_forest st); [|done].
      intros x y. unfold parent_of. rewrite Hparents1. apply Hedges.
    - rewrite Hsets1, dom_insert_L. intros [Hin|Hin]%elem_of_union; [|done].
      apply elem_of_singleton in Hin. done.
    - intros x q. rewrite Hparents1, Hsets1, dom_insert_L. intros Hx.
      destruct (Hentries x q Hx) as [[-> ->]|Hold].
      + split; [|done]. apply elem_of_union_l. by apply elem_of_singleton.
      + destruct (Hpointers x q Hold) as [Hin Hq].
        split; [by apply elem_of_union_r|].
        by apply names_a_set_insert. }
  match goal with
  | |- context [match ?position with inl _ => _ | inr _ => _ end] =>
      destruct position as [e|pos]
  end; intros [= <-].
  - apply (Hbuilt (set_parents st)); [done | | done | done]. intros x q Hx. by right.
  - apply (Hbuilt (<[set_name := None]> (set_parents st))); [| | done | done].
    + intros x y Hx. apply lookup_insert_Some in Hx as [[_ ?]|[_ Hx]]; done.
    + intros x q Hx. apply lookup_insert_Some in Hx as [[<- <-]|[_ Hx]]; [by left | by right].
Qed.

Lemma set_parent_named (fuel : nat) (st st' : Manager) (child : string)
    (parent_name : option string) :
  forest st ∧ named_hierarchy st →
  parent_name ≠ Some "" →
  left_by (set_parent fuel st child parent_name) = Some st' →
  forest st' ∧ named_hierarchy st'.
Proof.
  intros [Hforest [Hnamed Hpointers]] Hparent Hleft.
  destruct (set_parent fuel st child parent_name) as [answer st1 tr| |] eqn:Hrun;
    try discriminate.
  2:{ unfold set_parent in Hrun. repeat case_match; discriminate. }
  injection Hleft as ->.
  destruct answer.
  2:{ assert (st' = st) as ->; [|done].
      unfold set_parent in Hrun. repeat case_match; by simplify_eq. }
  assert (child ∈ dom (sets st)) as Hchild.
  { unfold set_parent in Hrun. destruct (has_key (sets st) child) eqn:Hc.
    - by apply has_key_true.
    - discriminate. }
  assert (names_a_set (sets st) parent_name) as Hgood.
  { destruct parent_name as [p|]; [|done]. cbn. unfold set_parent in Hrun.
    rewrite (proj2 (has_key_true _ _) Hchild) in Hrun. cbn [negb name_of] in Hrun.
    assert (Py.name_truthy (Some p) = true) as Htruthy.
    { apply name_truthy_Some. congruence. }
    rewrite Htruthy in Hrun. cbn [andb] in Hrun.
    destruct (has_key (sets st) p) eqn:Hp; [by apply has_key_true | discriminate]. }
  assert (set_parents st' = <[child := parent_name]> (set_parents st) ∧ sets st' = sets st)
    as [Hparents Hsets].
  { unfold set_parent in Hrun. repeat case_match; by simplify_eq. }
  split; [|split].
  - apply (set_parent_keeps_forest fuel st st' child parent_name tr); try done.
    + intros [q Hq]%elem_of_dom. by destruct (Hpointers "" q Hq).
    + intros ->. done.
  - by rewrite Hsets.
  - intros x q. rewrite Hparents, Hsets. intros Hx.
    apply lookup_insert_Some in Hx as [[<- <-]|[_ Hx]]; [done | by apply Hpointers].
Qed.

Lemma delete_set_named (st st' : Manager) (name : string) :
  forest st ∧ named_hierarchy st →
  left_by (delete_set st name) = Some st' →
  forest st' ∧ named_hierarchy st'.
Proof.
  intros [Hforest [Hnamed Hpointers]] Hleft.
  destruct (decide (name ∈ dom (sets st))) as [Hin|Hout].
  2:{ unfold delete_set in Hleft. rewrite (proj2 (has_key_false _ _) Hout) in Hleft.
      by injection Hleft as <-. }
  destruct (delete_set_orphans_children st name Hin)
    as (st1 & Hrun & Hsets & _ & _ & _ & _ & Hparents & _).
  rewrite Hrun in Hleft. injection Hleft as ->.
  split; [by eapply delete_set_keeps_forest|]. split.
  - rewrite Hsets, dom_delete_L. intros [? _]%elem_of_difference. done.
  - intros x q. rewrite Hparents, Hsets, lookup_repoint, dom_delete_L.
    destruct (decide (x = name)) as [->|Hx]; [by rewrite lookup_delete_eq|].
    rewrite lookup_delete_ne by done.
    destruct (set_parents st !! x) as [q0|] eqn:Hq0; [|done]. cbn. intros [= <-].
    destruct (Hpointers x q0 Hq0) as [Hxin Hq0good]. split.
    + apply elem_of_difference. split; [done|]. by intros ?%elem_of_singleton.
    + case_decide as Hq; [done|]. destruct q0 as [p|]; [|done].
      unfold names_a_set in *. rewrite dom_delete_L.
      apply elem_of_difference. split; [done|].
      intros ?%elem_of_singleton. congruence.
Qed.

Lemma rename_set_named (st st' : Manager) (old_name new_name : string) :
  forest st ∧ named_hierarchy st →
  new_name ≠ "" →
  left_by (rename_set st old_name new_name) = Some st' →
  forest st' ∧ named_hierarchy st'.
Proof.
  intros [Hforest [Hnamed Hpointers]] Hnew Hleft.
  destruct (rename_set st old_name new_name) as [answer st1 tr| |] eqn:Hrun;
    try discriminate.
  2:{ unfold rename_set in Hrun. repeat case_match; discriminate. }
  injection Hleft as ->.
  destruct answer.
  2:{ assert (st' = st) as ->; [|done].
      unfold rename_set in Hrun. repeat case_match; by simplify_eq. }
  assert (∃ objects, sets st !! old_name = Some objects ∧ (new_name ∉ dom (sets st)) ∧
            sets st' = delete old_name (<[new_name := objects]> (sets st)) ∧
            set_parents st'
            = repoint old_name (Some new_name)
                (move_key old_name new_name (set_parents st)))
    as (objects & Hold & Hfresh & Hsets & Hparents).
  { unfold rename_set in Hrun.
    destruct (sets st !! old_name) as [objects|]; [|discriminate].
    destruct (has_key (sets st) new_name) eqn:Hkey; [discriminate|].
    injection Hrun as <- _. exists objects. by apply has_key_false in Hkey. }
  assert (old_name ≠ new_name) as Hne.
  { intros ->. apply Hfresh, elem_of_dom. by eexists. }
  assert (∀ x, x ∈ dom (sets st) → x ≠ old_name → x ∈ dom (sets st')) as Hstays.
  { intros x Hx Hxne. rewrite Hsets, dom_delete_L, dom_insert_L.
    apply elem_of_difference. split; [by apply elem_of_union_r|].
    by intros ?%elem_of_singleton. }
  assert (new_name ∈ dom (sets st')) as Hthere.
  { rewrite Hsets, dom_delete_L, dom_insert_L.
    apply elem_of_difference. split; [apply elem_of_union_l; by apply elem_of_singleton|].
    intros ?%elem_of_singleton. congruence. }
  split; [|split].
  - apply (rename_set_keeps_forest_unreferenced st st' old_name new_name tr); try done.
    + intros [q Hq]%elem_of_dom. by destruct (Hpointers new_name q Hq).
    + intros child Hchild. by destruct (Hpointers child _ Hchild) as [_ ?].
  - rewrite Hsets, dom_delete_L, dom_insert_L.
    intros [[Hin|Hin]%elem_of_union _]%elem_of_difference; [|done].
    apply elem_of_singleton in Hin. done.
  - intros x q. rewrite Hparents, lookup_repoint. intros Hx.
    assert (∃ x0 q0, set_parents st !! x0 = Some q0 ∧
              (x = new_name ∧ x0 = old_name ∨ x = x0 ∧ x0 ≠ old_name) ∧
              q = if decide (q0 = Some old_name) then Some new_name else q0)
      as (x0 & q0 & Hq0 & Hkey & ->).
    { unfold move_key in Hx.
      destruct (set_parents st !! old_name) as [v|] eqn:Hv.
      - destruct (decide (x = old_name)) as [->|Hxold];
          [by rewrite lookup_delete_eq in Hx|].
        rewrite lookup_delete_ne in Hx by done.
        destruct (decide (x = new_name)) as [->|Hxnew].
        + rewrite lookup_insert_eq in Hx. cbn in Hx. injection Hx as <-.
          exists old_name, v. split; [done|]. split; [by left | done].
        + rewrite lookup_insert_ne in Hx by done.
          destruct (set_parents st !! x) as [q0|] eqn:Hq0; [|done].
          cbn in Hx. injection Hx as <-. exists x, q0. split; [done|].
          split; [by right | done].
      - destruct (set_parents st !! x) as [q0|] eqn:Hq0; [|done].
        cbn in Hx. injection Hx as <-. exists x, q0. split; [done|]. split; [|done].
        right. split; [done|]. intros ->. congruence. }
    destruct (Hpointers x0 q0 Hq0) as [Hx0 Hq0good]. split.
    + destruct Hkey as [[-> _]|[-> Hx0ne]]; [done | by apply Hstays].
    + case_decide as Hq; [done|]. destruct q0 as [p|]; [|done].
      unfold names_a_set in *. apply Hstays; [done | congruence].
Qed.

(** The calls that leave the sets and the parent pointers alone. *)
Ltac same_named H IH :=
  repeat (case_match; try discriminate);
  cbn [left_by] in *; simplify_eq;
  exact (named_same_hierarchy _ _ eq_refl eq_refl IH).

(** X17: in every state reached from a new manager by calls other than
    [import_sets] that give no set the empty string as its name and name no
    parent by it, no set is its own ancestor, no set has the empty name,
    and every parent entry belongs to a set and is null or the name of a
    set. *)
Theorem named_calls_keep_forest (st : Manager) :
  reachable_by_named_calls st → forest st ∧ named_hierarchy st.
Proof.
  induction 1 as [|c st st' _ IH Hnamed Hcall].
  { split; [|split].
    - intros x H. destruct H as [? ? Hstep|? ? ? Hstep _];
        unfold parent_of in Hstep; cbn in Hstep; by rewrite lookup_empty in Hstep.
    - cbn. apply not_elem_of_empty.
    - intros name parent H. cbn in H. by rewrite lookup_empty in H. }
  destruct c; cbn [perform named_call] in Hcall, Hnamed.
  - unfold create_parent_group in Hcall. same_named Hcall IH.
  - unfold add_set_to_group in Hcall. same_named Hcall IH.
  - unfold remove_set_from_group in Hcall. same_named Hcall IH.
  - unfold rename_parent_group in Hcall. same_named Hcall IH.
  - unfold delete_parent_group in Hcall. same_named Hcall IH.
  - unfold update_group_position in Hcall. same_named Hcall IH.
  - unfold update_group_size in Hcall. same_named Hcall IH.
  - unfold update_group_color in Hcall. same_named Hcall IH.
  - unfold update_group_transparency in Hcall. same_named Hcall IH.
  - by eapply create_set_named.
  - by eapply rename_set_named.
  - by eapply delete_set_named.
  - unfold select_set, select_objects_with_channel_filtering, filtering_failed in Hcall.
    same_named Hcall IH.
  - unfold select_objects_with_channel_filtering, filtering_failed in Hcall.
    same_named Hcall IH.
  - by eapply set_parent_named.
  - unfold update_set_position in Hcall. same_named Hcall IH.
  - unfold update_set_size in Hcall. same_named Hcall IH.
  - unfold update_set_color in Hcall. same_named Hcall IH.
  - unfold update_set_transparency in Hcall. same_named Hcall IH.
  - unfold update_channel_state in Hcall. same_named Hcall IH.
  - unfold set_background_image in Hcall. same_named Hcall IH.
  - unfold export_sets, export_failed in Hcall. same_named Hcall IH.
  - done.
Qed.

Lemma a_over_b_reachable_by_named_calls : reachable_by_named_calls a_over_b.
Proof.
  set (h := cube_scene JNull).
  set (st1 := state_after (create_set h 2 init "a")).
  set (st2 := state_after (create_set h 2 st1 "b")).
  apply (named_step (SetParent 2 "b" (Some "a")) st2); [|discriminate|by vm_compute].
  apply (named_step (CreateSet h 2 "b") st1); [|discriminate|by vm_compute].
  apply (named_step (CreateSet h 2 "a") init); [|discriminate|by vm_compute].
  apply named_init.
Qed.

Lemma named_calls_keep_forest_witness : forest a_over_b ∧ named_hierarchy a_over_b.
Proof.
  apply (named_calls_keep_forest a_over_b). exact a_over_b_reachable_by_named_calls.
Defined.

(** ** Export followed by import: groups, flags and looks *)

(** A loop whose every round returns, followed round by round. *)
Lemma for_each_steps {A B} (f : A → B) (body : B → proc)
    (P : list A → Manager → Prop) (l : list A) :
  (∀ done a rest s, l = (done ++ a :: rest)%list → P done s →
     ∃ s', body (f a) s = (None, s') ∧ P (done ++ [a])%list s') →
  ∀ st, P [] st → ∃ st', for_each body (f <$> l) st = (None, st') ∧ P l st'.
Proof.
  intros Hstep.
  assert (∀ rest done st, l = (done ++ rest)%list → P done st →
            ∃ st', for_each body (f <$> rest) st = (None, st') ∧ P l st') as Hgen.
  { induction rest as [|a rest IH]; intros done st Hl HP.
    - exists st. rewrite app_nil_r in Hl. by subst.
    - destruct (Hstep done a rest st Hl HP) as (s' & Hrun & HP').
      destruct (IH (done ++ [a])%list s') as (st' & Hloop & Hfinal); [|done|].
      { by rewrite <- app_assoc. }
      exists st'. rewrite fmap_cons. cbn [for_each]. unfold seq. by rewrite Hrun. }
  intros st HP. by apply (Hgen l []).
Qed.

Lemma import_property_table (table : gmap string json) (name : string)
    (default : Manager → json) (store : json → Manager → Manager) (acc : Manager) :
  import_property (dump_values table) name default store acc
  = (None, store (match table !! name with Some v => v | None => default acc end) acc).
Proof.
  unfold import_property, eval, assign, dump_values. cbn.
  rewrite assoc_map_to_list. by destruct (table !! name).
Qed.

Lemma valid_sets_filter (acc : Manager) (members : list string) :
  valid_sets acc (JStr <$> members) = inr (List.filter (has_key (sets acc)) members).
Proof.
  induction members as [|m members IH]; [done|].
  cbn. rewrite IH. cbn. by destruct (has_key (sets acc) m).
Qed.

Lemma fresh_in_prefix {V} (done rest : list (string * V)) (name : string) (v : V) :
  NoDup (done ++ (name, v) :: rest)%list.*1 → name ∉ done.*1.
Proof.
  rewrite fmap_app, fmap_cons. cbn. intros Hnodup Hin.
  apply NoDup_app in Hnodup as (_ & Hdisjoint & _).
  apply (Hdisjoint name Hin). by left.
Qed.

Lemma elem_of_fst_snoc {V} (done : list (string * V)) (name x : string) (v : V) :
  x ∈ (done ++ [(name, v)])%list.*1 ↔ x ∈ done.*1 ∨ x = name.
Proof.
  rewrite fmap_app, elem_of_app. cbn. by rewrite list_elem_of_singleton.
Qed.

(** The looks after one more entry: what was kept stays, and the new name
    has what the table held for it. *)
Lemma looks_kept_insert (names : string → Prop) (before now : Looks) (name : string)
    (vp vc vs vt : json) :
  looks_kept names before now →
  (∀ w, look_positions before !! name = Some w → vp = w) →
  (∀ w, look_colors before !! name = Some w → vc = w) →
  (∀ w, look_sizes before !! name = Some w → vs = w) →
  (∀ w, look_transparency before !! name = Some w → vt = w) →
  looks_kept (fun x => names x ∨ x = name) before
    {| look_positions := <[name := vp]> (look_positions now);
       look_colors := <[name := vc]> (look_colors now);
       look_sizes := <[name := vs]> (look_sizes now);
       look_transparency := <[name := vt]> (look_transparency now) |}.
Proof.
  intros Hkept Hp Hc Hs Ht x Hx. cbn.
  destruct (decide (x = name)) as [->|Hne].
  - rewrite !lookup_insert_eq.
    repeat split; intros w Hw; f_equal; auto.
  - rewrite !lookup_insert_ne by done.
    destruct Hx as [Hx|Hx]; [|done]. by apply Hkept.
Qed.

Lemma looks_kept_names (names names' : string → Prop) (before now : Looks) :
  (∀ x, names' x → names x) → looks_kept names before now → looks_kept names' before now.
Proof. intros Hsub Hkept x Hx. by apply Hkept, Hsub. Qed.

Section RoundTripLooks.
Variable h : Host.

Lemma import_set_step (before : Looks) (name : string) (objects : list string)
    (acc : Manager) :
  objects ≠ [] →
  (∀ obj, obj ∈ objects → objExists h obj = true) →
  ∃ vp vc vs vt,
    import_set h (dump_values (look_positions before)) (dump_values (look_colors before))
      (dump_values (look_sizes before)) (dump_values (look_transparency before))
      (name, JList (JStr <$> objects)) acc
    = (None,
       with_set_transparency (<[name := vt]> (set_transparency acc))
         (with_set_sizes (<[name := vs]> (set_sizes acc))
            (with_set_colors (<[name := vc]> (set_colors acc))
               (with_set_positions (<[name := vp]> (set_positions acc))
                  (with_sets (<[name := objects]> (sets acc)) acc))))) ∧
    (∀ w, look_positions before !! name = Some w → vp = w) ∧
    (∀ w, look_colors before !! name = Some w → vc = w) ∧
    (∀ w, look_sizes before !! name = Some w → vs = w) ∧
    (∀ w, look_transparency before !! name = Some w → vt = w).
Proof.
  intros Hne Hall. unfold import_set, eval. cbn [Py.iter fst snd].
  rewrite valid_objects_all by done.
  destruct objects as [|obj objects]; [done|].
  unfold seq at 1. unfold assign at 1.
  unfold seq at 1. rewrite import_property_table.
  unfold seq at 1. rewrite import_property_table.
  unfold seq at 1. rewrite import_property_table.
  rewrite import_property_table. read_fields.
  eexists _, _, _, _. split; [reflexivity|].
  repeat split; intros w ->; done.
Qed.

Lemma import_set_loop_looks (before : Looks) (items : list (string * list string))
    (acc0 : Manager) :
  NoDup items.*1 →
  (∀ name objects, (name, objects) ∈ items →
     objects ≠ [] ∧ ∀ obj, obj ∈ objects → objExists h obj = true) →
  sets acc0 = ∅ →
  ∃ acc',
    for_each (import_set h (dump_values (look_positions before))
                (dump_values (look_colors before)) (dump_values (look_sizes before))
                (dump_values (look_transparency before)))
      ((fun kv => (kv.1, JList (JStr <$> kv.2))) <$> items) acc0 = (None, acc') ∧
    sets_stored before acc0 items acc'.
Proof.
  intros Hnodup Hitems Hempty.
  apply (for_each_steps (fun kv : string * list string => (kv.1, JList (JStr <$> kv.2)))
           _ (sets_stored before acc0)).
  - intros done [name objects] rest s Hl
      (Hsets & Hdom & Hlooks & Hparents & Hgroups & Hglooks & Hchannels).
    assert (name ∉ done.*1) as Hfresh.
    { apply (fresh_in_prefix done rest name objects). by rewrite <- Hl. }
    destruct (Hitems name objects) as [Hne Hall].
    { rewrite Hl. apply elem_of_app. right. by left. }
    destruct (import_set_step before name objects s Hne Hall)
      as (vp & vc & vs & vt & Hrun & Hp & Hc & Hs & Ht).
    eexists. split; [exact Hrun|]. unfold sets_stored, set_looks, group_looks in *.
    read_fields. split; [|split; [|split]].
    + intros x objs [Hin|Hin]%elem_of_app.
      * rewrite lookup_insert_ne; [by apply Hsets|].
        intros <-. apply Hfresh. apply list_elem_of_fmap. by exists (name, objs).
      * apply list_elem_of_singleton in Hin. injection Hin as -> ->.
        apply lookup_insert_eq.
    + intros x. rewrite dom_insert_L, elem_of_fst_snoc.
      intros [->%elem_of_singleton|Hx]%elem_of_union; [by right | left; by apply Hdom].
    + eapply looks_kept_names; [|by apply (looks_kept_insert _ _ _ name vp vc vs vt Hlooks)].
      intros x Hx. by apply elem_of_fst_snoc in Hx.
    + done.
  - unfold sets_stored. split; [|split; [|split]].
    + intros name objects Hin. by apply elem_of_nil in Hin.
    + intros name Hin. rewrite Hempty, dom_empty_L in Hin.
      by apply not_elem_of_empty in Hin.
    + intros name Hin. by apply elem_of_nil in Hin.
    + done.
Qed.

End RoundTripLooks.

Lemma parents_only_trans (acc0 acc acc' : Manager) :
  parents_only acc0 acc → parents_only acc acc' → parents_only acc0 acc'.
Proof.
  unfold parents_only. intros (-> & -> & -> & -> & ->) (-> & -> & -> & -> & ->). done.
Qed.

Lemma import_parent_only (name : string) (parent : option string) (acc : Manager) :
  ∃ acc', import_parent (name, dump_parent parent) acc = (None, acc') ∧
          parents_only acc acc'.
Proof.
  unfold import_parent. cbn [fst snd].
  destruct (has_key (sets acc) name); [|by eexists].
  destruct parent as [p|]; cbn; [|by eexists].
  destruct (has_key (sets acc) p); by eexists.
Qed.

Lemma import_parent_loop_only (items : list (string * option string)) (acc0 : Manager) :
  ∃ acc',
    for_each import_parent ((fun kv => (kv.1, dump_parent kv.2)) <$> items) acc0
    = (None, acc') ∧
    parents_only acc0 acc'.
Proof.
  apply (for_each_steps (fun kv : string * option string => (kv.1, dump_parent kv.2))
           _ (fun _ => parents_only acc0)); [|done].
  intros done [name parent] rest s _ Hs.
  destruct (import_parent_only name parent s) as (s' & Hrun & Hs').
  exists s'. split; [done|]. by eapply parents_only_trans.
Qed.

Lemma import_group_step (before : Looks) (name : string) (members : list string)
    (acc : Manager) :
  ∃ vp vc vs vt,
    import_group (dump_values (look_positions before)) (dump_values (look_colors before))
      (dump_values (look_sizes before)) (dump_values (look_transparency before))
      (name, JList (JStr <$> members)) acc
    = (None,
       with_group_transparency (<[name := vt]> (group_transparency acc))
         (with_group_sizes (<[name := vs]> (group_sizes acc))
            (with_group_colors (<[name := vc]> (group_colors acc))
               (with_group_positions (<[name := vp]> (group_positions acc))
                  (with_parent_groups
                     (<[name := List.filter (has_key (sets acc)) members]>
                        (parent_groups acc)) acc))))) ∧
    (∀ w, look_positions before !! name = Some w → vp = w) ∧
    (∀ w, look_colors before !! name = Some w → vc = w) ∧
    (∀ w, look_sizes before !! name = Some w → vs = w) ∧
    (∀ w, look_transparency before !! name = Some w → vt = w).
Proof.
  unfold import_group, eval. cbn [Py.iter fst snd].
  rewrite valid_sets_filter.
  unfold seq at 1. unfold assign at 1.
  unfold seq at 1. rewrite import_property_table.
  unfold seq at 1. rewrite import_property_table.
  unfold seq at 1. rewrite import_property_table.
  rewrite import_property_table. read_fields.
  eexists _, _, _, _. split; [reflexivity|].
  repeat split; intros w ->; done.
Qed.

Lemma import_group_loop_looks (before : Looks) (items : list (string * list string))
    (acc0 : Manager) :
  NoDup items.*1 →
  parent_groups acc0 = ∅ →
  ∃ acc',
    for_each (import_group (dump_values (look_positions before))
                (dump_values (look_colors before)) (dump_values (look_sizes before))
                (dump_values (look_transparency before)))
      ((fun kv => (kv.1, JList (JStr <$> kv.2))) <$> items) acc0 = (None, acc') ∧
    groups_stored before acc0 items acc'.
Proof.
  intros Hnodup Hempty.
  apply (for_each_steps (fun kv : string * list string => (kv.1, JList (JStr <$> kv.2)))
           _ (groups_stored before acc0)).
  - intros done [name members] rest s Hl
      (Hgroups & Hdom & Hlooks & Hsets & Hslooks & Hchannels).
    assert (name ∉ done.*1) as Hfresh.
    { apply (fresh_in_prefix done rest name members). by rewrite <- Hl. }
    destruct (import_group_step before name members s)
      as (vp & vc & vs & vt & Hrun & Hp & Hc & Hs & Ht).
    eexists. split; [exact Hrun|]. unfold groups_stored, set_looks, group_looks in *.
    read_fields. split; [|split; [|split]].
    + intros x l [Hin|Hin]%elem_of_app.
      * rewrite lookup_insert_ne; [by apply Hgroups|].
        intros <-. apply Hfresh. apply list_elem_of_fmap. by exists (name, l).
      * apply list_elem_of_singleton in Hin. injection Hin as -> ->.
        rewrite lookup_insert_eq. by rewrite Hsets.
    + intros x. rewrite dom_insert_L, elem_of_fst_snoc.
      intros [->%elem_of_singleton|Hx]%elem_of_union; [by right | left; by apply Hdom].
    + eapply looks_kept_names; [|by apply (looks_kept_insert _ _ _ name vp vc vs vt Hlooks)].
      intros x Hx. by apply elem_of_fst_snoc in Hx.
    + done.
  - unfold groups_stored. split; [|split; [|split]].
    + intros name members Hin. by apply elem_of_nil in Hin.
    + intros name Hin. rewrite Hempty, dom_empty_L in Hin.
      by apply not_elem_of_empty in Hin.
    + intros name Hin. by apply elem_of_nil in Hin.
    + done.
Qed.

Lemma import_background_keeps_looks (h : Host) (data : list (string * json))
    (path : string) (st : Manager) :
  set_looks (import_background h data path st).1 = set_looks st ∧
  group_looks (import_background h data path st).1 = group_looks st ∧
  parent_groups (import_background h data path st).1 = parent_groups st ∧
  active_channels (import_background h data path st).1 = active_channels st.
Proof.
  unfold import_background.
  destruct (Py.get "background_image" JNull data) as [| | | | |[|item d]]; try done.
  by destruct (restore_image h _ path).
Qed.

Lemma elem_of_keys {V} (m : gmap string V) (name : string) :
  name ∈ (map_to_list m).*1 ↔ name ∈ dom m.
Proof.
  rewrite list_elem_of_fmap, elem_of_dom. split.
  - intros ([k v] & -> & Hin). apply elem_of_map_to_list in Hin. by eexists.
  - intros [v Hv]. exists (name, v). split; [done|]. by apply elem_of_map_to_list.
Qed.

(** The loops of the import, run on what the export wrote. *)
Lemma import_registries_of_export_looks (h : Host) (st st0 : Manager) (image : json) :
  (∀ name objects, sets st !! name = Some objects → objects ≠ []) →
  scene_has_objects h st →
  ∃ st',
    import_registries h (export_items st image) st0 = (None, st') ∧
    active_channels st' = active_channels st ∧
    (∀ group, parent_groups st' !! group
              = List.filter (has_key (sets st)) <$> parent_groups st !! group) ∧
    looks_kept (fun name => name ∈ dom (sets st)) (set_looks st) (set_looks st') ∧
    looks_kept (fun group => group ∈ dom (parent_groups st)) (group_looks st)
      (group_looks st').
Proof.
  intros Hnonempty Hscene.
  unfold import_registries, export_items.
  cbn [Py.get Py.assoc String.eqb Ascii.eqb Bool.eqb andb].
  unfold seq at 1. rewrite import_channels_dumped.
  unfold seq at 1. unfold assign at 1.
  set (cleared := clear_registries _).
  unfold dump_lists, dump_parents, eval. cbn [Py.items].
  destruct (import_set_loop_looks h (set_looks st) (map_to_list (sets st)) cleared)
    as (st1 & Hloop1 & Hsets1 & Hdom1 & Hlooks1 & _ & Hgroups1 & _ & Hchannels1).
  { apply NoDup_fst_map_to_list. }
  { intros name objects Hin. apply elem_of_map_to_list in Hin. split.
    - by eapply Hnonempty.
    - intros obj Hobj. by eapply Hscene. }
  { done. }
  unfold seq at 1. cbn [set_looks look_positions look_colors look_sizes look_transparency]
    in Hloop1. rewrite Hloop1.
  assert (sets st1 = sets st) as Hsets.
  { apply map_eq. intros name. destruct (sets st !! name) as [objects|] eqn:Hname.
    - apply Hsets1. by apply elem_of_map_to_list.
    - apply not_elem_of_dom. intros Hin%Hdom1%elem_of_keys.
      by apply not_elem_of_dom in Hname. }
  destruct (import_parent_loop_only (map_to_list (set_parents st)) st1)
    as (st2 & Hloop2 & Hsets2 & Hslooks2 & Hgroups2 & _ & Hchannels2).
  unfold seq at 1. rewrite Hloop2.
  destruct (import_group_loop_looks (group_looks st) (map_to_list (parent_groups st)) st2)
    as (st3 & Hloop3 & Hgroups3 & Hdom3 & Hlooks3 & _ & Hslooks3 & Hchannels3).
  { apply NoDup_fst_map_to_list. }
  { by rewrite Hgroups2, Hgroups1. }
  cbn [group_looks look_positions look_colors look_sizes look_transparency] in Hloop3.
  exists st3. split; [exact Hloop3|]. split; [|split; [|split]].
  - by rewrite Hchannels3, Hchannels2, Hchannels1.
  - intros group. destruct (parent_groups st !! group) as [members|] eqn:Hgroup; cbn.
    + rewrite (Hgroups3 group members) by (by apply elem_of_map_to_list).
      by rewrite Hsets2, Hsets.
    + apply not_elem_of_dom. intros Hin%Hdom3%elem_of_keys.
      by apply not_elem_of_dom in Hgroup.
  - rewrite Hslooks3, Hslooks2. eapply looks_kept_names; [|exact Hlooks1].
    intros name Hname. by apply elem_of_keys.
  - eapply looks_kept_names; [|exact Hlooks3].
    intros group Hgroup. by apply elem_of_keys.
Qed.

(** X18: for every state the manager can reach, in a scene where every
    recorded object exists, when [export_sets] has written the file,
    [import_sets] of that file, into any manager, returns [True] and brings
    back the customization: the six channel flags are the exported ones,
    every parent group is there with its members in their order (the names
    that are not sets any more left out), and every position, color, size
    and transparency stored for a set or for a group is stored again with
    the same value. *)
Theorem export_import_restores_customization (h : Host) (st st0 : Manager)
    (path : string) (tr : list event) :
  reachable st →
  scene_has_objects h st →
  export_sets h st path = Returns true st tr →
  ∃ st' tr',
    import_sets (host_after h tr) st0 path = Returns true st' tr' ∧
    active_channels st' = active_channels st ∧
    (∀ group, parent_groups st' !! group
              = List.filter (has_key (sets st)) <$> parent_groups st !! group) ∧
    looks_kept (fun name => name ∈ dom (sets st)) (set_looks st) (set_looks st') ∧
    looks_kept (fun group => group ∈ dom (parent_groups st)) (group_looks st)
      (group_looks st').
Proof.
  intros Hreach Hscene Hexport.
  destruct (reachable_well_formed st Hreach) as [Hnonempty _].
  apply export_sets_written in Hexport as [_ [image ->]].
  set (h' := host_after h _).
  assert (scene_has_objects h' st) as Hscene' by exact Hscene.
  destruct (import_registries_of_export_looks h' st st0 image Hnonempty Hscene')
    as (st2 & Hrun & Hchannels & Hgroups & Hslooks & Hglooks).
  unfold import_sets, json_load.
  replace (files h' !! path) with (Some (Document (export_data st image)))
    by (symmetry; apply lookup_insert_eq).
  unfold export_data. cbn [Py.assoc export_items String.eqb Ascii.eqb Bool.eqb andb].
  fold (export_items st image). rewrite Hrun.
  destruct (import_background_keeps_looks h' (export_items st image) path st2)
    as (Hs & Hg & Hp & Hc).
  destruct (import_background h' (export_items st image) path st2) as [st3 tr3].
  cbn [fst] in Hs, Hg, Hp, Hc.
  exists st3, tr3. split; [done|]. by rewrite Hs, Hg, Hp, Hc.
Qed.

Lemma family_in_group_has_objects : scene_has_objects (cube_scene JNull) family_in_group.
Proof.
  intros name objects obj H Hobj.
  each_item H; injection H as -> ->;
    apply list_elem_of_singleton in Hobj as ->; reflexivity.
Qed.

Lemma export_import_restores_customization_witness :
  let h := cube_scene JNull in
  let tr := [FileWritten "out.json" (export_data family_in_group JNull)] in
  ∃ st' tr',
    import_sets (host_after h tr) init "out.json" = Returns true st' tr' ∧
    active_channels st' = active_channels family_in_group ∧
    (∀ group, parent_groups st' !! group
              = List.filter (has_key (sets family_in_group))
                  <$> parent_groups family_in_group !! group) ∧
    looks_kept (fun name => name ∈ dom (sets family_in_group))
      (set_looks family_in_group) (set_looks st') ∧
    looks_kept (fun group => group ∈ dom (parent_groups family_in_group))
      (group_looks family_in_group) (group_looks st').
Proof.
  apply (export_import_restores_customization (cube_scene JNull) family_in_group init
           "out.json").
  - exact family_in_group_reachable.
  - exact family_in_group_has_objects.
  - reflexivity.
Defined.

(** ** Examples for the properties of the parent groups *)

Lemma delete_parent_group_frame_witness :
  ∃ st',
    delete_parent_group family_in_group "g" = Returns true st' [] ∧
    parent_groups st' = delete "g" (parent_groups family_in_group) ∧
    group_positions st' = delete "g" (group_positions family_in_group) ∧
    group_colors st' = delete "g" (group_colors family_in_group) ∧
    group_sizes st' = delete "g" (group_sizes family_in_group) ∧
    group_transparency st' = delete "g" (group_transparency family_in_group) ∧
    sets st' = sets family_in_group ∧
    set_positions st' = set_positions family_in_group ∧
    set_colors st' = set_colors family_in_group ∧
    set_sizes st' = set_sizes family_in_group ∧
    set_transparency st' = set_transparency family_in_group ∧
    set_parents st' = set_parents family_in_group.
Proof.
  apply (delete_parent_group_frame family_in_group "g").
  apply elem_of_dom. vm_compute. by eexists.
Defined.

Lemma family_with_two_groups_without_duplicates :
  groups_without_duplicates family_with_two_groups.
Proof.
  intros group members H. each_item H; injection H as -> ->.
  - apply NoDup_singleton.
  - apply NoDup_nil_2.
Qed.

Lemma add_set_to_two_groups_witness :
  ∃ st1 st2,
    add_set_to_group family_with_two_groups "b" "g" = Returns true st1 [] ∧
    add_set_to_group st1 "b" "h" = Returns true st2 [] ∧
    in_group st2 "b" "h" ∧
    ∀ g, in_group st2 "b" g → g = "h".
Proof.
  apply (add_set_to_two_groups family_with_two_groups "b" "g" "h").
  - apply elem_of_dom. vm_compute. by eexists.
  - apply elem_of_dom. vm_compute. by eexists.
  - apply elem_of_dom. vm_compute. by eexists.
  - exact family_with_two_groups_without_duplicates.
Defined.

(** ** The channel flags *)

(** The case of one of the six names. *)
Ltac one_flag :=
  cbn; eexists; split; [reflexivity|]; split; [reflexivity|]; split; [|done];
  intros other Hother; cbn;
  repeat match goal with
  | |- context [String.eqb other ?s] => destruct (String.eqb_spec other s) as [->|?]
  end; done.

(** X23: [update_channel_state] accepts the six channel names and no other.
    For one of the six it returns [True], stores the state given under that
    name and leaves the other five flags and every registry as they were;
    for any other name it returns [False] and the manager, which gets no
    new key, is unchanged. *)
Theorem update_channel_state_sets_one_flag (st : Manager) (channel : string)
    (state : json) :
  match channel_flag (active_channels st) channel with
  | Some _ =>
      ∃ st',
        update_channel_state st channel state = Returns true st' [] ∧
        channel_flag (active_channels st') channel = Some state ∧
        (∀ other, other ≠ channel →
           channel_flag (active_channels st') other
           = channel_flag (active_channels st) other) ∧
        sets st' = sets st ∧ set_parents st' = set_parents st ∧
        parent_groups st' = parent_groups st ∧
        set_looks st' = set_looks st ∧ group_looks st' = group_looks st ∧
        background_image st' = background_image st
  | None => update_channel_state st channel state = Returns false st []
  end.
Proof.
  unfold update_channel_state, assign_channel, channel_flag.
  destruct (String.eqb_spec channel "tx") as [->|?]; [one_flag|].
  destruct (String.eqb_spec channel "ty") as [->|?]; [one_flag|].
  destruct (String.eqb_spec channel "tz") as [->|?]; [one_flag|].
  destruct (String.eqb_spec channel "rx") as [->|?]; [one_flag|].
  destruct (String.eqb_spec channel "ry") as [->|?]; [one_flag|].
  destruct (String.eqb_spec channel "rz") as [->|?]; [one_flag|].
  done.
Qed.

(** ** Examples for the operations that fail or only read *)

Lemma failing_operation_keeps_state_witness :
  rename_set a_over_b "a" "b" = Returns false a_over_b [set_exists_warning "b"] ∧
  set_parent 3 a_over_b "a" (Some "b")
  = Returns false a_over_b [circular_warning "a" "b"] ∧
  (∀ st', rename_set a_over_b "a" "b" = Returns false st' [set_exists_warning "b"] →
          st' = a_over_b) ∧
  (∀ st', set_parent 3 a_over_b "a" (Some "b")
          = Returns false st' [circular_warning "a" "b"] →
          st' = a_over_b).
Proof.
  split; [by vm_compute|]. split; [by vm_compute|]. split; intros st'.
  - pose proof (failing_operation_keeps_state (cube_scene JNull) 3 a_over_b st'
                  [set_exists_warning "b"] "a" "b" (Some "b") 0 0 0 JNull true)
      as (_ & _ & _ & _ & _ & _ & _ & _ & _ & Hrename & _).
    exact Hrename.
  - pose proof (failing_operation_keeps_state (cube_scene JNull) 3 a_over_b st'
                  [circular_warning "a" "b"] "a" "b" (Some "b") 0 0 0 JNull true)
      as (_ & _ & _ & _ & _ & _ & _ & _ & _ & _ & _ & _ & Hparent & _).
    exact Hparent.
Defined.

Lemma import_sets_early_failure_keeps_state_witness :
  import_sets (cube_scene (JList [])) a_over_b "missing.json"
  = Returns false a_over_b [Warning "Failed to import sets: OSError"] ∧
  import_sets (cube_scene (JList [])) a_over_b "sets.json"
  = Returns false a_over_b [Warning "Invalid JSON format for sets."].
Proof.
  destruct (import_sets_early_failure_keeps_state (cube_scene (JList [])) a_over_b
              "missing.json") as [Hmissing _].
  destruct (import_sets_early_failure_keeps_state (cube_scene (JList [])) a_over_b
              "sets.json") as [_ Hformat].
  split.
  - exact (Hmissing OSError eq_refl).
  - apply (Hformat (JList [])); [reflexivity | discriminate].
Defined.

Lemma selection_and_export_keep_manager_witness :
  left_by (select_set (cube_scene JNull) 3 a_over_b "a" true) = Some a_over_b ∧
  left_by (export_sets (cube_scene JNull) a_over_b "out.json") = Some a_over_b.
Proof.
  assert (∃ st', left_by (select_set (cube_scene JNull) 3 a_over_b "a" true) = Some st')
    as [st1 H1] by (by eexists).
  assert (∃ st', left_by (export_sets (cube_scene JNull) a_over_b "out.json") = Some st')
    as [st2 H2] by (by eexists).
  split.
  - rewrite H1. f_equal.
    by apply (selection_and_export_keep_manager (cube_scene JNull) rig_relatives 3
                a_over_b st1 "a" [] true).
  - rewrite H2. f_equal.
    by apply (selection_and_export_keep_manager (cube_scene JNull) rig_relatives 3
                a_over_b st2 "out.json" [] true).
Defined.

Lemma update_channel_state_sets_one_flag_witness :
  ∃ st',
    update_channel_state init "tx" (JBool false) = Returns true st' [] ∧
    channel_flag (active_channels st') "tx" = Some (JBool false) ∧
    (∀ other, other ≠ "tx" →
       channel_flag (active_channels st') other = channel_flag (active_channels init) other) ∧
    sets st' = sets init ∧ set_parents st' = set_parents init ∧
    parent_groups st' = parent_groups init ∧
    set_looks st' = set_looks init ∧ group_looks st' = group_looks init ∧
    background_image st' = background_image init.
Proof.
  exact (update_channel_state_sets_one_flag init "tx" (JBool false)).
Defined.
